(** * tongues: the image translation pipeline (src/pipeline.js)

    A shallow embedding of the pipeline and the properties its
    specification states about it.

    Modelling conventions.
    - Strings on the request side (paths, language names, model
      identifiers, credentials, error messages) are [string]s whose
      characters stand for the code units U+0000..U+00FF, the range on
      which [toLowerCase] is tabulated below.
    - Text that travels to and from the model is a [jsstring]: a list of
      UTF-16 code units, since a JSON escape can denote any of them.
    - A parsed JSON value is a [json]; a number in it is a binary64,
      kept as the rational it denotes, or an infinity.
    - [await] is sequential: an asynchronous function is a computation
      in the monad [M], which threads the [World] (file system,
      environment, upstream service, log of upstream calls) and may
      throw.
    - Host functions ([node:path] in its POSIX flavour, [JSON],
      [Buffer], [node:fs/promises]) are modelled in modules named after
      them. The file system holds regular files only, and writing a
      file always succeeds. *)

From Stdlib Require Import ZArith QArith Ascii String DecimalString List Lia.
From Stdlib Require Strings.Byte.
From stdpp Require Import base gmap strings list.

Close Scope Q_scope.
Open Scope Z_scope.

(** ** Request-side strings *)

Module Str.

Definition length (s : string) : Z := Z.of_nat (String.length s).

(** [s.slice(from, to)] for indices within [0, length]. *)
Definition slice (s : string) (from to : Z) : string :=
  String.substring (Z.to_nat from) (Z.to_nat (to - from)) s.

(** [s[i] === c] *)
Definition charIs (s : string) (i : Z) (c : ascii) : bool :=
  if i <? 0 then false else
  match String.get (Z.to_nat i) s with
  | Some d => if ascii_dec d c then true else false
  | None => false
  end.

Fixpoint lastIndexOf_from (c : ascii) (s : string) (i : Z) (found : Z) : Z :=
  match s with
  | EmptyString => found
  | String d s' =>
      lastIndexOf_from c s' (i + 1) (if ascii_dec d c then i else found)
  end.

(** [s.lastIndexOf(c)] for a one-character needle, [-1] when absent. *)
Definition lastIndexOf (s : string) (c : ascii) : Z :=
  lastIndexOf_from c s 0 (-1).

Definition lower (c : ascii) : ascii :=
  let n := N_of_ascii c in
  if ((65 <=? n) && (n <=? 90) ||
      (192 <=? n) && (n <=? 222) && negb (n =? 215))%N
  then ascii_of_N (n + 32) else c.

(** [s.toLowerCase()] on U+0000..U+00FF: A-Z and the capital letters
    of U+00C0..U+00DE (all but the multiplication sign U+00D7) move up
    by 32, every other character lowers to itself. *)
Fixpoint toLowerCase (s : string) : string :=
  match s with
  | EmptyString => EmptyString
  | String c s' => String (lower c) (toLowerCase s')
  end.

(** [haystack.includes(needle)] *)
Fixpoint includes (haystack needle : string) : bool :=
  String.prefix needle haystack ||
  match haystack with
  | EmptyString => false
  | String _ h => includes h needle
  end.

Definition eqb (a b : string) : bool := if string_dec a b then true else false.

(** A string in a condition: every string but the empty one is
    truthy. *)
Definition truthy (s : string) : bool := negb (eqb s "").

End Str.

(** ** Counted loops

    [for (let i = hi; i >= lo; --i) body] with an accumulated state and
    [break]: the body returns the new state and whether to stop. *)

Fixpoint for_down {S : Type} (n : nat) (i : Z) (body : Z -> S -> S * bool) (st : S) : S :=
  match n with
  | O => st
  | Datatypes.S n' =>
      let '(st', stop) := body i st in
      if stop then st' else for_down n' (i - 1) body st'
  end.

(** [for (let i = lo; i < lo + n; ++i) body], same conventions. *)
Fixpoint for_up {S : Type} (n : nat) (i : Z) (body : Z -> S -> S * bool) (st : S) : S :=
  match n with
  | O => st
  | Datatypes.S n' =>
      let '(st', stop) := body i st in
      if stop then st' else for_up n' (i + 1) body st'
  end.

(** ** node:path (POSIX) *)

Module Path.

Record ext_state := ExtState
  { startDot : Z; startPart : Z; end_ : Z; matchedSlash : bool; preDotState : Z }.

Definition extname_body (path : string) (i : Z) (st : ext_state) : ext_state * bool :=
  if Str.charIs path i "/" then
    if negb (matchedSlash st)
    then (ExtState (startDot st) (i + 1) (end_ st) (matchedSlash st) (preDotState st), true)
    else (st, false)
  else
    let st :=
      if end_ st =? -1
      then ExtState (startDot st) (startPart st) (i + 1) false (preDotState st)
      else st in
    if Str.charIs path i "." then
      if startDot st =? -1
      then (ExtState i (startPart st) (end_ st) (matchedSlash st) (preDotState st), false)
      else if negb (preDotState st =? 1)
      then (ExtState (startDot st) (startPart st) (end_ st) (matchedSlash st) 1, false)
      else (st, false)
    else if negb (startDot st =? -1)
    then (ExtState (startDot st) (startPart st) (end_ st) (matchedSlash st) (-1), false)
    else (st, false).

(** [path.extname(p)]: the part of the last path component from its
    last dot on; empty when there is no dot, when the component starts
    with its only dot, or when the component is [..]. *)
Definition extname (path : string) : string :=
  let st := for_down (String.length path) (Str.length path - 1)
              (extname_body path) (ExtState (-1) 0 (-1) true 0) in
  if (startDot st =? -1) || (end_ st =? -1) || (preDotState st =? 0) ||
     ((preDotState st =? 1) && (startDot st =? end_ st - 1) &&
      (startDot st =? startPart st + 1))
  then EmptyString
  else Str.slice path (startDot st) (end_ st).

Record dir_state := DirState { d_end : Z; d_matchedSlash : bool }.

Definition dirname_body (path : string) (i : Z) (st : dir_state) : dir_state * bool :=
  if Str.charIs path i "/" then
    if negb (d_matchedSlash st) then (DirState i (d_matchedSlash st), true)
    else (st, false)
  else (DirState (d_end st) false, false).

(** [path.dirname(p)] *)
Definition dirname (path : string) : string :=
  if Str.length path =? 0 then "."%string else
  let hasRoot := Str.charIs path 0 "/" in
  let st := for_down (String.length path - 1) (Str.length path - 1)
              (dirname_body path) (DirState (-1) true) in
  if d_end st =? -1 then (if hasRoot then "/" else ".")%string
  else if hasRoot && (d_end st =? 1) then "//"%string
  else Str.slice path 0 (d_end st).

Record base_state := BaseState
  { b_start : Z; b_end : Z; b_matchedSlash : bool;
    extIdx : Z; firstNonSlashEnd : Z }.

Definition basename_suffix_body (path suffix : string) (i : Z) (st : base_state)
  : base_state * bool :=
  if Str.charIs path i "/" then
    if negb (b_matchedSlash st)
    then (BaseState (i + 1) (b_end st) (b_matchedSlash st) (extIdx st)
            (firstNonSlashEnd st), true)
    else (st, false)
  else
    let st :=
      if firstNonSlashEnd st =? -1
      then BaseState (b_start st) (b_end st) false (extIdx st) (i + 1)
      else st in
    if extIdx st >=? 0 then
      if match String.get (Z.to_nat i) path, String.get (Z.to_nat (extIdx st)) suffix with
         | Some c, Some d => if ascii_dec c d then true else false
         | _, _ => false
         end
      then
        let extIdx' := extIdx st - 1 in
        (BaseState (b_start st) (if extIdx' =? -1 then i else b_end st)
           (b_matchedSlash st) extIdx' (firstNonSlashEnd st), false)
      else
        (BaseState (b_start st) (firstNonSlashEnd st) (b_matchedSlash st) (-1)
           (firstNonSlashEnd st), false)
    else (st, false).

Definition basename_plain_body (path : string) (i : Z) (st : base_state)
  : base_state * bool :=
  if Str.charIs path i "/" then
    if negb (b_matchedSlash st)
    then (BaseState (i + 1) (b_end st) (b_matchedSlash st) (extIdx st)
            (firstNonSlashEnd st), true)
    else (st, false)
  else if b_end st =? -1
  then (BaseState (b_start st) (i + 1) false (extIdx st) (firstNonSlashEnd st), false)
  else (st, false).

(** [path.basename(p, suffix)] *)
Definition basename (path suffix : string) : string :=
  if (0 <? Str.length suffix) && (Str.length suffix <=? Str.length path) then
    if Str.eqb suffix path then EmptyString else
    let st := for_down (String.length path) (Str.length path - 1)
                (basename_suffix_body path suffix)
                (BaseState 0 (-1) true (Str.length suffix - 1) (-1)) in
    let end' :=
      if b_start st =? b_end st then firstNonSlashEnd st
      else if b_end st =? -1 then Str.length path
      else b_end st in
    Str.slice path (b_start st) end'
  else
    let st := for_down (String.length path) (Str.length path - 1)
                (basename_plain_body path) (BaseState 0 (-1) true (-1) (-1)) in
    if b_end st =? -1 then EmptyString
    else Str.slice path (b_start st) (b_end st).

Record norm_state := NormState
  { res : string; lastSegmentLength : Z; lastSlash : Z; dots : Z; code : ascii }.

Definition isSep (c : ascii) : bool := if ascii_dec c "/" then true else false.

Definition normalizeString_body (path : string) (allowAboveRoot : bool)
    (i : Z) (st : norm_state) : norm_state * bool :=
  let next :=
    if i <? Str.length path
    then Some (default "/"%char (String.get (Z.to_nat i) path))
    else if isSep (code st) then None
    else Some "/"%char in
  match next with
  | None => (st, true)
  | Some c =>
      let r := res st in
      if isSep c then
        if (lastSlash st =? i - 1) || (dots st =? 1) then
          (NormState r (lastSegmentLength st) i 0 c, false)
        else if dots st =? 2 then
          if (Str.length r <? 2) || negb (lastSegmentLength st =? 2) ||
             negb (Str.charIs r (Str.length r - 1) ".") ||
             negb (Str.charIs r (Str.length r - 2) ".")
          then
            if 2 <? Str.length r then
              let lastSlashIndex := Str.lastIndexOf r "/" in
              if lastSlashIndex =? -1
              then (NormState EmptyString 0 i 0 c, false)
              else
                let r' := Str.slice r 0 lastSlashIndex in
                (NormState r' (Str.length r' - 1 - Str.lastIndexOf r' "/") i 0 c, false)
            else if negb (Str.length r =? 0) then
              (NormState EmptyString 0 i 0 c, false)
            else if allowAboveRoot
            then (NormState ".." 2 i 0 c, false)
            else (NormState r (lastSegmentLength st) i 0 c, false)
          else if allowAboveRoot
          then (NormState (if 0 <? Str.length r then r +:+ "/.." else "..") 2 i 0 c, false)
          else (NormState r (lastSegmentLength st) i 0 c, false)
        else
          let seg := Str.slice path (lastSlash st + 1) i in
          (NormState (if 0 <? Str.length r then r +:+ "/" +:+ seg else seg)
             (i - lastSlash st - 1) i 0 c, false)
      else if (if ascii_dec c "." then true else false) && negb (dots st =? -1)
      then (NormState r (lastSegmentLength st) (lastSlash st) (dots st + 1) c, false)
      else (NormState r (lastSegmentLength st) (lastSlash st) (-1) c, false)
  end.

Definition normalizeString (path : string) (allowAboveRoot : bool) : string :=
  res (for_up (Datatypes.S (String.length path)) 0
         (normalizeString_body path allowAboveRoot)
         (NormState EmptyString 0 (-1) 0 "000"%char)).

(** [path.normalize(p)] *)
Definition normalize (path : string) : string :=
  if Str.length path =? 0 then "."%string else
  let isAbsolute := Str.charIs path 0 "/" in
  let trailingSeparator := Str.charIs path (Str.length path - 1) "/" in
  let p := normalizeString path (negb isAbsolute) in
  if Str.length p =? 0 then
    if isAbsolute then "/"%string
    else if trailingSeparator then "./"%string else "."%string
  else
    let p := if trailingSeparator then p +:+ "/" else p in
    if isAbsolute then "/" +:+ p else p.

Definition join_args (joined : option string) (arg : string) : option string :=
  if 0 <? Str.length arg then
    match joined with
    | None => Some arg
    | Some j => Some (j +:+ "/" +:+ arg)
    end
  else joined.

(** [path.join(...args)] *)
Definition join (args : list string) : string :=
  match fold_left join_args args None with
  | None => "."%string
  | Some joined => normalize joined
  end.

End Path.

(** ** Text: sequences of UTF-16 code units *)

Definition jsstring := list N.

(** A literal of the source, as text. *)
Definition lit (s : string) : jsstring := List.map N_of_ascii (list_ascii_of_string s).

(** The same with every apostrophe read as a double quote, to write
    JSON documents down. *)
Definition quoted (s : string) : jsstring :=
  List.map (fun c => if (c =? 39)%N then 34%N else c) (lit s).

Module Text.

Definition eqb (a b : jsstring) : bool := bool_decide (a = b).

(** WhiteSpace and LineTerminator of ECMAScript: what [trim] strips
    and what the class [\s] of a regular expression matches. *)
Definition isWhiteSpace (c : N) : bool :=
  ((9 <=? c) && (c <=? 13) || (c =? 32) || (c =? 160) || (c =? 5760) ||
   (8192 <=? c) && (c <=? 8202) || (c =? 8232) || (c =? 8233) ||
   (c =? 8239) || (c =? 8287) || (c =? 12288) || (c =? 65279))%N.

Fixpoint trimStart (s : jsstring) : jsstring :=
  match s with
  | c :: s' => if isWhiteSpace c then trimStart s' else s
  | [] => []
  end.

Definition trimEnd (s : jsstring) : jsstring := rev (trimStart (rev s)).

(** [s.trim()] *)
Definition trim (s : jsstring) : jsstring := trimEnd (trimStart s).

Fixpoint indexOf_from (c : N) (s : jsstring) (i : Z) : Z :=
  match s with
  | [] => -1
  | d :: s' => if (d =? c)%N then i else indexOf_from c s' (i + 1)
  end.

(** [s.indexOf(c)] for a one-unit needle, [-1] when absent. *)
Definition indexOf (s : jsstring) (c : N) : Z := indexOf_from c s 0.

Fixpoint lastIndexOf_from (c : N) (s : jsstring) (i found : Z) : Z :=
  match s with
  | [] => found
  | d :: s' => lastIndexOf_from c s' (i + 1) (if (d =? c)%N then i else found)
  end.

(** [s.lastIndexOf(c)] for a one-unit needle, [-1] when absent. *)
Definition lastIndexOf (s : jsstring) (c : N) : Z := lastIndexOf_from c s 0 (-1).

(** [s.slice(from, to)] for [0 <= from]; [to] beyond the end is
    clamped. *)
Definition slice (s : jsstring) (from to : Z) : jsstring :=
  take (Z.to_nat (to - from)) (drop (Z.to_nat from) s).

(** [items.join(separator)] *)
Fixpoint join (separator : jsstring) (items : list jsstring) : jsstring :=
  match items with
  | [] => []
  | [x] => x
  | x :: rest => x ++ separator ++ join separator rest
  end.

(** A string in a condition: every string but the empty one is
    truthy. *)
Definition truthy (s : jsstring) : bool := negb (eqb s []).

(** One unit against a letter under the flag [i]: without the flag
    [u] a unit outside ASCII never folds to an ASCII letter, so the
    letter matches its two cases only. *)
Definition isLetter (lower : N) (c : N) : bool := ((c =? lower) || (c =? lower - 32))%N.

(** [s.replace(/^```json\s*/i, "")] *)
Definition replaceOpeningFence (s : jsstring) : jsstring :=
  match s with
  | 96 :: 96 :: 96 :: j :: s0 :: o :: n :: rest =>
      if isLetter 106 j && isLetter 115 s0 && isLetter 111 o && isLetter 110 n
      then trimStart rest else s
  | _ => s
  end%N.

(** [s.replace(/```$/i, "")]: without the flag [m], [$] is the end of
    the text. *)
Definition replaceClosingFence (s : jsstring) : jsstring :=
  let n := (length s - 3)%nat in
  if eqb (drop n s) [96; 96; 96]%N then take n s else s.

End Text.

(** ** Exceptions and results *)

Inductive exn :=
| Error (message : string)        (* new Error(message) *)
| SyntaxError (message : string)  (* thrown by JSON.parse *)
| TypeError (message : string)    (* a property read on undefined *)
| SystemError (message : string). (* thrown by node:fs/promises *)

(** [error.message] *)
Definition message (e : exn) : string :=
  match e with
  | Error m | SyntaxError m | TypeError m | SystemError m => m
  end.

Inductive outcome (A : Type) :=
| Returns (a : A)
| Throws (e : exn).
Arguments Returns {A} a.
Arguments Throws {A} e.

(** ** Numbers *)

(** A number that [JSON.parse] can produce: a binary64, kept as the
    rational it denotes, or an infinity. Negative zero is zero: the
    pipeline cannot tell the two apart. *)
Inductive number :=
| Finite (q : Q)
| PosInfinity
| NegInfinity.

Module Number.

(** The integer nearest to [n / d], ties to even, for [0 <= n] and
    [0 < d]. *)
Definition roundHalfEven (n d : Z) : Z :=
  let q := n / d in
  let r := n mod d in
  if 2 * r <? d then q
  else if d <? 2 * r then q + 1
  else if Z.even q then q else q + 1.

(** The rational [m * 2^k]. *)
Definition dyadic (m k : Z) : Q :=
  if 0 <=? k then Qmake (m * 2 ^ k) 1 else Qmake m (Z.to_pos (2 ^ (- k))).

(** The binary64 nearest to [n / d], for [0 <= n] and [0 < d]: with [e]
    the binary exponent of [n / d], the significand is rounded at
    [2^(e - 52)], or at [2^-1074] for a subnormal; a result of [2^1024]
    or more is infinite. *)
Definition binary64 (n d : Z) : number :=
  if n =? 0 then Finite 0 else
  let e0 := Z.log2 n - Z.log2 d in
  let reaches := if 0 <=? e0 then d * 2 ^ e0 <=? n else d <=? n * 2 ^ (- e0) in
  let e := if reaches then e0 else e0 - 1 in
  let k := Z.max (e - 52) (-1074) in
  let m := if 0 <=? k then roundHalfEven n (d * 2 ^ k)
           else roundHalfEven (n * 2 ^ (- k)) d in
  if (0 <=? k) && (2 ^ 1024 <=? m * 2 ^ k) then PosInfinity else Finite (dyadic m k).

Definition opp (x : number) : number :=
  match x with
  | Finite q => Finite (Qopp q)
  | PosInfinity => NegInfinity
  | NegInfinity => PosInfinity
  end.

(** The number a decimal literal denotes: the binary64 nearest to
    [m * 10^e], with the sign of the literal. *)
Definition ofDecimal (negative : bool) (m e : Z) : number :=
  let x := if 0 <=? e then binary64 (m * 10 ^ e) 1 else binary64 m (10 ^ (- e)) in
  if negative then opp x else x.

(** [x < 0] *)
Definition negative (x : number) : bool :=
  match x with
  | Finite q => negb (Qle_bool 0 q)
  | PosInfinity => false
  | NegInfinity => true
  end.

(** [x >= n] for a length [n]. *)
Definition atLeast (x : number) (n : nat) : bool :=
  match x with
  | Finite q => Qle_bool (inject_Z (Z.of_nat n)) q
  | PosInfinity => true
  | NegInfinity => false
  end.

(** [x] is the natural number [i]. *)
Definition equals (x : number) (i : nat) : bool :=
  match x with
  | Finite q => Qeq_bool q (inject_Z (Z.of_nat i))
  | _ => false
  end.

End Number.

(** ** JSON values, JSON.parse and JSON.stringify *)

Set Warnings "-register-all".

Inductive json :=
| JNull
| JBool (b : bool)
| JNumber (x : number)
| JString (s : jsstring)
| JArray (items : list json)
| JObject (members : list (jsstring * json)).

Module JSON.

Definition isWs (c : N) : bool := ((c =? 32) || (c =? 9) || (c =? 10) || (c =? 13))%N.

Fixpoint skipWs (s : jsstring) : jsstring :=
  match s with
  | c :: s' => if isWs c then skipWs s' else s
  | [] => []
  end.

Definition digit (c : N) : option Z :=
  if ((48 <=? c) && (c <=? 57))%N then Some (Z.of_N c - 48) else None.

Definition hex (c : N) : option N :=
  if ((48 <=? c) && (c <=? 57))%N then Some (c - 48)%N
  else if ((97 <=? c) && (c <=? 102))%N then Some (c - 87)%N
  else if ((65 <=? c) && (c <=? 70))%N then Some (c - 55)%N
  else None.

(** The characters of a string after its opening quote, up to the
    closing one. *)
Fixpoint stringBody (s : jsstring) : option (jsstring * jsstring) :=
  match s with
  | [] => None
  | c :: s' =>
      if (c =? 34)%N then Some ([], s')
      else if (c =? 92)%N then
        match s' with
        | [] => None
        | e :: s'' =>
            let simple (u : N) :=
              match stringBody s'' with
              | Some (body, rest) => Some (u :: body, rest)
              | None => None
              end in
            if (e =? 34)%N then simple 34%N
            else if (e =? 92)%N then simple 92%N
            else if (e =? 47)%N then simple 47%N
            else if (e =? 98)%N then simple 8%N
            else if (e =? 102)%N then simple 12%N
            else if (e =? 110)%N then simple 10%N
            else if (e =? 114)%N then simple 13%N
            else if (e =? 116)%N then simple 9%N
            else if (e =? 117)%N then
              match s'' with
              | h1 :: h2 :: h3 :: h4 :: s3 =>
                  match hex h1, hex h2, hex h3, hex h4, stringBody s3 with
                  | Some a, Some b, Some c, Some d, Some (body, rest) =>
                      Some ((((a * 16 + b) * 16 + c) * 16 + d)%N :: body, rest)
                  | _, _, _, _, _ => None
                  end
              | _ => None
              end
            else None
        end
      else if (c <? 32)%N then None
      else
        match stringBody s' with
        | Some (body, rest) => Some (c :: body, rest)
        | None => None
        end
  end.

(** The longest run of decimal digits at the head of [s]. *)
Fixpoint digits (s : jsstring) : list Z * jsstring :=
  match s with
  | c :: s' =>
      match digit c with
      | Some d => let '(ds, rest) := digits s' in (d :: ds, rest)
      | None => ([], s)
      end
  | [] => ([], [])
  end.

Definition decimal (ds : list Z) : Z := fold_left (fun acc d => acc * 10 + d) ds 0.

(** [s] without its first unit, when that unit is [c]. *)
Definition startsWith (c : N) (s : jsstring) : option jsstring :=
  match s with
  | d :: s' => if (d =? c)%N then Some s' else None
  | [] => None
  end.

Definition sign (s : jsstring) : bool * jsstring :=
  match startsWith 45 s with
  | Some s' => (true, s')
  | None => (false, s)
  end.

(** The integer part of a number: [0], or digits that do not start
    with [0]. *)
Definition integerPart (s : jsstring) : option (list Z * jsstring) :=
  let '(ds, rest) := digits s in
  match ds with
  | [] => None
  | d :: ds' =>
      if (d =? 0) && negb (bool_decide (ds' = [])) then None else Some (ds, rest)
  end.

(** The fraction, when there is one: a dot and at least one digit. *)
Definition fractionPart (s : jsstring) : option (list Z * jsstring) :=
  match startsWith 46 s with
  | Some s' =>
      let '(ds, rest) := digits s' in
      match ds with
      | [] => None
      | _ => Some (ds, rest)
      end
  | None => Some ([], s)
  end.

(** The exponent, when there is one: [e] or [E], a sign or none, and at
    least one digit. *)
Definition exponentPart (s : jsstring) : option (Z * jsstring) :=
  match s with
  | e :: s' =>
      if ((e =? 101) || (e =? 69))%N then
        let '(negative, s'') :=
          match startsWith 45 s' with
          | Some t => (true, t)
          | None =>
              match startsWith 43 s' with
              | Some t => (false, t)
              | None => (false, s')
              end
          end in
        let '(ds, rest) := digits s'' in
        match ds with
        | [] => None
        | _ => Some (if negative then - decimal ds else decimal ds, rest)
        end
      else Some (0, s)
  | [] => Some (0, s)
  end.

(** A number of the JSON grammar. *)
Definition number (s : jsstring) : option (number * jsstring) :=
  let '(negative, s1) := sign s in
  match integerPart s1 with
  | Some (int, s2) =>
      match fractionPart s2 with
      | Some (frac, s3) =>
          match exponentPart s3 with
          | Some (e, s4) =>
              Some (Number.ofDecimal negative (decimal (int ++ frac))
                      (e - Z.of_nat (length frac)), s4)
          | None => None
          end
      | None => None
      end
  | None => None
  end.

Definition word (w : string) (v : json) (s : jsstring) : option (json * jsstring) :=
  let n := length (lit w) in
  if Text.eqb (take n s) (lit w) then Some (v, drop n s) else None.

(** A value, given the parsers of what follows an opening bracket and
    an opening brace. *)
Definition valueWith
    (elements : jsstring -> option (list json * jsstring))
    (members : jsstring -> option (list (jsstring * json) * jsstring))
    (s : jsstring) : option (json * jsstring) :=
  match s with
  | [] => None
  | c :: s' =>
      if (c =? 34)%N then
        match stringBody s' with
        | Some (str, rest) => Some (JString str, rest)
        | None => None
        end
      else if (c =? 91)%N then
        match startsWith 93 (skipWs s') with
        | Some rest => Some (JArray [], rest)
        | None =>
            match elements (skipWs s') with
            | Some (items, rest) => Some (JArray items, rest)
            | None => None
            end
        end
      else if (c =? 123)%N then
        match startsWith 125 (skipWs s') with
        | Some rest => Some (JObject [], rest)
        | None =>
            match members (skipWs s') with
            | Some (ms, rest) => Some (JObject ms, rest)
            | None => None
            end
        end
      else if (c =? 116)%N then word "true" (JBool true) s
      else if (c =? 102)%N then word "false" (JBool false) s
      else if (c =? 110)%N then word "null" JNull s
      else
        match number s with
        | Some (x, rest) => Some (JNumber x, rest)
        | None => None
        end
  end.

(** The elements of a non-empty array and its closing bracket. *)
Definition elementsWith
    (value : jsstring -> option (json * jsstring))
    (elements : jsstring -> option (list json * jsstring))
    (s : jsstring) : option (list json * jsstring) :=
  match value s with
  | Some (v, rest) =>
      match startsWith 93 (skipWs rest) with
      | Some rest' => Some ([v], rest')
      | None =>
          match startsWith 44 (skipWs rest) with
          | Some rest' =>
              match elements (skipWs rest') with
              | Some (vs, rest'') => Some (v :: vs, rest'')
              | None => None
              end
          | None => None
          end
      end
  | None => None
  end.

(** The members of a non-empty object and its closing brace. *)
Definition membersWith
    (value : jsstring -> option (json * jsstring))
    (members : jsstring -> option (list (jsstring * json) * jsstring))
    (s : jsstring) : option (list (jsstring * json) * jsstring) :=
  match startsWith 34 s with
  | Some s' =>
      match stringBody s' with
      | Some (key, rest) =>
          match startsWith 58 (skipWs rest) with
          | Some rest' =>
              match value (skipWs rest') with
              | Some (v, rest'') =>
                  match startsWith 125 (skipWs rest'') with
                  | Some rest3 => Some ([(key, v)], rest3)
                  | None =>
                      match startsWith 44 (skipWs rest'') with
                      | Some rest3 =>
                          match members (skipWs rest3) with
                          | Some (ms, rest4) => Some ((key, v) :: ms, rest4)
                          | None => None
                          end
                      | None => None
                      end
                  end
              | None => None
              end
          | None => None
          end
      | None => None
      end
  | None => None
  end.

(** Recursive descent; [fuel] bounds the depth of the recursion. *)
Fixpoint value (fuel : nat) (s : jsstring) : option (json * jsstring) :=
  match fuel with
  | O => None
  | S fuel => valueWith (elements fuel) (members fuel) s
  end
with elements (fuel : nat) (s : jsstring) : option (list json * jsstring) :=
  match fuel with
  | O => None
  | S fuel => elementsWith (value fuel) (elements fuel) s
  end
with members (fuel : nat) (s : jsstring) : option (list (jsstring * json) * jsstring) :=
  match fuel with
  | O => None
  | S fuel => membersWith (value fuel) (members fuel) s
  end.

(** [JSON.parse(text)]. The fuel is enough for every text (see
    [parse_fuel_enough]). The message of the [SyntaxError] depends on
    the engine; a fixed one stands for it. *)
Definition parse (text : jsstring) : outcome json :=
  match value (2 * length text + 2) (skipWs text) with
  | Some (v, rest) =>
      match skipWs rest with
      | [] => Returns v
      | _ => Throws (SyntaxError "JSON Parse error")
      end
  | None => Throws (SyntaxError "JSON Parse error")
  end.

(** QuoteJSONString: the escapes of [JSON.stringify] for a string. *)
Definition hexDigit (n : N) : N := if (n <? 10)%N then (48 + n)%N else (87 + n)%N.

Definition unicodeEscape (c : N) : jsstring :=
  [92; 117; hexDigit (c / 4096); hexDigit (c / 256 mod 16);
   hexDigit (c / 16 mod 16); hexDigit (c mod 16)]%N.

Definition isLeadingSurrogate (c : N) : bool := ((55296 <=? c) && (c <=? 56319))%N.
Definition isTrailingSurrogate (c : N) : bool := ((56320 <=? c) && (c <=? 57343))%N.

Definition quoteUnit (c : N) : jsstring :=
  if (c =? 8)%N then lit "\b"
  else if (c =? 9)%N then lit "\t"
  else if (c =? 10)%N then lit "\n"
  else if (c =? 12)%N then lit "\f"
  else if (c =? 13)%N then lit "\r"
  else if (c =? 34)%N then [92; 34]%N
  else if (c =? 92)%N then [92; 92]%N
  else if (c <? 32)%N || isLeadingSurrogate c || isTrailingSurrogate c
  then unicodeEscape c
  else [c].

Fixpoint quoteBody (s : jsstring) : jsstring :=
  match s with
  | [] => []
  | c :: s' =>
      if isLeadingSurrogate c then
        match s' with
        | d :: s'' =>
            if isTrailingSurrogate d then c :: d :: quoteBody s''
            else unicodeEscape c ++ quoteBody s'
        | [] => unicodeEscape c
        end
      else quoteUnit c ++ quoteBody s'
  end.

(** [JSON.stringify(s)] for a string [s]. *)
Definition stringifyString (s : jsstring) : jsstring := [34%N] ++ quoteBody s ++ [34%N].

(** [JSON.stringify(n)] for an array index [n]. *)
Definition stringifyIndex (n : nat) : jsstring :=
  lit (DecimalString.NilZero.string_of_uint (Nat.to_uint n)).

Fixpoint commaSeparated (items : list jsstring) : jsstring :=
  match items with
  | [] => []
  | [x] => x
  | x :: rest => x ++ [44%N] ++ commaSeparated rest
  end.

(** [JSON.stringify(o)] for an object given by its members in order,
    each already serialised; a member whose value is [undefined] is
    left out. *)
Definition stringifyObject (members : list (string * option jsstring)) : jsstring :=
  [123%N] ++
  commaSeparated
    (omap (fun m => match snd m with
                    | Some v => Some (stringifyString (lit (fst m)) ++ [58%N] ++ v)
                    | None => None
                    end) members) ++
  [125%N].

(** [JSON.stringify(a)] for an array of serialised items. *)
Definition stringifyArray (items : list jsstring) : jsstring :=
  [91%N] ++ commaSeparated items ++ [93%N].

Fixpoint lookup (key : jsstring) (ms : list (jsstring * json)) (found : option json)
  : option json :=
  match ms with
  | [] => found
  | (k, v) :: ms' => lookup key ms' (if Text.eqb k key then Some v else found)
  end.

(** [row.key] on a parsed value: the member of that name of an object
    (the last one when the document repeats the name), [undefined] on
    every other value for the names read by the pipeline. *)
Definition get (row : json) (key : string) : option json :=
  match row with
  | JObject ms => lookup (lit key) ms None
  | _ => None
  end.

End JSON.

(** ** Buffer: bytes and their base64 text *)

Abbreviation byte := Byte.byte.

Module Buffer.

Definition encodeSextet (n : N) : N :=
  (if n <? 26 then 65 + n
   else if n <? 52 then 71 + n
   else if n <? 62 then n - 4
   else if n =? 62 then 43 else 47)%N.

(** The value of a unit of the base64 alphabet, in its standard or its
    URL-safe form. *)
Definition unbase64 (c : N) : option N :=
  (if (65 <=? c) && (c <=? 90) then Some (c - 65)
   else if (97 <=? c) && (c <=? 122) then Some (c - 71)
   else if (48 <=? c) && (c <=? 57) then Some (c + 4)
   else if (c =? 43) || (c =? 45) then Some 62
   else if (c =? 47) || (c =? 95) then Some 63
   else None)%N.

Definition ofN (n : N) : byte := default Byte.x00 (Byte.of_N (n mod 256)).

(** [buffer.toString("base64")] *)
Fixpoint toBase64 (bs : list byte) : jsstring :=
  match bs with
  | [] => []
  | [a] =>
      let a := Byte.to_N a in
      [encodeSextet (a / 4); encodeSextet (a mod 4 * 16); 61; 61]%N
  | [a; b] =>
      let a := Byte.to_N a in
      let b := Byte.to_N b in
      [encodeSextet (a / 4); encodeSextet (a mod 4 * 16 + b / 16);
       encodeSextet (b mod 16 * 4); 61]%N
  | a :: b :: c :: rest =>
      let a := Byte.to_N a in
      let b := Byte.to_N b in
      let c := Byte.to_N c in
      (encodeSextet (a / 4) :: encodeSextet (a mod 4 * 16 + b / 16) ::
       encodeSextet (b mod 16 * 4 + c / 64) :: encodeSextet (c mod 64) ::
       toBase64 rest)%N
  end.

(** The sextets of a base64 text: units outside the alphabet are
    skipped and the first [=] ends the data. *)
Fixpoint sextets (s : jsstring) : list N :=
  match s with
  | [] => []
  | c :: s' =>
      if (c =? 61)%N then []
      else match unbase64 c with
           | Some v => v :: sextets s'
           | None => sextets s'
           end
  end.

Fixpoint bytesOfSextets (l : list N) : list byte :=
  match l with
  | a :: b :: c :: d :: rest =>
      ofN (a * 4 + b / 16) :: ofN (b mod 16 * 16 + c / 4) :: ofN (c mod 4 * 64 + d) ::
      bytesOfSextets rest
  | [a; b; c] => [ofN (a * 4 + b / 16); ofN (b mod 16 * 16 + c / 4)]
  | [a; b] => [ofN (a * 4 + b / 16)]
  | _ => []
  end%N.

(** [Buffer.from(text, "base64")] *)
Definition fromBase64 (s : jsstring) : list byte := bytesOfSextets (sextets s).

End Buffer.

(** ** The client of the upstream service (@google/genai) *)

Module Genai.

Record Blob := { data : option jsstring; mimeType : option string }.
Record Part := { inlineData : option Blob; text : option jsstring }.
Record Content := { parts : option (list Part) }.
Record Candidate := { content : option Content }.
Inductive Modality := TEXT | IMAGE | AUDIO.
Record Config := { responseModalities : list Modality }.

(** The argument of [generateContent]. *)
Record Parameters :=
  { model : string; contents : list Content; config : option Config }.

Module Response.
Record t := { text : option jsstring; candidates : option (list Candidate) }.
End Response.

(** [new GoogleGenAI({ apiKey })] *)
Record GoogleGenAI := { apiKey : string }.

End Genai.

(** ** The world and the monad of asynchronous functions *)

(** - [files]: the file system, a map from paths to contents; two paths
      name the same file when they are the same string.
    - [GEMINI_API_KEY]: that variable of [process.env].
    - [service]: what the upstream service answers, given the credential
      of the client, the requests it has received before and the
      request at hand: a response, or a rejection.
    - [calls]: the requests sent so far, oldest first. *)
Record World := mkWorld
  { files : gmap string (list byte);
    GEMINI_API_KEY : option string;
    service : string -> list Genai.Parameters -> Genai.Parameters ->
              outcome Genai.Response.t;
    calls : list Genai.Parameters }.

Definition M (A : Type) : Type := World -> World * outcome A.

Definition ret {A} (a : A) : M A := fun w => (w, Returns a).

Definition throw {A} (e : exn) : M A := fun w => (w, Throws e).

Definition bind {A B} (m : M A) (k : A -> M B) : M B :=
  fun w =>
    match m w with
    | (w', Returns a) => k a w'
    | (w', Throws e) => (w', Throws e)
    end.

(** [try { m } catch (error) { handler }] *)
Definition try_catch {A} (m : M A) (handler : exn -> M A) : M A :=
  fun w =>
    match m w with
    | (w', Returns a) => (w', Returns a)
    | (w', Throws e) => handler e w'
    end.

(** A synchronous result inside an asynchronous function. *)
Definition lift {A} (r : outcome A) : M A := fun w => (w, r).

Declare Scope monad_scope.
Delimit Scope monad_scope with monad.
Notation "x <- m ;; k" := (bind m (fun x => k))
  (at level 100, m at next level, right associativity) : monad_scope.
Notation "m ;; k" := (bind m (fun _ => k))
  (at level 100, right associativity) : monad_scope.
Open Scope monad_scope.

(** ** node:fs/promises *)

Module Fs.

Definition ENOENT (syscall path : string) : exn :=
  SystemError ("ENOENT: no such file or directory, " +:+ syscall +:+ " '" +:+ path +:+ "'").

Definition access (path : string) : M unit :=
  fun w =>
    match files w !! path with
    | Some _ => (w, Returns tt)
    | None => (w, Throws (ENOENT "access" path))
    end.

Definition stat (path : string) : M unit :=
  fun w =>
    match files w !! path with
    | Some _ => (w, Returns tt)
    | None => (w, Throws (ENOENT "stat" path))
    end.

Definition readFile (path : string) : M (list byte) :=
  fun w =>
    match files w !! path with
    | Some bytes => (w, Returns bytes)
    | None => (w, Throws (ENOENT "open" path))
    end.

Definition writeFile (path : string) (bytes : list byte) : M unit :=
  fun w =>
    (mkWorld (<[path := bytes]> (files w)) (GEMINI_API_KEY w) (service w) (calls w),
     Returns tt).

End Fs.

(** [ai.models.generateContent(parameters)]: the request is logged and
    the service answers. *)
Definition generateContent (ai : Genai.GoogleGenAI) (parameters : Genai.Parameters)
  : M Genai.Response.t :=
  fun w =>
    (mkWorld (files w) (GEMINI_API_KEY w) (service w) (calls w ++ [parameters]),
     service w (Genai.apiKey ai) (calls w) parameters).

(** [array.map((value, index) => f(index, value))] for a callback that
    may throw. *)
Fixpoint imapM {A B} (f : nat -> A -> outcome B) (index : nat) (l : list A)
  : outcome (list B) :=
  match l with
  | [] => Returns []
  | value :: rest =>
      match f index value with
      | Returns b =>
          match imapM f (S index) rest with
          | Returns bs => Returns (b :: bs)
          | Throws e => Throws e
          end
      | Throws e => Throws e
      end
  end.

(** ** The pipeline (src/pipeline.js) *)

Definition DEFAULT_IMAGE_MODEL : string := "gemini-3-pro-image-preview".
Definition DEFAULT_TEXT_MODEL : string := "gemini-3-pro-preview".
Definition SUPPORTED_EXTENSIONS : gset string :=
  {[ ".png"; ".jpg"; ".jpeg"; ".webp"; ".heic" ]}.

Module DEFAULTS.
Definition inputLang : string := "auto".
Definition outputLang : string := "english".
Definition imageModel : string := DEFAULT_IMAGE_MODEL.
Definition textModel : string := DEFAULT_TEXT_MODEL.
End DEFAULTS.

Record TranslateRequest :=
  { inputPath : string;
    outputPath : option string;
    inputLang : option string;
    outputLang : option string;
    apiKey : option string;
    imageModel : option string;
    textModel : option string;
    force : option bool }.

Record ExtractedEntry := { text : jsstring; language : option jsstring }.

Record ExtractedTranslation :=
  { sourceText : jsstring;
    sourceLanguage : option jsstring;
    translatedText : jsstring }.

Record InlineImage := { data : jsstring; mimeType : string }.

Definition MISSING_CREDENTIAL : string :=
  "GEMINI_API_KEY is required. Set it or pass --api-key.".

Definition resolveApiKey (explicitApiKey : option string) : M string :=
  fun w =>
    let key :=
      match explicitApiKey with
      | Some k => Some k
      | None => GEMINI_API_KEY w
      end in
    match key with
    | Some k => if Str.truthy k then (w, Returns k) else (w, Throws (Error MISSING_CREDENTIAL))
    | None => (w, Throws (Error MISSING_CREDENTIAL))
    end.

Definition ensureFileExists (filePath : string) : M unit :=
  try_catch (Fs.access filePath)
    (fun _ => throw (Error ("Input file not found: " +:+ filePath))).

Definition ensureOutputWritable (outputPath : string) (force : bool) : M unit :=
  if force then ret tt else
  try_catch
    (Fs.stat outputPath ;;
     throw (Error ("Output file already exists: " +:+ outputPath +:+
                   ". Use --force to overwrite.")))
    (fun error =>
       if Str.includes (message error) "already exists" then throw error else ret tt).

Definition inferMimeType (filePath : string) : outcome string :=
  let extension := Str.toLowerCase (Path.extname filePath) in
  if negb (bool_decide (extension ∈ SUPPORTED_EXTENSIONS)) then
    Throws (Error ("Unsupported image extension: " +:+
                   (if Str.truthy extension then extension else "(none)")))
  else if Str.eqb extension ".png" then Returns "image/png"%string
  else if Str.eqb extension ".jpg" || Str.eqb extension ".jpeg" then Returns "image/jpeg"%string
  else if Str.eqb extension ".webp" then Returns "image/webp"%string
  else Returns "image/heic"%string.

Definition readInlineImage (inputPath : string) : M InlineImage :=
  mimeType <- lift (inferMimeType inputPath) ;;
  bytes <- Fs.readFile inputPath ;;
  ret {| data := Buffer.toBase64 bytes; mimeType := mimeType |}.

Definition MALFORMED_MODEL_OUTPUT : string :=
  "Model output did not contain a valid JSON array.".

Definition parseJsonArray (rawText : jsstring) : outcome (list json) :=
  let text := Text.trim rawText in
  let unfenced :=
    Text.trim (Text.replaceClosingFence (Text.replaceOpeningFence text)) in
  let bracketExtraction :=
    let start := Text.indexOf unfenced 91 in
    let end_ := Text.lastIndexOf unfenced 93 in
    if negb (start =? -1) && (end_ >? start) then
      let slice := Text.slice unfenced start (end_ + 1) in
      match JSON.parse slice with
      | Returns (JArray parsed) => Returns parsed
      | Returns _ => Throws (Error MALFORMED_MODEL_OUTPUT)
      | Throws e => Throws e
      end
    else Throws (Error MALFORMED_MODEL_OUTPUT) in
  match JSON.parse unfenced with
  | Returns (JArray parsed) => Returns parsed
  | Returns _ => bracketExtraction
  | Throws _ => bracketExtraction
  end.

(** [{ inlineData: inlineImage }] and [{ text: prompt }] *)
Definition inlineDataPart (inlineImage : InlineImage) : Genai.Part :=
  {| Genai.inlineData :=
       Some {| Genai.data := Some (data inlineImage);
               Genai.mimeType := Some (mimeType inlineImage) |};
     Genai.text := None |}.

Definition textPart (prompt : jsstring) : Genai.Part :=
  {| Genai.inlineData := None; Genai.text := Some prompt |}.

(** [item ?? {}] *)
Definition orEmptyObject (item : json) : json :=
  match item with
  | JNull => JObject []
  | _ => item
  end.

Definition normalizeEntry (item : json) : ExtractedEntry :=
  let row := orEmptyObject item in
  {| text := match JSON.get row "text" with
             | Some (JString s) => Text.trim s
             | _ => []
             end;
     language := match JSON.get row "language" with
                 | Some (JString s) => Some s
                 | _ => None
                 end |}.

(** The request of [extractTextEntries]. *)
Definition extractionRequest (imageModel : string) (inlineImage : InlineImage)
  : Genai.Parameters :=
  let prompt :=
    Text.join (lit " ")
      [lit "Extract every visible text segment from this image.";
       lit "Return only JSON array items with keys: text, language.";
       lit "language should be ISO 639-1 when possible.";
       lit "If nothing is found, return an empty array."] in
  {| Genai.model := imageModel;
     Genai.contents :=
       [{| Genai.parts := Some [inlineDataPart inlineImage; textPart prompt] |}];
     Genai.config := None |}.

Definition extractTextEntries (ai : Genai.GoogleGenAI) (imageModel : string)
    (inlineImage : InlineImage) : M (list ExtractedEntry) :=
  response <- generateContent ai (extractionRequest imageModel inlineImage) ;;
  rawItems <- lift (parseJsonArray (default [] (Genai.Response.text response))) ;;
  ret (List.filter (fun item => 0 <? Z.of_nat (length (text item)))
         (List.map normalizeEntry rawItems)).

(** [output[index] = value] for a number [0 <= index < output.length]:
    an integral index names an element of the array; any other number
    names a property of the array object, which [length] and [map] do
    not see. *)
Definition arraySet (output : list jsstring) (index : number) (value : jsstring)
  : list jsstring :=
  match index with
  | Finite q =>
      if Qnum q mod Z.pos (Qden q) =? 0
      then <[Z.to_nat (Qnum q / Z.pos (Qden q)) := value]> output
      else output
  | _ => output
  end.

Definition mergeItem (output : list jsstring) (item : json) : list jsstring :=
  let row := orEmptyObject item in
  match JSON.get row "index" with
  | Some (JNumber index) =>
      if Number.negative index || Number.atLeast index (length output)
      then output
      else arraySet output index
             match JSON.get row "translation" with
             | Some (JString s) => s
             | _ => []
             end
  | _ => output
  end.

(** The request of [translateEntries]. *)
Definition translationRequest (textModel inputLang outputLang : string)
    (entries : list ExtractedEntry) : Genai.Parameters :=
  let payload :=
    imap (fun index entry =>
            JSON.stringifyObject
              [("index"%string, Some (JSON.stringifyIndex index));
               ("text"%string, Some (JSON.stringifyString (text entry)));
               ("language"%string, JSON.stringifyString <$> language entry)])
      entries in
  let sourceInstruction :=
    if Str.eqb (Str.toLowerCase inputLang) "auto"
    then lit "Auto-detect source language per entry."
    else lit ("Source language for all entries: " +:+ inputLang +:+ ".") in
  let prompt :=
    Text.join (lit " ")
      [lit ("Translate each item into " +:+ outputLang +:+ ".");
       sourceInstruction;
       lit "Return only a JSON array with objects: { index, translation }.";
       lit "Preserve meaning and tone."] in
  {| Genai.model := textModel;
     Genai.contents :=
       [{| Genai.parts :=
             Some [textPart (prompt ++ [10; 10]%N ++ JSON.stringifyArray payload)] |}];
     Genai.config := None |}.

Definition translateEntries (ai : Genai.GoogleGenAI) (textModel inputLang outputLang : string)
    (entries : list ExtractedEntry) : M (list jsstring) :=
  if (length entries =? 0)%nat then ret [] else
  response <- generateContent ai (translationRequest textModel inputLang outputLang entries) ;;
  rawItems <- lift (parseJsonArray (default [] (Genai.Response.text response))) ;;
  let output := fold_left mergeItem rawItems (replicate (length entries) []) in
  lift (imapM (fun index value =>
                 if Text.truthy value then Returns value
                 else match entries !! index with
                      | Some entry => Returns (text entry)
                      | None => Throws (TypeError "undefined is not an object")
                      end)
          0%nat output).

Definition MISSING_RENDERED_IMAGE : string := "Gemini did not return an image.".

(** [x?.f]: [undefined] when [x] is, the field otherwise. *)
Definition bind_option {A B} (x : option A) (f : A -> option B) : option B :=
  match x with
  | Some a => f a
  | None => None
  end.

(** [part.inlineData?.data] *)
Definition inlineDataOf (part : Genai.Part) : option jsstring :=
  bind_option (Genai.inlineData part) Genai.data.

(** [response.candidates?.[0]?.content?.parts] *)
Definition candidateParts (response : Genai.Response.t) : option (list Genai.Part) :=
  bind_option
    (bind_option (bind_option (Genai.Response.candidates response) head) Genai.content)
    Genai.parts.

(** The request of [renderImage]. *)
Definition renderRequest (imageModel outputLang : string)
    (inlineImage : InlineImage) (entries : list ExtractedEntry)
    (translations : list jsstring) : Genai.Parameters :=
  let mapping :=
    imap (fun index entry =>
            JSON.stringifyObject
              [("source"%string, Some (JSON.stringifyString (text entry)));
               ("translation"%string,
                Some (JSON.stringifyString (default (text entry) (translations !! index))))])
      entries in
  let prompt :=
    Text.join (lit " ")
      [lit ("Recreate this image with text translated to " +:+ outputLang +:+ ".");
       lit "Replace only text. Keep layout, style, and non-text pixels unchanged.";
       lit "Use this exact mapping JSON: " ++ JSON.stringifyArray mapping] in
  {| Genai.model := imageModel;
     Genai.contents :=
       [{| Genai.parts := Some [inlineDataPart inlineImage; textPart prompt] |}];
     Genai.config := Some {| Genai.responseModalities := [Genai.IMAGE] |} |}.

Definition renderImage (ai : Genai.GoogleGenAI) (imageModel outputLang : string)
    (inlineImage : InlineImage) (entries : list ExtractedEntry)
    (translations : list jsstring) : M jsstring :=
  response <- generateContent ai
    (renderRequest imageModel outputLang inlineImage entries translations) ;;
  let parts := default [] (candidateParts response) in
  let imagePart :=
    List.find (fun part => match inlineDataOf part with
                           | Some d => Text.truthy d
                           | None => false
                           end) parts in
  match bind_option imagePart inlineDataOf with
  | Some d => if Text.truthy d then ret d else throw (Error MISSING_RENDERED_IMAGE)
  | None => throw (Error MISSING_RENDERED_IMAGE)
  end.

Definition defaultOutputPath (inputPath : string) : string :=
  let extension := Path.extname inputPath in
  let baseName := Path.basename inputPath extension in
  Path.join [Path.dirname inputPath; baseName +:+ "_translated" +:+ extension].

(** [recreateImageWithTranslatedText] from the statement after the
    overwrite guard to its end. *)
Definition recreateAfterGuard (request : TranslateRequest) (outputPath : string) : M string :=
  inlineImage <- readInlineImage (inputPath request) ;;
  key <- resolveApiKey (apiKey request) ;;
  let ai := {| Genai.apiKey := key |} in
  let inputLang := default DEFAULTS.inputLang (inputLang request) in
  let outputLang := default DEFAULTS.outputLang (outputLang request) in
  let imageModel := default DEFAULTS.imageModel (imageModel request) in
  let textModel := default DEFAULTS.textModel (textModel request) in
  entries <- extractTextEntries ai imageModel inlineImage ;;
  translations <- translateEntries ai textModel inputLang outputLang entries ;;
  outputBase64 <-
    (if (length entries =? 0)%nat then ret (data inlineImage)
     else renderImage ai imageModel outputLang inlineImage entries translations) ;;
  Fs.writeFile outputPath (Buffer.fromBase64 outputBase64) ;;
  ret outputPath.

Definition recreateImageWithTranslatedText (request : TranslateRequest) : M string :=
  ensureFileExists (inputPath request) ;;
  let outputPath := default (defaultOutputPath (inputPath request)) (outputPath request) in
  ensureOutputWritable outputPath (default false (force request)) ;;
  recreateAfterGuard request outputPath.

Definition extractAndTranslateText (request : TranslateRequest)
  : M (list ExtractedTranslation) :=
  ensureFileExists (inputPath request) ;;
  inlineImage <- readInlineImage (inputPath request) ;;
  key <- resolveApiKey (apiKey request) ;;
  let ai := {| Genai.apiKey := key |} in
  let inputLang := default DEFAULTS.inputLang (inputLang request) in
  let outputLang := default DEFAULTS.outputLang (outputLang request) in
  let imageModel := default DEFAULTS.imageModel (imageModel request) in
  let textModel := default DEFAULTS.textModel (textModel request) in
  entries <- extractTextEntries ai imageModel inlineImage ;;
  translations <- translateEntries ai textModel inputLang outputLang entries ;;
  ret (imap (fun index entry =>
               {| sourceText := text entry;
                  sourceLanguage := language entry;
                  translatedText := default (text entry) (translations !! index) |})
         entries).

(** ** Worlds to run the pipeline in *)

(** A service that answers from a script: the [n]-th request gets the
    [n]-th response, and an empty array once the script is over. *)
Definition scripted (responses : list (outcome Genai.Response.t))
  : string -> list Genai.Parameters -> Genai.Parameters -> outcome Genai.Response.t :=
  fun _ history _ =>
    default (Returns {| Genai.Response.text := Some (lit "[]");
                        Genai.Response.candidates := None |})
      (responses !! length history).

Definition textResponse (t : jsstring) : outcome Genai.Response.t :=
  Returns {| Genai.Response.text := Some t; Genai.Response.candidates := None |}.

Definition imageResponse (parts : list Genai.Part) : outcome Genai.Response.t :=
  Returns {| Genai.Response.text := None;
             Genai.Response.candidates :=
               Some [{| Genai.content := Some {| Genai.parts := Some parts |} |}] |}.

Definition request_for (input : string) : TranslateRequest :=
  {| inputPath := input; outputPath := None; inputLang := None; outputLang := None;
     apiKey := None; imageModel := None; textModel := None; force := None |}.

(** The text [t] parses to the number [n / d]. *)
Definition denotes (t : string) (n : Z) (d : positive) : bool :=
  match JSON.parse (lit t) with
  | Returns (JNumber (Finite q)) => Qeq_bool q (Qmake n d)
  | _ => false
  end.

(** The greeting konnichiwa in hiragana, as code units. *)
Definition konnichiwa : jsstring := [12371; 12435; 12395; 12385; 12399]%N.

Definition PNG : list byte := [Byte.x89; Byte.x50; Byte.x4e; Byte.x47; Byte.x0d; Byte.x0a; Byte.x1a].

(** ** Vocabulary of the statements *)

(** A parser that returns what is left of its input returns less than
    it was given. *)
Definition consuming {A} (p : jsstring -> option (A * jsstring)) : Prop :=
  forall s r rest, p s = Some (r, rest) -> (length rest < length s)%nat.

(** The capital of a small ASCII letter; every other character is its
    own. *)
Definition upper (d : ascii) : ascii :=
  let n := N_of_ascii d in
  if ((97 <=? n) && (n <=? 122))%N then ascii_of_N (n - 32) else d.

(** [s] is [word] up to the case of its letters. *)
Fixpoint inAnyCase (word s : string) : Prop :=
  match word, s with
  | EmptyString, EmptyString => True
  | String d word', String c s' => (c = d \/ c = upper d) /\ inAnyCase word' s'
  | _, _ => False
  end.

Fixpoint isAscii (s : string) : Prop :=
  match s with
  | EmptyString => True
  | String c s' => (N_of_ascii c < 128)%N /\ isAscii s'
  end.

Ltac Zify.zify_post_hook ::= Z.to_euclidean_division_equations.

(** The content parts of a response: those of its first candidate, and
    none when the candidates, the content or the parts are absent. *)
Definition contentParts (response : Genai.Response.t) : list Genai.Part :=
  match Genai.Response.candidates response with
  | Some (candidate :: _) =>
      match Genai.content candidate with
      | Some content =>
          match Genai.parts content with
          | Some parts => parts
          | None => []
          end
      | None => []
      end
  | _ => []
  end.

(** A part carries inline image data when its [inlineData] has a
    non-empty [data]. *)
Definition carriesImage (part : Genai.Part) : Prop :=
  exists d, inlineDataOf part = Some d /\ d <> [].

Definition hasImage (part : Genai.Part) : bool :=
  match inlineDataOf part with
  | Some d => Text.truthy d
  | None => false
  end.

(** The raw item is addressed to position [i]: its [index] is a number
    and that number is [i]. *)
Definition addressed (i : nat) (item : json) : bool :=
  match JSON.get item "index" with
  | Some (JNumber x) => Number.equals x i
  | _ => false
  end.

(** The translation a raw item provides: its [translation] when that is
    a string, the empty string otherwise. *)
Definition provided (item : json) : jsstring :=
  match JSON.get item "translation" with
  | Some (JString s) => s
  | _ => []
  end.

(** The value accumulated for position [i]: what the last raw item
    addressed to [i] provides, the empty string when there is none. *)
Definition accumulated (rawItems : list json) (i : nat) : jsstring :=
  fold_left (fun acc item => if addressed i item then provided item else acc) rawItems [].

(** The raw item has an [index] that is not a number, or a number
    outside [[0, n)]. *)
Definition ignorable (n : nat) (item : json) : bool :=
  match JSON.get item "index" with
  | Some (JNumber x) => Number.negative x || Number.atLeast x n
  | _ => true
  end.

(** The translation list the specification describes. *)
Definition specified (entries : list ExtractedEntry) (rawItems : list json) : list jsstring :=
  imap (fun i entry =>
          let value := accumulated rawItems i in
          if Text.truthy value then value else text entry)
    entries.

Definition client : Genai.GoogleGenAI := {| Genai.apiKey := "test-key" |}.

Definition world (fs : gmap string (list byte)) (key : option string)
    (responses : list (outcome Genai.Response.t)) : World :=
  mkWorld fs key (scripted responses) [].

Definition image : InlineImage :=
  {| data := Buffer.toBase64 PNG; mimeType := "image/png" |}.

Definition greetings : list ExtractedEntry :=
  [{| text := lit "hola"; language := Some (lit "es") |};
   {| text := lit "adios"; language := None |}].

Definition noText : outcome Genai.Response.t :=
  Returns {| Genai.Response.text := None; Genai.Response.candidates := None |}.

(** The world after one more request. *)
Definition sent (parameters : Genai.Parameters) (w : World) : World :=
  mkWorld (files w) (GEMINI_API_KEY w) (service w) (calls w ++ [parameters]).


Definition request_to (input output : string) (overwrite : option bool) : TranslateRequest :=
  {| inputPath := input; outputPath := Some output; inputLang := None; outputLang := None;
     apiKey := None; imageModel := None; textModel := None; force := overwrite |}.

(** The preamble as the specification orders it would make every
    request whose input file exists and whose credential is absent fail
    with the missing-credential error. *)
Definition credentialResolvedBeforeImageIsRead : Prop :=
  forall request w,
    is_Some (files w !! inputPath request) ->
    apiKey request = None -> GEMINI_API_KEY w = None ->
    snd (extractAndTranslateText request w) =
      Throws (Error "GEMINI_API_KEY is required. Set it or pass --api-key.") /\
    snd (recreateImageWithTranslatedText request w) =
      Throws (Error "GEMINI_API_KEY is required. Set it or pass --api-key.").

(** ** Vocabulary of the further properties *)

(** The units of [ws] are all white space. *)
Definition blank (ws : jsstring) : Prop := Forall (fun c => Text.isWhiteSpace c = true) ws.

(** The four units spell [json] in some letter case. *)
Definition spellsJson (tag : jsstring) : bool :=
  match tag with
  | [j; s; o; n] =>
      Text.isLetter 106 j && Text.isLetter 115 s && Text.isLetter 111 o && Text.isLetter 110 n
  | _ => false
  end.

(** The entry a raw item gives, when it gives one: the item is an
    object whose [text] is a string with something else than white
    space in it. *)
Definition entryOf (item : json) : option ExtractedEntry :=
  match item with
  | JObject _ =>
      match JSON.get item "text" with
      | Some (JString s) =>
          if decide (Text.trim s = []) then None
          else Some {| text := Text.trim s;
                       language := match JSON.get item "language" with
                                   | Some (JString l) => Some l
                                   | _ => None
                                   end |}
      | _ => None
      end
  | _ => None
  end.

(** The text once trimmed and stripped of its fence, as [parseJsonArray]
    computes it before parsing. *)
Definition unfence (rawText : jsstring) : jsstring :=
  Text.trim (Text.replaceClosingFence (Text.replaceOpeningFence (Text.trim rawText))).

(** What [parseJsonArray] does when the text as a whole is not a JSON
    array: the span from the first [[] to the last []] is parsed. *)
Definition bracketExtraction (unfenced : jsstring) : outcome (list json) :=
  let start := Text.indexOf unfenced 91 in
  let end_ := Text.lastIndexOf unfenced 93 in
  if negb (start =? -1) && (end_ >? start) then
    match JSON.parse (Text.slice unfenced start (end_ + 1)) with
    | Returns (JArray parsed) => Returns parsed
    | Returns _ => Throws (Error MALFORMED_MODEL_OUTPUT)
    | Throws e => Throws e
    end
  else Throws (Error MALFORMED_MODEL_OUTPUT).

(** The text starts and ends with a unit that is not white space. *)
Definition solid (s : jsstring) : Prop :=
  (exists c t, s = c :: t /\ Text.isWhiteSpace c = false) /\
  (exists t c, s = t ++ [c] /\ Text.isWhiteSpace c = false).

(** A parser that returns what is left of its input returns the end of
    it. *)
Definition leavesEnd {A} (p : jsstring -> option (A * jsstring)) : Prop :=
  forall s r rest, p s = Some (r, rest) -> rest `suffix_of` s.

(** The world [w'] is [w] after the requests [requests]: the same
    environment and service, the log longer by these requests. *)
Definition requested (requests : list Genai.Parameters) (w w' : World) : Prop :=
  GEMINI_API_KEY w' = GEMINI_API_KEY w /\ service w' = service w /\
  calls w' = calls w ++ requests.

(** The character [c] occurs nowhere in [s]. *)
Definition without (c : ascii) (s : string) : Prop :=
  forall k, String.get k s <> Some c.

(** A directory prefix: empty, or closed by a slash. *)
Definition closed (s : string) : Prop := s = EmptyString \/ exists s', s = s' +:+ "/".

(** Chains of suffixes, for what a parser leaves of its input. *)
Ltac suffix_chain :=
  repeat first [assumption | reflexivity | (etrans; [eassumption |])
               | apply suffix_cons_r].

(** A stage whose world is known: its run is split into that world and
    its outcome. *)
Ltac run_stage Hworld :=
  match goal with
  | |- context [match ?m ?w with (_, _) => _ end] =>
      let E := fresh "E" in
      let o := fresh "o" in
      let w1 := fresh "w" in
      destruct (m w) as [w1 o] eqn:E;
      apply (f_equal fst) in E; cbn [fst] in E;
      rewrite Hworld in E; subst w1; destruct o
  end.

(** * Properties *)

(** ** The monad *)

Lemma bind_Returns {A B} (m : M A) (k : A -> M B) w w1 a :
  m w = (w1, Returns a) -> bind m k w = k a w1.
Proof. intros H. unfold bind. now rewrite H. Qed.

Lemma bind_Throws {A B} (m : M A) (k : A -> M B) w w1 e :
  m w = (w1, Throws e) -> bind m k w = (w1, Throws e).
Proof. intros H. unfold bind. now rewrite H. Qed.

Lemma bind_Returns_inv {A B} (m : M A) (k : A -> M B) w w' b :
  bind m k w = (w', Returns b) ->
  exists w1 a, m w = (w1, Returns a) /\ k a w1 = (w', Returns b).
Proof.
  unfold bind. destruct (m w) as [w1 [a | e]]; intros H.
  - now exists w1, a.
  - discriminate.
Qed.

(** ** JSON.parse: the fuel is enough *)

Lemma skipWs_length s : (length (JSON.skipWs s) <= length s)%nat.
Proof.
  induction s as [| c s IH]; simpl; [lia |].
  destruct (JSON.isWs c); simpl; lia.
Qed.

Lemma startsWith_length c s rest :
  JSON.startsWith c s = Some rest -> length s = S (length rest).
Proof.
  destruct s as [| d s]; simpl; [discriminate |].
  destruct (d =? c)%N; [| discriminate]. now intros [= ->].
Qed.

Lemma stringBody_consuming : consuming JSON.stringBody.
Proof.
  intros s. remember (length s) as n eqn:Hn. revert s Hn.
  induction n as [n IH] using lt_wf_ind. intros s -> body rest H.
  destruct s as [| c s']; [discriminate |]. simpl in H.
  repeat match type of H with
         | (if ?b then _ else _) = _ => destruct b
         | match ?x with _ => _ end = _ =>
             match x with
             | JSON.stringBody ?t => destruct (JSON.stringBody t) as [[? ?] |] eqn:?
             | JSON.hex _ => destruct x
             | _ => destruct x as [| ? ?]
             end
         end; try discriminate;
    injection H as <- <-; simpl;
    try match goal with
        | E : JSON.stringBody ?t = Some (_, ?r) |- _ =>
            eapply (IH (length t)) in E; [| simpl; lia | reflexivity]
        end; simpl in *; lia.
Qed.

Lemma digits_length s : forall ds rest,
  JSON.digits s = (ds, rest) -> length s = (length ds + length rest)%nat.
Proof.
  induction s as [| c s IH]; simpl; intros ds rest.
  - now intros [= <- <-].
  - destruct (JSON.digit c).
    + destruct (JSON.digits s) as [ds' rest'] eqn:E. intros [= <- <-].
      simpl. now rewrite (IH _ _ eq_refl).
    + now intros [= <- <-].
Qed.

Lemma integerPart_length s ds rest :
  JSON.integerPart s = Some (ds, rest) -> (length rest < length s)%nat.
Proof.
  unfold JSON.integerPart. destruct (JSON.digits s) as [ds' rest'] eqn:E.
  apply digits_length in E. destruct ds' as [| d ds']; [discriminate |].
  destruct (_ && _); [discriminate |]. intros [= <- <-]. simpl in E. lia.
Qed.

Lemma fractionPart_length s ds rest :
  JSON.fractionPart s = Some (ds, rest) -> (length rest <= length s)%nat.
Proof.
  unfold JSON.fractionPart. destruct (JSON.startsWith 46 s) as [s' |] eqn:E.
  - apply startsWith_length in E.
    destruct (JSON.digits s') as [ds' rest'] eqn:D. apply digits_length in D.
    destruct ds'; [discriminate |]. intros [= <- <-]. lia.
  - intros [= <- <-]. lia.
Qed.

Lemma exponentPart_length s e rest :
  JSON.exponentPart s = Some (e, rest) -> (length rest <= length s)%nat.
Proof.
  unfold JSON.exponentPart. destruct s as [| c s']; [now intros [= <- <-] |].
  destruct (_ || _); [| now intros [= <- <-]].
  assert (Hsign : forall negative s'',
            match JSON.startsWith 45 s' with
            | Some t => (true, t)
            | None => match JSON.startsWith 43 s' with
                      | Some t => (false, t)
                      | None => (false, s')
                      end
            end = (negative, s'') -> (length s'' <= length s')%nat).
  { intros negative s''.
    destruct (JSON.startsWith 45 s') as [t |] eqn:E1.
    - apply startsWith_length in E1. intros [= <- <-]. lia.
    - destruct (JSON.startsWith 43 s') as [t |] eqn:E2.
      + apply startsWith_length in E2. intros [= <- <-]. lia.
      + intros [= <- <-]. lia. }
  destruct (match JSON.startsWith 45 s' with _ => _ end) as [negative s''].
  specialize (Hsign _ _ eq_refl).
  destruct (JSON.digits s'') as [ds rest'] eqn:D. apply digits_length in D.
  destruct ds; [discriminate |]. intros [= <- <-]. simpl. lia.
Qed.

Lemma number_consuming : consuming JSON.number.
Proof.
  intros s q rest. unfold JSON.number, JSON.sign.
  assert (Hsign : forall negative s1,
            match JSON.startsWith 45 s with
            | Some s' => (true, s')
            | None => (false, s)
            end = (negative, s1) -> (length s1 <= length s)%nat).
  { intros negative s1. destruct (JSON.startsWith 45 s) as [t |] eqn:E.
    - apply startsWith_length in E. intros [= <- <-]. lia.
    - intros [= <- <-]. lia. }
  destruct (match JSON.startsWith 45 s with _ => _ end) as [negative s1].
  specialize (Hsign _ _ eq_refl).
  destruct (JSON.integerPart s1) as [[int s2] |] eqn:E1; [| discriminate].
  destruct (JSON.fractionPart s2) as [[frac s3] |] eqn:E2; [| discriminate].
  destruct (JSON.exponentPart s3) as [[e s4] |] eqn:E3; [| discriminate].
  apply integerPart_length in E1. apply fractionPart_length in E2.
  apply exponentPart_length in E3. intros [= _ <-]. lia.
Qed.

Lemma word_consuming w v : lit w <> [] -> consuming (JSON.word w v).
Proof.
  intros Hw s r rest. unfold JSON.word, Text.eqb.
  destruct (bool_decide _) eqn:E; [| discriminate].
  apply bool_decide_eq_true in E. intros [= _ <-].
  assert (Hlen : length (take (length (lit w)) s) = length (lit w)) by now rewrite E.
  rewrite length_take in Hlen. rewrite length_drop.
  destruct (lit w); [congruence |]. cbn [length] in *. lia.
Qed.

Lemma valueWith_consuming elements members :
  consuming elements -> consuming members ->
  consuming (JSON.valueWith elements members).
Proof.
  intros He Hm s r rest. unfold JSON.valueWith.
  destruct s as [| c s']; [discriminate |].
  pose proof (skipWs_length s') as Hws.
  destruct (c =? 34)%N.
  { destruct (JSON.stringBody s') as [[str rest'] |] eqn:E; [| discriminate].
    apply stringBody_consuming in E. intros [= _ <-]. simpl. lia. }
  destruct (c =? 91)%N.
  { destruct (JSON.startsWith 93 _) as [rest' |] eqn:E.
    - apply startsWith_length in E. intros [= _ <-]. simpl. lia.
    - destruct (elements _) as [[items rest'] |] eqn:E'; [| discriminate].
      apply He in E'. intros [= _ <-]. simpl. lia. }
  destruct (c =? 123)%N.
  { destruct (JSON.startsWith 125 _) as [rest' |] eqn:E.
    - apply startsWith_length in E. intros [= _ <-]. simpl. lia.
    - destruct (members _) as [[ms rest'] |] eqn:E'; [| discriminate].
      apply Hm in E'. intros [= _ <-]. simpl. lia. }
  destruct (c =? 116)%N; [apply word_consuming; discriminate |].
  destruct (c =? 102)%N; [apply word_consuming; discriminate |].
  destruct (c =? 110)%N; [apply word_consuming; discriminate |].
  destruct (JSON.number _) as [[q rest'] |] eqn:E; [| discriminate].
  apply number_consuming in E. now intros [= _ <-].
Qed.

Lemma elementsWith_consuming value elements :
  consuming value -> consuming elements ->
  consuming (JSON.elementsWith value elements).
Proof.
  intros Hv He s r rest. unfold JSON.elementsWith.
  destruct (value s) as [[v rest1] |] eqn:E1; [| discriminate]. apply Hv in E1.
  pose proof (skipWs_length rest1) as Hws.
  destruct (JSON.startsWith 93 _) as [rest2 |] eqn:E2.
  { apply startsWith_length in E2. intros [= _ <-]. lia. }
  destruct (JSON.startsWith 44 _) as [rest2 |] eqn:E3; [| discriminate].
  apply startsWith_length in E3. pose proof (skipWs_length rest2) as Hws2.
  destruct (elements _) as [[vs rest3] |] eqn:E4; [| discriminate].
  apply He in E4. intros [= _ <-]. lia.
Qed.

Lemma membersWith_consuming value members :
  consuming value -> consuming members ->
  consuming (JSON.membersWith value members).
Proof.
  intros Hv Hm s r rest. unfold JSON.membersWith.
  destruct (JSON.startsWith 34 s) as [s' |] eqn:E0; [| discriminate].
  apply startsWith_length in E0.
  destruct (JSON.stringBody s') as [[key rest1] |] eqn:E1; [| discriminate].
  apply stringBody_consuming in E1. pose proof (skipWs_length rest1) as Hws1.
  destruct (JSON.startsWith 58 _) as [rest2 |] eqn:E2; [| discriminate].
  apply startsWith_length in E2. pose proof (skipWs_length rest2) as Hws2.
  destruct (value _) as [[v rest3] |] eqn:E3; [| discriminate].
  apply Hv in E3. pose proof (skipWs_length rest3) as Hws3.
  destruct (JSON.startsWith 125 _) as [rest4 |] eqn:E4.
  { apply startsWith_length in E4. intros [= _ <-]. lia. }
  destruct (JSON.startsWith 44 _) as [rest4 |] eqn:E5; [| discriminate].
  apply startsWith_length in E5. pose proof (skipWs_length rest4) as Hws4.
  destruct (members _) as [[ms rest5] |] eqn:E6; [| discriminate].
  apply Hm in E6. intros [= _ <-]. lia.
Qed.

Lemma parser_consuming fuel :
  consuming (JSON.value fuel) /\ consuming (JSON.elements fuel) /\
  consuming (JSON.members fuel).
Proof.
  induction fuel as [| fuel (Hv & He & Hm)].
  - repeat split; intros s r rest; discriminate.
  - split; [| split]; simpl.
    + now apply valueWith_consuming.
    + now apply elementsWith_consuming.
    + now apply membersWith_consuming.
Qed.

Lemma valueWith_ext e1 e2 m1 m2 s :
  (forall t, (length t < length s)%nat -> e1 t = e2 t) ->
  (forall t, (length t < length s)%nat -> m1 t = m2 t) ->
  JSON.valueWith e1 m1 s = JSON.valueWith e2 m2 s.
Proof.
  intros He Hm. unfold JSON.valueWith. destruct s as [| c s']; [reflexivity |].
  pose proof (skipWs_length s') as Hws.
  rewrite (He (JSON.skipWs s')) by (simpl; lia).
  rewrite (Hm (JSON.skipWs s')) by (simpl; lia). reflexivity.
Qed.

Lemma elementsWith_ext v1 v2 e1 e2 s :
  consuming v1 -> v1 s = v2 s ->
  (forall t, (length t + 2 <= length s)%nat -> e1 t = e2 t) ->
  JSON.elementsWith v1 e1 s = JSON.elementsWith v2 e2 s.
Proof.
  intros Hc Hv He. unfold JSON.elementsWith. rewrite <- Hv.
  destruct (v1 s) as [[v rest1] |] eqn:E1; [| reflexivity]. apply Hc in E1.
  pose proof (skipWs_length rest1) as Hws.
  destruct (JSON.startsWith 93 _); [reflexivity |].
  destruct (JSON.startsWith 44 _) as [rest2 |] eqn:E3; [| reflexivity].
  apply startsWith_length in E3. pose proof (skipWs_length rest2) as Hws2.
  rewrite He by lia. reflexivity.
Qed.

Lemma membersWith_ext v1 v2 m1 m2 s :
  consuming v1 ->
  (forall t, (length t + 2 <= length s)%nat -> v1 t = v2 t) ->
  (forall t, (length t + 2 <= length s)%nat -> m1 t = m2 t) ->
  JSON.membersWith v1 m1 s = JSON.membersWith v2 m2 s.
Proof.
  intros Hc Hv Hm. unfold JSON.membersWith.
  destruct (JSON.startsWith 34 s) as [s' |] eqn:E0; [| reflexivity].
  apply startsWith_length in E0.
  destruct (JSON.stringBody s') as [[key rest1] |] eqn:E1; [| reflexivity].
  apply stringBody_consuming in E1. pose proof (skipWs_length rest1) as Hws1.
  destruct (JSON.startsWith 58 _) as [rest2 |] eqn:E2; [| reflexivity].
  apply startsWith_length in E2. pose proof (skipWs_length rest2) as Hws2.
  rewrite <- Hv by lia.
  destruct (v1 _) as [[v rest3] |] eqn:E3; [| reflexivity].
  apply Hc in E3. pose proof (skipWs_length rest3) as Hws3.
  destruct (JSON.startsWith 125 _); [reflexivity |].
  destruct (JSON.startsWith 44 _) as [rest4 |] eqn:E5; [| reflexivity].
  apply startsWith_length in E5. pose proof (skipWs_length rest4) as Hws4.
  rewrite Hm by lia. reflexivity.
Qed.

(** Past twice the length of the input, one more unit of fuel changes
    nothing. *)
Lemma fuel_step fuel :
  (forall s, (2 * length s + 1 <= fuel)%nat ->
             JSON.value (S fuel) s = JSON.value fuel s) /\
  (forall s, (2 * length s + 2 <= fuel)%nat ->
             JSON.elements (S fuel) s = JSON.elements fuel s) /\
  (forall s, (2 * length s + 2 <= fuel)%nat ->
             JSON.members (S fuel) s = JSON.members fuel s).
Proof.
  induction fuel as [| fuel (Hv & He & Hm)].
  - repeat split; intros s H; lia.
  - destruct (parser_consuming (S fuel)) as (Cv & _ & _).
    split; [| split]; intros s H.
    + change (JSON.valueWith (JSON.elements (S fuel)) (JSON.members (S fuel)) s =
              JSON.valueWith (JSON.elements fuel) (JSON.members fuel) s).
      apply valueWith_ext; intros t Ht; [apply He | apply Hm]; lia.
    + change (JSON.elementsWith (JSON.value (S fuel)) (JSON.elements (S fuel)) s =
              JSON.elementsWith (JSON.value fuel) (JSON.elements fuel) s).
      apply elementsWith_ext; [exact Cv | apply Hv; lia |].
      intros t Ht. apply He. lia.
    + change (JSON.membersWith (JSON.value (S fuel)) (JSON.members (S fuel)) s =
              JSON.membersWith (JSON.value fuel) (JSON.members fuel) s).
      apply membersWith_ext; [exact Cv | |]; intros t Ht; [apply Hv | apply Hm]; lia.
Qed.

(** [JSON.parse] never fails for want of fuel: with any larger amount
    the parser gives the same result. *)
Lemma parse_fuel_enough text fuel :
  (2 * length text + 2 <= fuel)%nat ->
  JSON.value fuel (JSON.skipWs text) =
  JSON.value (2 * length text + 2) (JSON.skipWs text).
Proof.
  intros H. pose proof (skipWs_length text) as Hws.
  induction H as [| fuel H IH]; [reflexivity |].
  rewrite <- IH. apply fuel_step. lia.
Qed.

(** ** MimeResolver *)

Lemma lower_ascii_inv c :
  (N_of_ascii (Str.lower c) < 128)%N -> c = Str.lower c \/ c = upper (Str.lower c).
Proof.
  destruct c as [[] [] [] [] [] [] [] []]; vm_compute; intros H;
    try discriminate H; auto.
Qed.

Lemma lower_upper d : Str.lower (upper d) = Str.lower d.
Proof. destruct d as [[] [] [] [] [] [] [] []]; reflexivity. Qed.

Lemma lower_idem d : Str.lower (Str.lower d) = Str.lower d.
Proof. destruct d as [[] [] [] [] [] [] [] []]; reflexivity. Qed.

Lemma toLowerCase_inAnyCase s : forall word,
  Str.toLowerCase s = word -> isAscii word -> inAnyCase word s.
Proof.
  induction s as [| c s IH]; intros word <- Hascii; simpl in *.
  - exact I.
  - destruct Hascii as [Hc Hs]. split.
    + now apply lower_ascii_inv.
    + now apply IH.
Qed.

Lemma inAnyCase_toLowerCase word : forall s,
  inAnyCase word s -> Str.toLowerCase s = Str.toLowerCase word.
Proof.
  induction word as [| d word IH]; intros [| c s]; simpl; try contradiction; auto.
  intros [[-> | ->] H]; rewrite ?lower_upper; f_equal; auto.
Qed.

Lemma toLowerCase_empty s : Str.toLowerCase s = EmptyString <-> s = EmptyString.
Proof. destruct s; simpl; split; congruence. Qed.

(** [C7] For every path whose extension is [.png], [.jpg], [.jpeg],
    [.webp] or [.heic] in any letter case, [inferMimeType] returns
    [image/png], [image/jpeg], [image/jpeg], [image/webp], [image/heic]
    respectively; for every path whose extension is none of the five,
    the absent extension included, it throws the error "Unsupported
    image extension: " followed by the extension in small letters, or
    by "(none)" when the path has no extension. *)
Theorem inferMimeType_supported_or_rejected (filePath : string) :
  let extension := Path.extname filePath in
  (inAnyCase ".png" extension -> inferMimeType filePath = Returns "image/png"%string) /\
  (inAnyCase ".jpg" extension -> inferMimeType filePath = Returns "image/jpeg"%string) /\
  (inAnyCase ".jpeg" extension -> inferMimeType filePath = Returns "image/jpeg"%string) /\
  (inAnyCase ".webp" extension -> inferMimeType filePath = Returns "image/webp"%string) /\
  (inAnyCase ".heic" extension -> inferMimeType filePath = Returns "image/heic"%string) /\
  ((forall word, word ∈ [".png"; ".jpg"; ".jpeg"; ".webp"; ".heic"]%string ->
               ~ inAnyCase word extension) ->
   inferMimeType filePath =
     Throws (Error ("Unsupported image extension: " +:+
                    (if decide (extension = EmptyString) then "(none)"
                     else Str.toLowerCase extension)))).
Proof.
  intros extension. unfold inferMimeType. fold extension.
  repeat split.
  1-5: intros H; apply inAnyCase_toLowerCase in H; rewrite H; reflexivity.
  intros Hnone.
  assert (Hout : Str.toLowerCase extension ∉ SUPPORTED_EXTENSIONS).
  { intros Hin. unfold SUPPORTED_EXTENSIONS in Hin.
    rewrite !elem_of_union, !elem_of_singleton in Hin.
    assert (Hw : exists word, word ∈ [".png"; ".jpg"; ".jpeg"; ".webp"; ".heic"]%string /\
                              Str.toLowerCase extension = word /\ isAscii word).
    { destruct Hin as [[[[H | H] | H] | H] | H]; eexists; (split; [| split; [exact H |]]).
      all: try (vm_compute; repeat split; fail).
      all: repeat constructor. }
    destruct Hw as (word & Hword & Heq & Hascii).
    apply (Hnone word Hword). now apply toLowerCase_inAnyCase. }
  rewrite bool_decide_eq_false_2 by exact Hout. simpl.
  unfold Str.truthy, Str.eqb.
  destruct (string_dec (Str.toLowerCase extension) "") as [E | E];
    destruct (decide (extension = "")) as [E' | E']; simpl; try reflexivity.
  - exfalso. apply E'. now apply toLowerCase_empty.
  - exfalso. apply E. now apply toLowerCase_empty.
Qed.

Lemma inferMimeType_examples :
  inferMimeType "/tmp/Menu.JpEg" = Returns "image/jpeg"%string /\
  inferMimeType "/tmp/notes.gif" = Throws (Error "Unsupported image extension: .gif") /\
  inferMimeType "/tmp/README" = Throws (Error "Unsupported image extension: (none)").
Proof.
  split; [| split].
  - apply (inferMimeType_supported_or_rejected "/tmp/Menu.JpEg").
    vm_compute. repeat split; (left; reflexivity) || (right; reflexivity).
  - apply (inferMimeType_supported_or_rejected "/tmp/notes.gif").
    intros word Hin. repeat (apply elem_of_cons in Hin as [-> | Hin]);
      [vm_compute; intuition discriminate .. | now apply elem_of_nil in Hin].
  - apply (inferMimeType_supported_or_rejected "/tmp/README").
    intros word Hin. repeat (apply elem_of_cons in Hin as [-> | Hin]);
      [vm_compute; intuition discriminate .. | now apply elem_of_nil in Hin].
Defined.

(** ** Base64 *)

Lemma unbase64_encodeSextet n :
  (n < 64)%N -> Buffer.unbase64 (Buffer.encodeSextet n) = Some n.
Proof.
  intros H. unfold Buffer.encodeSextet, Buffer.unbase64.
  repeat match goal with
         | |- context [N.ltb ?a ?b] => destruct (N.ltb_spec a b)
         | |- context [N.leb ?a ?b] => destruct (N.leb_spec a b)
         | |- context [N.eqb ?a ?b] => destruct (N.eqb_spec a b)
         end; simpl; try (f_equal; lia); try lia.
Qed.

Lemma encodeSextet_not_padding n :
  (n < 64)%N -> (Buffer.encodeSextet n =? 61)%N = false.
Proof.
  intros H. apply N.eqb_neq. unfold Buffer.encodeSextet.
  repeat match goal with
         | |- context [N.ltb ?a ?b] => destruct (N.ltb_spec a b)
         | |- context [N.eqb ?a ?b] => destruct (N.eqb_spec a b)
         end; lia.
Qed.

Lemma sextets_encodeSextet n rest :
  (n < 64)%N ->
  Buffer.sextets (Buffer.encodeSextet n :: rest) = n :: Buffer.sextets rest.
Proof.
  intros H. simpl.
  now rewrite encodeSextet_not_padding, unbase64_encodeSextet.
Qed.

Lemma ofN_to_N (b : byte) : Buffer.ofN (Byte.to_N b) = b.
Proof.
  unfold Buffer.ofN. pose proof (Byte.to_N_bounded b).
  rewrite N.mod_small by lia. now rewrite Byte.of_to_N.
Qed.

Lemma ofN_eq (n : N) (b : byte) : n = Byte.to_N b -> Buffer.ofN n = b.
Proof. intros ->. apply ofN_to_N. Qed.

(** Lists three elements at a time. *)
Lemma list_ind3 {A} (P : list A -> Prop) :
  P [] -> (forall a, P [a]) -> (forall a b, P [a; b]) ->
  (forall a b c l, P l -> P (a :: b :: c :: l)) ->
  forall l, P l.
Proof.
  intros H0 H1 H2 H3.
  fix IH 1.
  intros [| a [| b [| c l]]]; [exact H0 | apply H1 | apply H2 | apply H3, IH].
Qed.

(** Decoding the base64 text of a buffer gives the buffer back. *)
Lemma fromBase64_toBase64 (bs : list byte) :
  Buffer.fromBase64 (Buffer.toBase64 bs) = bs.
Proof.
  unfold Buffer.fromBase64.
  induction bs as [| a | a b | a b c l IH] using list_ind3.
  - reflexivity.
  - pose proof (Byte.to_N_bounded a).
    cbn [Buffer.toBase64].
    rewrite !sextets_encodeSextet by lia. simpl.
    f_equal. apply ofN_eq. lia.
  - pose proof (Byte.to_N_bounded a). pose proof (Byte.to_N_bounded b).
    cbn [Buffer.toBase64].
    rewrite !sextets_encodeSextet by lia. simpl.
    f_equal; [| f_equal]; apply ofN_eq; lia.
  - pose proof (Byte.to_N_bounded a). pose proof (Byte.to_N_bounded b).
    pose proof (Byte.to_N_bounded c).
    cbn [Buffer.toBase64].
    rewrite !sextets_encodeSextet by lia.
    cbn [Buffer.bytesOfSextets]. rewrite IH.
    f_equal; [| f_equal; [| f_equal]]; apply ofN_eq; lia.
Qed.

(** ** JsonArrayExtractor *)

(** [C1] [parseJsonArray] on prose with a bracketed span that is not
    JSON: the direct parse fails and is caught, the span between the
    first [[] and the last []] is parsed outside any [try], and the
    [SyntaxError] of [JSON.parse] reaches the caller instead of the
    error "Model output did not contain a valid JSON array." *)
Theorem parseJsonArray_raw_syntax_error :
  parseJsonArray (lit "see [the menu] above") = Throws (SyntaxError "JSON Parse error") /\
  parseJsonArray (lit "see [the menu] above") <>
    Throws (Error "Model output did not contain a valid JSON array.").
Proof. split; [vm_compute; reflexivity | vm_compute; discriminate]. Qed.

(** What [parseJsonArray] can do at all: return an array, throw its own
    error, or let the [SyntaxError] of the second parse through. *)
Lemma parseJsonArray_outcomes (rawText : jsstring) :
  (exists items, parseJsonArray rawText = Returns items) \/
  parseJsonArray rawText =
    Throws (Error "Model output did not contain a valid JSON array.") \/
  (exists m, parseJsonArray rawText = Throws (SyntaxError m)).
Proof.
  unfold parseJsonArray.
  set (unfenced := Text.trim _).
  assert (Hparse : forall t, (exists v, JSON.parse t = Returns v) \/
                             JSON.parse t = Throws (SyntaxError "JSON Parse error")).
  { intros t. unfold JSON.parse.
    destruct (JSON.value _ _) as [[v rest] |]; [destruct (JSON.skipWs rest) |]; eauto. }
  assert (Hbracket :
    forall r : outcome (list json),
      r = (if negb (Text.indexOf unfenced 91 =? -1) &&
              (Text.lastIndexOf unfenced 93 >? Text.indexOf unfenced 91)
           then match JSON.parse (Text.slice unfenced (Text.indexOf unfenced 91)
                                    (Text.lastIndexOf unfenced 93 + 1)) with
                | Returns (JArray parsed) => Returns parsed
                | Returns _ => Throws (Error MALFORMED_MODEL_OUTPUT)
                | Throws e => Throws e
                end
           else Throws (Error MALFORMED_MODEL_OUTPUT)) ->
      (exists items, r = Returns items) \/
      r = Throws (Error "Model output did not contain a valid JSON array.") \/
      (exists m, r = Throws (SyntaxError m))).
  { intros r ->. destruct (_ && _); [| now right; left].
    destruct (Hparse (Text.slice unfenced (Text.indexOf unfenced 91)
                        (Text.lastIndexOf unfenced 93 + 1))) as [[v ->] | ->].
    - destruct v; eauto.
    - eauto. }
  destruct (Hparse unfenced) as [[v ->] | ->].
  - destruct v; eauto.
  - eauto.
Qed.

(** ** RenderStage *)

Lemma truthy_spec (s : jsstring) : Text.truthy s = true <-> s <> [].
Proof.
  unfold Text.truthy, Text.eqb. destruct (decide (s = [])) as [-> | H].
  - rewrite bool_decide_eq_true_2 by reflexivity. simpl. split; congruence.
  - rewrite bool_decide_eq_false_2 by exact H. simpl. split; auto.
Qed.

Lemma hasImage_spec part : hasImage part = true <-> carriesImage part.
Proof.
  unfold hasImage, carriesImage. destruct (inlineDataOf part) as [d |].
  - rewrite truthy_spec. split.
    + intros H. now exists d.
    + intros (d' & [= <-] & H). exact H.
  - split; [discriminate | intros (d & [=] & _)].
Qed.

Lemma find_first {A} (f : A -> bool) before x after :
  Forall (fun y => f y = false) before -> f x = true ->
  List.find f (before ++ x :: after) = Some x.
Proof.
  induction 1 as [| y l Hy _ IH]; intros Hx; simpl.
  - now rewrite Hx.
  - rewrite Hy. now apply IH.
Qed.

Lemma find_none {A} (f : A -> bool) l :
  Forall (fun y => f y = false) l -> List.find f l = None.
Proof. induction 1 as [| y l Hy _ IH]; simpl; [| rewrite Hy]; auto. Qed.

Lemma contentParts_candidateParts response :
  default [] (candidateParts response) = contentParts response.
Proof.
  unfold candidateParts, contentParts, bind_option.
  destruct (Genai.Response.candidates response) as [[| c cs] |]; simpl; try reflexivity.
  destruct (Genai.content c) as [ct |]; reflexivity.
Qed.

Lemma renderImage_run ai imageModel outputLang inlineImage entries translations w response :
  service w (Genai.apiKey ai) (calls w)
    (renderRequest imageModel outputLang inlineImage entries translations) = Returns response ->
  snd (renderImage ai imageModel outputLang inlineImage entries translations w) =
    match bind_option (List.find hasImage (contentParts response)) inlineDataOf with
    | Some d => if Text.truthy d then Returns d else Throws (Error MISSING_RENDERED_IMAGE)
    | None => Throws (Error MISSING_RENDERED_IMAGE)
    end.
Proof.
  intros Hs. unfold renderImage, bind, generateContent. rewrite Hs.
  rewrite contentParts_candidateParts. fold hasImage.
  destruct (bind_option _ _) as [d |]; [destruct (Text.truthy d) |]; reflexivity.
Qed.

(** [C6] For every response to the render request, [renderImage]
    returns the inline data of the first content part that carries
    inline image data; when no content part carries any (in particular
    when the candidates are absent or the parts are empty) it throws the
    error "Gemini did not return an image." *)
Theorem renderImage_first_inline_image
    ai imageModel outputLang inlineImage entries translations w response :
  service w (Genai.apiKey ai) (calls w)
    (renderRequest imageModel outputLang inlineImage entries translations) = Returns response ->
  let result := snd (renderImage ai imageModel outputLang inlineImage entries translations w) in
  (forall before part after d,
     contentParts response = before ++ part :: after ->
     Forall (fun p => ~ carriesImage p) before ->
     inlineDataOf part = Some d -> d <> [] ->
     result = Returns d) /\
  (Forall (fun p => ~ carriesImage p) (contentParts response) ->
   result = Throws (Error "Gemini did not return an image.")) /\
  (Genai.Response.candidates response = None ->
   result = Throws (Error "Gemini did not return an image.")) /\
  (contentParts response = [] ->
   result = Throws (Error "Gemini did not return an image.")).
Proof.
  intros Hs result. subst result. rewrite (renderImage_run _ _ _ _ _ _ _ _ Hs).
  assert (Hnone : Forall (fun p => ~ carriesImage p) (contentParts response) ->
                  match bind_option (List.find hasImage (contentParts response)) inlineDataOf with
                  | Some d => if Text.truthy d then Returns d
                              else Throws (Error MISSING_RENDERED_IMAGE)
                  | None => Throws (Error MISSING_RENDERED_IMAGE)
                  end = Throws (Error "Gemini did not return an image.")).
  { intros Hall. rewrite find_none; [reflexivity |].
    eapply Forall_impl; [exact Hall |]. intros p Hp. simpl in Hp.
    destruct (hasImage p) eqn:E; [| reflexivity].
    apply hasImage_spec in E. contradiction. }
  repeat split.
  - intros before part after d Hparts Hbefore Hd Hne.
    rewrite Hparts, find_first.
    + simpl. rewrite Hd. apply truthy_spec in Hne. now rewrite Hne.
    + eapply Forall_impl; [exact Hbefore |]. intros p Hp. simpl in Hp.
      destruct (hasImage p) eqn:E; [| reflexivity].
      apply hasImage_spec in E. contradiction.
    + apply hasImage_spec. now exists d.
  - exact Hnone.
  - intros Hc. apply Hnone. unfold contentParts. rewrite Hc. constructor.
  - intros Hc. apply Hnone. rewrite Hc. constructor.
Qed.

Lemma rendered_image_example :
  snd (renderImage client "gemini-3-pro-image-preview" "english" image greetings
         [lit "hello"; lit "goodbye"]
         (world ∅ None
            [imageResponse
               [textPart (lit "done");
                inlineDataPart {| data := lit "TWFuTQ=="; mimeType := "image/png" |};
                inlineDataPart {| data := lit "AAAA"; mimeType := "image/png" |}]])) =
  Returns (lit "TWFuTQ==").
Proof.
  pose proof (renderImage_first_inline_image client "gemini-3-pro-image-preview" "english"
                image greetings [lit "hello"; lit "goodbye"]
                (world ∅ None
                   [imageResponse
                      [textPart (lit "done");
                       inlineDataPart {| data := lit "TWFuTQ=="; mimeType := "image/png" |};
                       inlineDataPart {| data := lit "AAAA"; mimeType := "image/png" |}]])
                _ ltac:(vm_compute; reflexivity)) as [Hfirst _].
  eapply (Hfirst [textPart (lit "done")]).
  - reflexivity.
  - constructor; [| constructor]. intros (d & Hd & _). discriminate Hd.
  - reflexivity.
  - discriminate.
Defined.

(** ** TranslationStage *)

Lemma get_orEmptyObject item key :
  JSON.get (orEmptyObject item) key = JSON.get item key.
Proof. destruct item; reflexivity. Qed.

Lemma length_arraySet output index value :
  length (arraySet output index value) = length output.
Proof.
  unfold arraySet. destruct index as [q | |]; try reflexivity.
  destruct (_ =? _); [apply length_insert | reflexivity].
Qed.

Lemma length_mergeItem output item :
  length (mergeItem output item) = length output.
Proof.
  unfold mergeItem.
  destruct (JSON.get _ "index") as [[| | x | | |] |]; try reflexivity.
  destruct (_ || _); [reflexivity | apply length_arraySet].
Qed.

Lemma ignorable_not_addressed n i item :
  (i < n)%nat -> ignorable n item = true -> addressed i item = false.
Proof.
  unfold ignorable, addressed. intros Hi.
  destruct (JSON.get item "index") as [[| | [[a b] | |] | | |] |]; try reflexivity.
  unfold Number.negative, Number.atLeast, Number.equals, Qle_bool, Qeq_bool. simpl. intros H.
  apply Z.eqb_neq. intros E.
  apply orb_true_iff in H as [H | H].
  - apply negb_true_iff, Z.leb_gt in H. nia.
  - apply Z.leb_le in H. nia.
Qed.

Lemma mergeItem_lookup (output : list jsstring) item i old :
  output !! i = Some old ->
  mergeItem output item !! i = Some (if addressed i item then provided item else old).
Proof.
  intros Hold. pose proof (lookup_lt_Some _ _ _ Hold) as Hi.
  pose proof (ignorable_not_addressed (length output) i item Hi) as Hskip.
  unfold mergeItem, ignorable, addressed, provided in *.
  rewrite !get_orEmptyObject.
  destruct (JSON.get item "index") as [[| | [[a b] | |] | | |] |]; try exact Hold.
  destruct (_ || _) eqn:G.
  { now rewrite Hskip. }
  clear Hskip. apply orb_false_iff in G as [G1 G2].
  apply negb_false_iff in G1.
  unfold Number.negative, Number.atLeast, Qle_bool in G1, G2. simpl in G1, G2.
  apply Z.leb_le in G1. apply Z.leb_gt in G2.
  unfold arraySet, Number.equals, Qeq_bool. simpl.
  pose proof (Z.div_mod a (Z.pos b) ltac:(lia)) as Hdm.
  pose proof (Z.mod_pos_bound a (Z.pos b) ltac:(lia)) as Hmod.
  destruct (Z.eqb_spec (a mod Z.pos b) 0) as [E0 | E0].
  - assert (Hq : 0 <= a / Z.pos b) by (apply Z.div_pos; lia).
    destruct (decide (i = Z.to_nat (a / Z.pos b))) as [-> | Hne].
    + rewrite list_lookup_insert_eq by (apply Nat2Z.inj_lt; rewrite Z2Nat.id by lia; nia).
      rewrite Z2Nat.id by lia.
      destruct (Z.eqb_spec (a * 1) (a / Z.pos b * Z.pos b)); [reflexivity | nia].
    + rewrite list_lookup_insert_ne by congruence.
      destruct (Z.eqb_spec (a * 1) (Z.of_nat i * Z.pos b)) as [E | E]; [| exact Hold].
      exfalso. apply Hne. apply Nat2Z.inj. rewrite Z2Nat.id by lia. nia.
  - destruct (Z.eqb_spec (a * 1) (Z.of_nat i * Z.pos b)) as [E | E]; [| exact Hold].
    exfalso. apply E0. replace a with (Z.of_nat i * Z.pos b) by lia.
    apply Z.mod_mul. lia.
Qed.

Lemma fold_mergeItem_lookup rawItems : forall (output : list jsstring) i old,
  output !! i = Some old ->
  fold_left mergeItem rawItems output !! i =
    Some (fold_left (fun acc item => if addressed i item then provided item else acc)
            rawItems old).
Proof.
  induction rawItems as [| item rawItems IH]; intros output i old Hold; simpl.
  - exact Hold.
  - apply IH. now apply mergeItem_lookup.
Qed.

Lemma length_fold_mergeItem rawItems : forall output,
  length (fold_left mergeItem rawItems output) = length output.
Proof.
  induction rawItems as [| item rawItems IH]; intros output; simpl.
  - reflexivity.
  - rewrite IH. apply length_mergeItem.
Qed.

Lemma imapM_Returns {A B} (f : nat -> A -> outcome B) (g : nat -> A -> B) (l : list A) :
  forall k,
    (forall j a, l !! j = Some a -> f (k + j)%nat a = Returns (g (k + j)%nat a)) ->
    imapM f k l = Returns (imap (fun j => g (k + j)%nat) l).
Proof.
  induction l as [| a l IH]; intros k H; simpl.
  - reflexivity.
  - pose proof (H 0%nat a eq_refl) as H0. rewrite Nat.add_0_r in H0. rewrite H0.
    rewrite (IH (S k)).
    + rewrite Nat.add_0_r. do 2 f_equal. apply imap_ext. intros j x _. simpl.
      f_equal. lia.
    + intros j x Hj. replace (S k + j)%nat with (k + S j)%nat by lia. now apply H.
Qed.

(** Items the merge ignores do not count towards any position. *)
Lemma accumulated_without_ignorable n rawItems i :
  (i < n)%nat ->
  accumulated (List.filter (fun item => negb (ignorable n item)) rawItems) i =
  accumulated rawItems i.
Proof.
  intros Hi. unfold accumulated. generalize (@nil N) as acc.
  induction rawItems as [| item rawItems IH]; intros acc; simpl.
  - reflexivity.
  - destruct (ignorable n item) eqn:E; simpl.
    + rewrite (ignorable_not_addressed n i item Hi E). apply IH.
    + apply IH.
Qed.

Lemma specified_without_ignorable entries rawItems :
  specified entries
    (List.filter (fun item => negb (ignorable (length entries) item)) rawItems) =
  specified entries rawItems.
Proof.
  unfold specified. apply list_eq. intros i.
  rewrite !list_lookup_imap.
  destruct (entries !! i) as [entry |] eqn:E; simpl; [| reflexivity].
  now rewrite accumulated_without_ignorable by (eapply lookup_lt_Some; eauto).
Qed.

(** What [translateEntries] computes from the parsed response. *)
Lemma merge_specified entries rawItems :
  imapM (fun index value =>
           if Text.truthy value then Returns value
           else match entries !! index with
                | Some entry => Returns (text entry)
                | None => Throws (TypeError "undefined is not an object")
                end)
    0%nat (fold_left mergeItem rawItems (replicate (length entries) [])) =
  Returns (specified entries rawItems).
Proof.
  set (output := fold_left mergeItem rawItems _).
  assert (Hlen : length output = length entries).
  { subst output. now rewrite length_fold_mergeItem, length_replicate. }
  rewrite (imapM_Returns _
             (fun index value =>
                if Text.truthy value then value
                else default [] (text <$> entries !! index))).
  - f_equal. unfold specified. apply list_eq. intros i.
    rewrite !list_lookup_imap.
    destruct (entries !! i) as [entry |] eqn:E.
    + assert (Hi : (i < length entries)%nat) by (eapply lookup_lt_Some; eauto).
      subst output.
      rewrite (fold_mergeItem_lookup rawItems _ i [])
        by (apply lookup_replicate_2; exact Hi).
      simpl. rewrite E. reflexivity.
    + apply lookup_ge_None in E.
      rewrite (proj2 (lookup_ge_None output i)) by lia. reflexivity.
  - intros j value Hj. simpl.
    destruct (Text.truthy value); [reflexivity |].
    apply lookup_lt_Some in Hj. rewrite Hlen in Hj.
    destruct (lookup_lt_is_Some_2 entries j Hj) as [entry ->]. reflexivity.
Qed.

Lemma length_specified entries rawItems :
  length (specified entries rawItems) = length entries.
Proof. unfold specified. apply length_imap. Qed.

Lemma translateEntries_run ai textModel inputLang outputLang entries w response rawItems :
  entries <> [] ->
  service w (Genai.apiKey ai) (calls w)
    (translationRequest textModel inputLang outputLang entries) = Returns response ->
  parseJsonArray (default [] (Genai.Response.text response)) = Returns rawItems ->
  translateEntries ai textModel inputLang outputLang entries w =
    (mkWorld (files w) (GEMINI_API_KEY w) (service w)
       (calls w ++ [translationRequest textModel inputLang outputLang entries]),
     Returns (specified entries rawItems)).
Proof.
  intros Hne Hs Hp. unfold translateEntries.
  destruct entries as [| entry entries]; [congruence |].
  cbn [length Nat.eqb].
  unfold bind, generateContent, lift. rewrite Hs, Hp.
  now rewrite merge_specified.
Qed.

(** [C3] For every non-empty list of entries and every response to the
    translation request whose text parses to a JSON array,
    [translateEntries] returns a list as long as the entries; a raw item
    whose [index] is not a number or lies outside [[0, entries.length)]
    is ignored (the list is the one obtained without such items); and
    position [i] holds the translation string the model provided for
    index [i], the last one when several items carry that index, when
    that accumulated value is a non-empty string, and [entries[i].text]
    otherwise. *)
Theorem translateEntries_aligned
    ai textModel inputLang outputLang entries w response rawItems :
  entries <> [] ->
  service w (Genai.apiKey ai) (calls w)
    (translationRequest textModel inputLang outputLang entries) = Returns response ->
  parseJsonArray (default [] (Genai.Response.text response)) = Returns rawItems ->
  exists translations,
    snd (translateEntries ai textModel inputLang outputLang entries w) = Returns translations /\
    length translations = length entries /\
    translations =
      specified entries
        (List.filter (fun item => negb (ignorable (length entries) item)) rawItems) /\
    forall i entry,
      entries !! i = Some entry ->
      translations !! i =
        Some (if Text.truthy (accumulated rawItems i) then accumulated rawItems i
              else text entry).
Proof.
  intros Hne Hs Hp. exists (specified entries rawItems).
  rewrite (translateEntries_run _ _ _ _ _ _ _ _ Hne Hs Hp).
  split; [reflexivity |]. split; [apply length_specified |].
  split; [symmetry; apply specified_without_ignorable |].
  intros i entry E. unfold specified. rewrite list_lookup_imap, E. reflexivity.
Qed.

Lemma greetings_aligned :
  snd (translateEntries client "gemini-3-pro-preview" "auto" "english" greetings
         (world ∅ None
            [textResponse
               (quoted "[{'index':0,'translation':'hi'}, {'index':0,'translation':'hello'}, {'index':2,'translation':'x'}, {'index':'1','translation':'y'}, {'index':0.5,'translation':'z'}]")])) =
  Returns [lit "hello"; lit "adios"].
Proof.
  edestruct (translateEntries_aligned client "gemini-3-pro-preview" "auto" "english"
               greetings
               (world ∅ None
                  [textResponse
                     (quoted "[{'index':0,'translation':'hi'}, {'index':0,'translation':'hello'}, {'index':2,'translation':'x'}, {'index':'1','translation':'y'}, {'index':0.5,'translation':'z'}]")]))
    as (translations & Hrun & Hlen & Hspec & Hpos).
  - discriminate.
  - vm_compute. reflexivity.
  - vm_compute. reflexivity.
  - rewrite Hrun, Hspec. vm_compute. reflexivity.
Defined.

(** ** A response without text *)

(** [C9] When the response of the service carries no [text], the
    extraction stage and the translation stage read it as the empty
    string and throw the error "Model output did not contain a valid
    JSON array." *)
Theorem missing_text_is_malformed_output
    ai imageModel inlineImage textModel inputLang outputLang entries w response :
  Genai.Response.text response = None ->
  (service w (Genai.apiKey ai) (calls w) (extractionRequest imageModel inlineImage) =
     Returns response ->
   snd (extractTextEntries ai imageModel inlineImage w) =
     Throws (Error "Model output did not contain a valid JSON array.")) /\
  (entries <> [] ->
   service w (Genai.apiKey ai) (calls w)
     (translationRequest textModel inputLang outputLang entries) = Returns response ->
   snd (translateEntries ai textModel inputLang outputLang entries w) =
     Throws (Error "Model output did not contain a valid JSON array.")).
Proof.
  intros Htext. split.
  - intros Hs. unfold extractTextEntries, bind, generateContent, lift.
    rewrite Hs, Htext. reflexivity.
  - intros Hne Hs. unfold translateEntries.
    destruct entries as [| entry entries]; [congruence |].
    cbn [length Nat.eqb]. unfold bind, generateContent, lift.
    rewrite Hs, Htext. reflexivity.
Qed.

Lemma no_text_example :
  snd (extractTextEntries client "gemini-3-pro-image-preview" image (world ∅ None [noText])) =
    Throws (Error "Model output did not contain a valid JSON array.") /\
  snd (translateEntries client "gemini-3-pro-preview" "auto" "english" greetings
         (world ∅ None [noText])) =
    Throws (Error "Model output did not contain a valid JSON array.").
Proof.
  pose proof (missing_text_is_malformed_output client "gemini-3-pro-image-preview" image
                "gemini-3-pro-preview" "auto" "english" greetings (world ∅ None [noText])
                {| Genai.Response.text := None; Genai.Response.candidates := None |}
                eq_refl) as [Hextract Htranslate].
  split.
  - apply Hextract. reflexivity.
  - apply Htranslate; [discriminate | reflexivity].
Defined.

(** ** The stages and the world *)

Lemma extractTextEntries_world ai imageModel inlineImage w :
  fst (extractTextEntries ai imageModel inlineImage w) =
    sent (extractionRequest imageModel inlineImage) w.
Proof.
  unfold extractTextEntries, bind, generateContent, lift, ret.
  destruct (service w _ _ _) as [response | e]; [| reflexivity].
  destruct (parseJsonArray _); reflexivity.
Qed.

Lemma extractTextEntries_nonempty ai imageModel inlineImage w w' entries :
  extractTextEntries ai imageModel inlineImage w = (w', Returns entries) ->
  Forall (fun entry => text entry <> []) entries.
Proof.
  unfold extractTextEntries, bind, generateContent, lift, ret.
  destruct (service w _ _ _) as [response | e]; [| discriminate].
  destruct (parseJsonArray _) as [rawItems | e]; [| discriminate].
  intros [= _ <-]. apply List.Forall_forall. intros entry Hin.
  apply List.filter_In in Hin as [_ H]. apply Z.ltb_lt in H.
  intros E. rewrite E in H. simpl in H. lia.
Qed.

Lemma translateEntries_world ai textModel inputLang outputLang entries w :
  fst (translateEntries ai textModel inputLang outputLang entries w) =
    if (length entries =? 0)%nat then w
    else sent (translationRequest textModel inputLang outputLang entries) w.
Proof.
  unfold translateEntries. destruct (length entries =? 0)%nat; [reflexivity |].
  unfold bind, generateContent, lift.
  destruct (service w _ _ _) as [response | e]; [| reflexivity].
  destruct (parseJsonArray _); reflexivity.
Qed.

Lemma translateEntries_Returns_inv ai textModel inputLang outputLang entries w w' translations :
  translateEntries ai textModel inputLang outputLang entries w = (w', Returns translations) ->
  (entries = [] /\ translations = []) \/
  (exists rawItems, translations = specified entries rawItems).
Proof.
  unfold translateEntries. destruct entries as [| entry entries].
  - intros [= _ <-]. now left.
  - cbn [length Nat.eqb]. unfold bind, generateContent, lift.
    destruct (service w _ _ _) as [response | e]; [| discriminate].
    destruct (parseJsonArray _) as [rawItems | e]; [| discriminate].
    rewrite merge_specified. intros [= _ <-]. right. now exists rawItems.
Qed.

Lemma renderImage_world ai imageModel outputLang inlineImage entries translations w :
  fst (renderImage ai imageModel outputLang inlineImage entries translations w) =
    sent (renderRequest imageModel outputLang inlineImage entries translations) w.
Proof.
  unfold renderImage, bind, generateContent.
  destruct (service w _ _ _) as [response | e]; [| reflexivity].
  destruct (bind_option _ _) as [d |]; [destruct (Text.truthy d) |]; reflexivity.
Qed.

Lemma specified_nonempty entries rawItems :
  Forall (fun entry => text entry <> []) entries ->
  Forall (fun translation => translation <> []) (specified entries rawItems).
Proof.
  intros Hentries. apply Forall_lookup. intros i translation.
  unfold specified. rewrite list_lookup_imap.
  destruct (entries !! i) as [entry |] eqn:E; [| discriminate].
  simpl. intros [= <-].
  destruct (Text.truthy _) eqn:T.
  - now apply truthy_spec.
  - eapply (proj1 (Forall_lookup _ _) Hentries); eauto.
Qed.

(** [C8] Every row returned by a successful [extractAndTranslateText]
    has a non-empty [sourceText] and a non-empty [translatedText]. *)
Theorem extractAndTranslateText_rows_nonempty request w w' rows :
  extractAndTranslateText request w = (w', Returns rows) ->
  Forall (fun row => sourceText row <> [] /\ translatedText row <> []) rows.
Proof.
  unfold extractAndTranslateText. intros H.
  apply bind_Returns_inv in H as (w1 & [] & _ & H).
  apply bind_Returns_inv in H as (w2 & inlineImage & _ & H).
  apply bind_Returns_inv in H as (w3 & key & _ & H).
  apply bind_Returns_inv in H as (w4 & entries & Hextract & H).
  apply bind_Returns_inv in H as (w5 & translations & Htranslate & H).
  injection H as _ <-.
  apply extractTextEntries_nonempty in Hextract.
  assert (Htr : Forall (fun translation => translation <> []) translations).
  { apply translateEntries_Returns_inv in Htranslate as [[_ ->] | [rawItems ->]].
    - constructor.
    - now apply specified_nonempty. }
  apply Forall_lookup. intros i row. rewrite list_lookup_imap.
  destruct (entries !! i) as [entry |] eqn:E; [| discriminate].
  simpl. intros [= <-]. simpl.
  pose proof (proj1 (Forall_lookup _ _) Hextract i entry E) as Hentry.
  split; [exact Hentry |].
  destruct (translations !! i) as [translation |] eqn:T; simpl.
  - eapply (proj1 (Forall_lookup _ _) Htr); eauto.
  - exact Hentry.
Qed.

Lemma rows_nonempty_example :
  exists w' rows,
    extractAndTranslateText (request_for "/tmp/input.png")
      (world {[ "/tmp/input.png"%string := PNG ]} (Some "test-key"%string)
         [textResponse (quoted "[{'text':' hola ','language':'es'}, {'text':'  '}, null, {'text':'adios'}]");
          textResponse (quoted "[{'index':0,'translation':'hello'}, {'index':1,'translation':''}]")]) =
      (w', Returns rows) /\
    length rows = 2%nat /\
    Forall (fun row => sourceText row <> [] /\ translatedText row <> []) rows.
Proof.
  eexists _, _. split; [vm_compute; reflexivity |].
  split; [reflexivity |].
  eapply (extractAndTranslateText_rows_nonempty (request_for "/tmp/input.png")
            (world {[ "/tmp/input.png"%string := PNG ]} (Some "test-key"%string)
               [textResponse (quoted "[{'text':' hola ','language':'es'}, {'text':'  '}, null, {'text':'adios'}]");
                textResponse (quoted "[{'index':0,'translation':'hello'}, {'index':1,'translation':''}]")])).
  vm_compute. reflexivity.
Defined.

(** ** Orchestrator *)

Lemma ensureFileExists_run filePath w :
  ensureFileExists filePath w =
    (w, match files w !! filePath with
        | Some _ => Returns tt
        | None => Throws (Error ("Input file not found: " +:+ filePath))
        end).
Proof.
  unfold ensureFileExists, try_catch, Fs.access, throw.
  destruct (files w !! filePath); reflexivity.
Qed.

Lemma ensureOutputWritable_world outputPath force w :
  fst (ensureOutputWritable outputPath force w) = w.
Proof.
  unfold ensureOutputWritable, try_catch, bind, Fs.stat, throw, ret.
  destruct force; [reflexivity |].
  destruct (files w !! outputPath); [reflexivity |].
  destruct (Str.includes (message (Fs.ENOENT "stat" outputPath)) "already exists");
    reflexivity.
Qed.


Lemma ensureOutputWritable_force outputPath w :
  ensureOutputWritable outputPath true w = (w, Returns tt).
Proof. reflexivity. Qed.

Lemma readInlineImage_run inputPath w :
  readInlineImage inputPath w =
    (w, match inferMimeType inputPath with
        | Returns mimeType =>
            match files w !! inputPath with
            | Some bytes => Returns {| data := Buffer.toBase64 bytes; mimeType := mimeType |}
            | None => Throws (Fs.ENOENT "open" inputPath)
            end
        | Throws e => Throws e
        end).
Proof.
  unfold readInlineImage, bind, lift, Fs.readFile, ret.
  destruct (inferMimeType inputPath); [| reflexivity].
  destruct (files w !! inputPath); reflexivity.
Qed.

Lemma resolveApiKey_world explicitApiKey w :
  fst (resolveApiKey explicitApiKey w) = w.
Proof.
  unfold resolveApiKey.
  destruct explicitApiKey as [k |]; [| destruct (GEMINI_API_KEY w) as [k |]];
    try destruct (Str.truthy k); reflexivity.
Qed.

Lemma run_eta {A} (r : World * outcome A) w o : fst r = w -> snd r = o -> r = (w, o).
Proof. destruct r. simpl. congruence. Qed.






(** [C2], as stated, fails: with an existing input file named
    [/tmp/scan.gif] and no credential, both operations throw the
    unsupported-extension error, since the image is read before the
    credential is resolved. *)
Lemma credential_resolved_after_image_is_read :
  let request := request_for "/tmp/scan.gif" in
  let w := world {[ "/tmp/scan.gif"%string := PNG ]} None [] in
  is_Some (files w !! inputPath request) /\
  apiKey request = None /\ GEMINI_API_KEY w = None /\
  snd (extractAndTranslateText request w) =
    Throws (Error "Unsupported image extension: .gif") /\
  snd (recreateImageWithTranslatedText request w) =
    Throws (Error "Unsupported image extension: .gif") /\
  ~ credentialResolvedBeforeImageIsRead.
Proof.
  intros request w.
  split; [now exists PNG |]. split; [reflexivity |]. split; [reflexivity |].
  split; [vm_compute; reflexivity |]. split; [vm_compute; reflexivity |].
  intros H. destruct (H request w) as [Hextract _];
    [now exists PNG | reflexivity | reflexivity |].
  vm_compute in Hextract. discriminate Hextract.
Qed.

Lemma resolveApiKey_absent w :
  GEMINI_API_KEY w = None ->
  resolveApiKey None w =
    (w, Throws (Error "GEMINI_API_KEY is required. Set it or pass --api-key.")).
Proof. intros H. unfold resolveApiKey. now rewrite H. Qed.

(** [C2], amended. Both operations run their preamble in this order:
    (a) the input file is checked (else the error "Input file not
    found: <path>"); for [recreateImageWithTranslatedText] the overwrite
    guard follows; (c) the input is read through [inferMimeType] (else
    its unsupported-extension error); (b) the credential is resolved:
    the explicit value, else the value of the environment, else the
    error "GEMINI_API_KEY is required. Set it or pass --api-key.".
    Hence a request whose input file exists with a supported extension
    (and, for the recreation, that passes the guard) but has no
    credential fails with the missing-credential error before any
    upstream call, and one whose extension is unsupported fails with
    the unsupported-extension error whatever the credential is. *)
Theorem preamble_order request w :
  let out := default (defaultOutputPath (inputPath request)) (outputPath request) in
  let guard := snd (ensureOutputWritable out (default false (force request)) w) in
  (files w !! inputPath request = None ->
   extractAndTranslateText request w =
     (w, Throws (Error ("Input file not found: " +:+ inputPath request))) /\
   recreateImageWithTranslatedText request w =
     (w, Throws (Error ("Input file not found: " +:+ inputPath request)))) /\
  (forall e,
     is_Some (files w !! inputPath request) ->
     inferMimeType (inputPath request) = Throws e ->
     extractAndTranslateText request w = (w, Throws e) /\
     (guard = Returns tt -> recreateImageWithTranslatedText request w = (w, Throws e))) /\
  (forall mime,
     is_Some (files w !! inputPath request) ->
     inferMimeType (inputPath request) = Returns mime ->
     apiKey request = None -> GEMINI_API_KEY w = None ->
     extractAndTranslateText request w =
       (w, Throws (Error "GEMINI_API_KEY is required. Set it or pass --api-key.")) /\
     (guard = Returns tt ->
      recreateImageWithTranslatedText request w =
        (w, Throws (Error "GEMINI_API_KEY is required. Set it or pass --api-key.")))) /\
  (forall key, key <> EmptyString ->
     (apiKey request = Some key ->
      resolveApiKey (apiKey request) w = (w, Returns key)) /\
     (apiKey request = None -> GEMINI_API_KEY w = Some key ->
      resolveApiKey (apiKey request) w = (w, Returns key))).
Proof.
  intros out guard. repeat apply conj.
  - intros Hnone.
    unfold extractAndTranslateText, recreateImageWithTranslatedText.
    split; apply bind_Throws; rewrite ensureFileExists_run, Hnone; reflexivity.
  - intros e [bytes Hfile] Hmime.
    unfold extractAndTranslateText, recreateImageWithTranslatedText.
    rewrite !(bind_Returns _ _ w w tt) by (rewrite ensureFileExists_run, Hfile; reflexivity).
    split.
    + apply bind_Throws. now rewrite readInlineImage_run, Hmime.
    + intros Hguard. fold out.
      rewrite (bind_Returns _ _ w w tt)
        by (apply run_eta; [apply ensureOutputWritable_world | exact Hguard]).
      unfold recreateAfterGuard. apply bind_Throws.
      now rewrite readInlineImage_run, Hmime.
  - intros mime [bytes Hfile] Hmime Hkey Henv.
    unfold extractAndTranslateText, recreateImageWithTranslatedText.
    rewrite !(bind_Returns _ _ w w tt) by (rewrite ensureFileExists_run, Hfile; reflexivity).
    split.
    + rewrite (bind_Returns _ _ w w {| data := Buffer.toBase64 bytes; mimeType := mime |})
        by (rewrite readInlineImage_run, Hmime, Hfile; reflexivity).
      apply bind_Throws. rewrite Hkey. now apply resolveApiKey_absent.
    + intros Hguard. fold out.
      rewrite (bind_Returns _ _ w w tt)
        by (apply run_eta; [apply ensureOutputWritable_world | exact Hguard]).
      unfold recreateAfterGuard.
      rewrite (bind_Returns _ _ w w {| data := Buffer.toBase64 bytes; mimeType := mime |})
        by (rewrite readInlineImage_run, Hmime, Hfile; reflexivity).
      apply bind_Throws. rewrite Hkey. now apply resolveApiKey_absent.
  - intros key Hkey. split.
    + intros Hexplicit. rewrite Hexplicit. unfold resolveApiKey, Str.truthy, Str.eqb.
      destruct (string_dec key ""); [contradiction | reflexivity].
    + intros Hexplicit Henv. rewrite Hexplicit. unfold resolveApiKey, Str.truthy, Str.eqb.
      rewrite Henv. destruct (string_dec key ""); [contradiction | reflexivity].
Qed.

Lemma preamble_example :
  let w := world {[ "/tmp/input.png"%string := PNG; "/tmp/scan.gif"%string := PNG ]} None [] in
  extractAndTranslateText (request_for "/tmp/input.png") w =
    (w, Throws (Error "GEMINI_API_KEY is required. Set it or pass --api-key.")) /\
  recreateImageWithTranslatedText (request_for "/tmp/input.png") w =
    (w, Throws (Error "GEMINI_API_KEY is required. Set it or pass --api-key.")) /\
  extractAndTranslateText (request_for "/tmp/scan.gif") w =
    (w, Throws (Error "Unsupported image extension: .gif")) /\
  extractAndTranslateText (request_for "/tmp/missing.png") w =
    (w, Throws (Error "Input file not found: /tmp/missing.png")).
Proof.
  intros w.
  destruct (preamble_order (request_for "/tmp/input.png") w) as (_ & _ & Hkey & _).
  destruct (Hkey "image/png"%string) as [Hextract Hrecreate];
    [now exists PNG | reflexivity | reflexivity | reflexivity |].
  destruct (preamble_order (request_for "/tmp/scan.gif") w) as (_ & Hmime & _).
  destruct (Hmime (Error "Unsupported image extension: .gif")) as [Hgif _];
    [now exists PNG | reflexivity |].
  destruct (preamble_order (request_for "/tmp/missing.png") w) as (Hmissing & _).
  destruct (Hmissing eq_refl) as [Hnone _].
  split; [exact Hextract |]. split; [apply Hrecreate; reflexivity |].
  split; [exact Hgif | exact Hnone].
Defined.


(** ** The cases of the test suite (test/pipeline.test.js) *)

Example parseJsonArray_fenced :
  parseJsonArray (quoted "```json" ++ [10%N] ++ quoted "[{'text':'hola'}]" ++ [10%N] ++ lit "```") =
  Returns [JObject [(lit "text", JString (lit "hola"))]].
Proof. vm_compute. reflexivity. Qed.

Example parseJsonArray_nonsense :
  parseJsonArray (lit "nonsense") =
  Throws (Error "Model output did not contain a valid JSON array.").
Proof. vm_compute. reflexivity. Qed.

Example inferMimeType_cases :
  inferMimeType "/tmp/a.png" = Returns "image/png"%string /\
  inferMimeType "/tmp/a.jpg" = Returns "image/jpeg"%string /\
  inferMimeType "/tmp/a.webp" = Returns "image/webp"%string /\
  inferMimeType "/tmp/a.heic" = Returns "image/heic"%string /\
  inferMimeType "/tmp/a.gif" = Throws (Error "Unsupported image extension: .gif").
Proof. repeat split; vm_compute; reflexivity. Qed.

Example defaultOutputPath_menu :
  defaultOutputPath "/tmp/menu.jpg" = "/tmp/menu_translated.jpg"%string.
Proof. vm_compute. reflexivity. Qed.

Example extractAndTranslateText_translated_rows :
  let w := world {[ "/tmp/input.png"%string := PNG ]} (Some "test-key"%string)
             [textResponse (quoted "[{'text':'" ++ konnichiwa ++ quoted "','language':'ja'}]");
              textResponse (quoted "[{'index':0,'translation':'hello'}]")] in
  snd (extractAndTranslateText (request_for "/tmp/input.png") w) =
    Returns [{| sourceText := konnichiwa; sourceLanguage := Some (lit "ja");
                translatedText := lit "hello" |}] /\
  length (calls (fst (extractAndTranslateText (request_for "/tmp/input.png") w))) = 2%nat.
Proof. split; vm_compute; reflexivity. Qed.

Example recreate_writes_rendered_image :
  let w := world {[ "/tmp/input.png"%string := PNG ]} (Some "test-key"%string)
             [textResponse (quoted "[{'text':'hola','language':'es'}]");
              textResponse (quoted "[{'index':0,'translation':'hello'}]");
              imageResponse [inlineDataPart {| data := lit "TWFuTQ=="; mimeType := "image/png" |}]] in
  let r := recreateImageWithTranslatedText
             (request_to "/tmp/input.png" "/tmp/translated.png" None) w in
  snd r = Returns "/tmp/translated.png"%string /\
  files (fst r) !! "/tmp/translated.png"%string = Some (Buffer.fromBase64 (lit "TWFuTQ==")) /\
  length (calls (fst r)) = 3%nat.
Proof. repeat split; vm_compute; reflexivity. Qed.

Example translation_not_json :
  snd (extractAndTranslateText (request_for "/tmp/input.png")
         (world {[ "/tmp/input.png"%string := PNG ]} (Some "test-key"%string)
            [textResponse (quoted "[{'text':'hola','language':'es'}]");
             textResponse (lit "not-json")])) =
  Throws (Error "Model output did not contain a valid JSON array.").
Proof. vm_compute. reflexivity. Qed.

Example render_without_image :
  snd (recreateImageWithTranslatedText (request_for "/tmp/input.png")
         (world {[ "/tmp/input.png"%string := PNG ]} (Some "test-key"%string)
            [textResponse (quoted "[{'text':'hola','language':'es'}]");
             textResponse (quoted "[{'index':0,'translation':'hello'}]");
             imageResponse []])) =
  Throws (Error "Gemini did not return an image.").
Proof. vm_compute. reflexivity. Qed.

Example parse_numbers :
  denotes "0.1" 3602879701896397 36028797018963968 = true /\
  denotes "0.99999999999999999999" 1 1 = true /\
  denotes "9007199254740993" 9007199254740992 1 = true /\
  denotes "-1e-400" 0 1 = true /\
  denotes "5e-324" 1 (2 ^ 1074) = true /\
  JSON.parse (lit "1e309") = Returns (JNumber PosInfinity) /\
  JSON.parse (lit "-1.7976931348623159e308") = Returns (JNumber NegInfinity).
Proof. repeat split; vm_compute; reflexivity. Qed.

(** * Further properties of the code *)

(** ** Text *)

Lemma trimStart_blank ws s : blank ws -> Text.trimStart (ws ++ s) = Text.trimStart s.
Proof. induction 1 as [| c ws Hc _ IH]; simpl; [| rewrite Hc]; auto. Qed.

Lemma trimStart_solid c s : Text.isWhiteSpace c = false -> Text.trimStart (c :: s) = c :: s.
Proof. intros H. simpl. now rewrite H. Qed.

Lemma trimStart_head s :
  Text.trimStart s = [] \/
  exists c t, Text.trimStart s = c :: t /\ Text.isWhiteSpace c = false.
Proof.
  induction s as [| c s IH]; simpl; [now left |].
  destruct (Text.isWhiteSpace c) eqn:E; [exact IH | right; eauto].
Qed.

Lemma trimStart_idem s : Text.trimStart (Text.trimStart s) = Text.trimStart s.
Proof.
  destruct (trimStart_head s) as [-> | (c & t & -> & H)]; [reflexivity |].
  now apply trimStart_solid.
Qed.

Lemma trimStart_In c s : In c (Text.trimStart s) -> In c s.
Proof.
  induction s as [| d s IH]; simpl; [auto |].
  destruct (Text.isWhiteSpace d); simpl; auto.
Qed.

Lemma trimEnd_blank s ws : blank ws -> Text.trimEnd (s ++ ws) = Text.trimEnd s.
Proof.
  intros H. unfold Text.trimEnd. rewrite rev_app_distr, trimStart_blank; [reflexivity |].
  unfold blank in *. apply List.Forall_forall. intros c Hc. apply in_rev in Hc.
  revert c Hc. now apply List.Forall_forall.
Qed.

Lemma trimEnd_solid s c : Text.isWhiteSpace c = false -> Text.trimEnd (s ++ [c]) = s ++ [c].
Proof.
  intros H. unfold Text.trimEnd. rewrite rev_app_distr. simpl. rewrite H.
  simpl. now rewrite rev_involutive.
Qed.

Lemma trimEnd_In c s : In c (Text.trimEnd s) -> In c s.
Proof.
  unfold Text.trimEnd. intros H. apply in_rev in H. apply trimStart_In in H.
  now apply in_rev.
Qed.

Lemma trimEnd_idem s : Text.trimEnd (Text.trimEnd s) = Text.trimEnd s.
Proof. unfold Text.trimEnd. now rewrite rev_involutive, trimStart_idem. Qed.

(** Trimming the end keeps a first unit that is not white space. *)
Lemma trimEnd_cons c s :
  Text.isWhiteSpace c = false -> exists t, Text.trimEnd (c :: s) = c :: t.
Proof.
  intros H. unfold Text.trimEnd. simpl.
  assert (G : forall r, exists t, Text.trimStart (r ++ [c]) = t ++ [c]).
  { induction r as [| d r [t IH]]; simpl.
    - rewrite H. now exists [].
    - destruct (Text.isWhiteSpace d); [now exists t |].
      now exists (d :: r). }
  destruct (G (rev s)) as [t ->]. rewrite rev_app_distr. simpl. eauto.
Qed.

Lemma trim_idem s : Text.trim (Text.trim s) = Text.trim s.
Proof.
  unfold Text.trim.
  destruct (trimStart_head s) as [-> | (c & t & -> & H)]; [reflexivity |].
  destruct (trimEnd_cons c t H) as [u E]. rewrite E.
  rewrite (trimStart_solid c u H), <- E. apply trimEnd_idem.
Qed.

Lemma trim_In c s : In c (Text.trim s) -> In c s.
Proof. unfold Text.trim. intros H. now apply trimStart_In, trimEnd_In. Qed.

Lemma take_In {A} (x : A) n l : In x (take n l) -> In x l.
Proof.
  revert n. induction l as [| y l IH]; intros [| n]; simpl; try tauto.
  intros [-> | H]; eauto.
Qed.

Lemma replaceOpeningFence_In c s : In c (Text.replaceOpeningFence s) -> In c s.
Proof.
  unfold Text.replaceOpeningFence.
  repeat match goal with
         | |- In _ (match ?x with _ => _ end) -> _ => destruct x; auto
         | |- In _ (if ?x then _ else _) -> _ => destruct x; auto
         end.
  intros H. apply trimStart_In in H. simpl. auto 10.
Qed.

Lemma replaceClosingFence_In c s : In c (Text.replaceClosingFence s) -> In c s.
Proof.
  unfold Text.replaceClosingFence. destruct (Text.eqb _ _); [apply take_In | auto].
Qed.

Lemma unfence_In c rawText : In c (unfence rawText) -> In c rawText.
Proof.
  unfold unfence. intros H.
  now apply trim_In, replaceClosingFence_In, replaceOpeningFence_In, trim_In in H.
Qed.

Lemma trim_solid ws1 s ws2 :
  blank ws1 -> blank ws2 -> solid s -> Text.trim (ws1 ++ s ++ ws2) = s.
Proof.
  intros H1 H2 [(c & t & Hs & Hc) (t' & c' & Hs' & Hc')]. unfold Text.trim.
  rewrite trimStart_blank by exact H1.
  rewrite Hs at 1. simpl. rewrite Hc. change (c :: t ++ ws2) with ((c :: t) ++ ws2).
  rewrite <- Hs, trimEnd_blank by exact H2.
  rewrite Hs'. now apply trimEnd_solid.
Qed.

Lemma replaceClosingFence_fence s :
  Text.replaceClosingFence (s ++ [96; 96; 96]%N) = s.
Proof.
  unfold Text.replaceClosingFence. rewrite length_app. simpl.
  replace (length s + 3 - 3)%nat with (length s) by lia.
  rewrite drop_app_length, take_app_length. reflexivity.
Qed.

Lemma replaceClosingFence_other s c :
  c <> 96%N -> Text.replaceClosingFence (s ++ [c]) = s ++ [c].
Proof.
  intros Hc. unfold Text.replaceClosingFence, Text.eqb.
  destruct (bool_decide _) eqn:E; [| reflexivity].
  apply bool_decide_eq_true in E. exfalso.
  pose proof (take_drop (length (s ++ [c]) - 3) (s ++ [c])) as H.
  rewrite E in H. apply (f_equal last) in H.
  rewrite last_snoc in H.
  change [96; 96; 96]%N with ([96; 96]%N ++ [96%N]) in H.
  rewrite app_assoc, last_snoc in H. congruence.
Qed.

(** ** JsonArrayExtractor, further *)

Lemma parseJsonArray_unfold rawText :
  parseJsonArray rawText =
    match JSON.parse (unfence rawText) with
    | Returns (JArray parsed) => Returns parsed
    | _ => bracketExtraction (unfence rawText)
    end.
Proof.
  unfold parseJsonArray, bracketExtraction, unfence.
  destruct (JSON.parse _) as [[] |]; reflexivity.
Qed.

Lemma parseJsonArray_of_unfenced rawText items :
  JSON.parse (unfence rawText) = Returns (JArray items) ->
  parseJsonArray rawText = Returns items.
Proof. intros H. now rewrite parseJsonArray_unfold, H. Qed.

(** [X1] A JSON array is recovered from its text alone, from the text
    inside a fence opened by three backticks and [json] in any letter
    case and closed by three backticks, from either half of such a
    fence, and whatever white space surrounds the text or separates it
    from the fence. *)
Theorem parseJsonArray_tolerates_fences
    (opening closing : bool) ws0 tag ws1 mid ws2 ws3 items :
  blank ws0 -> blank ws1 -> blank ws2 -> blank ws3 ->
  spellsJson tag = true ->
  JSON.parse (91%N :: mid ++ [93%N]) = Returns (JArray items) ->
  parseJsonArray
    (ws0 ++
     ((if opening then lit "```" ++ tag ++ ws1 else []) ++
      (91%N :: mid ++ [93%N]) ++
      (if closing then ws2 ++ lit "```" else [])) ++
     ws3) = Returns items.
Proof.
  intros H0 H1 H2 H3 Htag Hparse. apply parseJsonArray_of_unfenced.
  rewrite <- Hparse. f_equal. unfold unfence.
  set (core := (91%N :: mid ++ [93%N])).
  assert (Hcore : solid core).
  { split; [exists 91%N, (mid ++ [93%N]) | exists (91%N :: mid), 93%N]; now split. }
  rewrite trim_solid; [| exact H0 | exact H3 |].
  2:{ destruct Hcore as [(c & t & Hc & Hcw) (t' & c' & Hc' & Hcw')].
      destruct opening, closing; split.
      - exists 96%N, (([96; 96]%N ++ tag ++ ws1) ++ core ++ ws2 ++ lit "```"). now split.
      - exists ((lit "```" ++ tag ++ ws1) ++ core ++ ws2 ++ [96; 96]%N), 96%N.
        split; [| reflexivity]. now rewrite <- !app_assoc.
      - exists 96%N, (([96; 96]%N ++ tag ++ ws1) ++ core ++ []). now split.
      - exists ((lit "```" ++ tag ++ ws1) ++ t'), c'. split; [| exact Hcw'].
        rewrite app_nil_r, Hc'. now rewrite <- !app_assoc.
      - exists c, (t ++ ws2 ++ lit "```"). split; [| exact Hcw].
        cbn [app]. now rewrite Hc.
      - exists (core ++ ws2 ++ [96; 96]%N), 96%N. split; [| reflexivity].
        cbn [app]. now rewrite <- !app_assoc.
      - exists c, t. split; [| exact Hcw]. cbn [app]. now rewrite app_nil_r.
      - exists t', c'. split; [| exact Hcw']. cbn [app]. now rewrite app_nil_r. }
  assert (Hopen : Text.replaceOpeningFence
                    ((if opening then lit "```" ++ tag ++ ws1 else []) ++ core ++
                     (if closing then ws2 ++ lit "```" else [])) =
                  core ++ (if closing then ws2 ++ lit "```" else [])).
  { destruct opening; [| reflexivity].
    destruct tag as [| j [| s [| o [| n [| ? ?]]]]]; try discriminate Htag.
    simpl in Htag. unfold Text.replaceOpeningFence. cbn [lit List.map list_ascii_of_string app].
    change (N_of_ascii "`") with 96%N. rewrite Htag.
    rewrite trimStart_blank by exact H1. reflexivity. }
  rewrite Hopen.
  destruct closing.
  - replace (core ++ ws2 ++ lit "```") with ((core ++ ws2) ++ [96; 96; 96]%N)
      by (now rewrite <- app_assoc).
    rewrite replaceClosingFence_fence.
    exact (trim_solid [] core ws2 (List.Forall_nil _) H2 Hcore).
  - rewrite app_nil_r. unfold core.
    change (91%N :: mid ++ [93%N]) with ((91%N :: mid) ++ [93%N]).
    rewrite replaceClosingFence_other by discriminate.
    change ((91%N :: mid) ++ [93%N]) with core.
    rewrite <- (app_nil_r core) at 1.
    exact (trim_solid [] core [] (List.Forall_nil _) (List.Forall_nil _) Hcore).
Qed.

Lemma parseJsonArray_fenced_example :
  parseJsonArray
    ([32%N] ++
     ((lit "```" ++ lit "JSON" ++ [10%N]) ++
      (91%N :: quoted "{'text':'hola'}" ++ [93%N]) ++
      ([10; 32]%N ++ lit "```")) ++
     [10%N]) =
  Returns [JObject [(lit "text", JString (lit "hola"))]].
Proof.
  apply (parseJsonArray_tolerates_fences true true [32%N] (lit "JSON") [10%N]
           (quoted "{'text':'hola'}") [10; 32]%N [10%N]);
    try (repeat constructor; fail); vm_compute; reflexivity.
Defined.

(** *** What the parser leaves is the end of what it was given *)

Lemma skipWs_suffix s : JSON.skipWs s `suffix_of` s.
Proof.
  induction s as [| c s IH]; simpl; [reflexivity |].
  destruct (JSON.isWs c); [now apply suffix_cons_r | reflexivity].
Qed.

Lemma startsWith_eq c s rest : JSON.startsWith c s = Some rest -> s = c :: rest.
Proof.
  destruct s as [| d s]; simpl; [discriminate |].
  destruct (N.eqb_spec d c); [| discriminate]. now intros [= ->]; subst.
Qed.

Lemma stringBody_suffix s : forall body rest,
  JSON.stringBody s = Some (body, rest) -> rest `suffix_of` s.
Proof.
  remember (length s) as n eqn:Hn. revert s Hn.
  induction n as [n IH] using lt_wf_ind. intros s -> body rest H.
  destruct s as [| c s']; [discriminate |]. simpl in H.
  repeat match type of H with
         | (if ?b then _ else _) = _ => destruct b
         | match ?x with _ => _ end = _ =>
             match x with
             | JSON.stringBody ?t => destruct (JSON.stringBody t) as [[? ?] |] eqn:?
             | JSON.hex _ => destruct x
             | _ => destruct x as [| ? ?]
             end
         end; try discriminate;
    injection H as <- <-;
    try match goal with
        | E : JSON.stringBody ?t = Some (_, ?r) |- _ =>
            eapply (IH (length t)) in E; [| simpl; lia | reflexivity]
        end;
    repeat (apply suffix_cons_r); try assumption; reflexivity.
Qed.

Lemma digits_suffix s : forall ds rest, JSON.digits s = (ds, rest) -> rest `suffix_of` s.
Proof.
  induction s as [| c s IH]; simpl; intros ds rest.
  - now intros [= <- <-].
  - destruct (JSON.digit c).
    + destruct (JSON.digits s) as [ds' rest'] eqn:E. intros [= <- <-].
      apply suffix_cons_r. now apply (IH ds').
    + now intros [= <- <-].
Qed.

Lemma startsWith_suffix c t u : JSON.startsWith c t = Some u -> u `suffix_of` t.
Proof. intros E. apply startsWith_eq in E as ->. now apply suffix_cons_r. Qed.

Lemma integerPart_suffix s ds rest :
  JSON.integerPart s = Some (ds, rest) -> rest `suffix_of` s.
Proof.
  unfold JSON.integerPart. destruct (JSON.digits s) as [ds' rest'] eqn:E.
  apply digits_suffix in E. destruct ds' as [| d ds']; [discriminate |].
  destruct (_ && _); [discriminate |]. now intros [= <- <-].
Qed.

Lemma fractionPart_suffix s ds rest :
  JSON.fractionPart s = Some (ds, rest) -> rest `suffix_of` s.
Proof.
  unfold JSON.fractionPart. destruct (JSON.startsWith 46 s) as [s' |] eqn:E.
  - apply startsWith_suffix in E.
    destruct (JSON.digits s') as [ds' rest'] eqn:D. apply digits_suffix in D.
    destruct ds'; [discriminate |]. intros [= <- <-]. suffix_chain.
  - now intros [= <- <-].
Qed.

Lemma exponentPart_suffix s e rest :
  JSON.exponentPart s = Some (e, rest) -> rest `suffix_of` s.
Proof.
  unfold JSON.exponentPart. destruct s as [| c s']; [now intros [= <- <-] |].
  destruct (_ || _); [| now intros [= <- <-]].
  assert (Hsign : forall negative s'',
            match JSON.startsWith 45 s' with
            | Some t => (true, t)
            | None => match JSON.startsWith 43 s' with
                      | Some t => (false, t)
                      | None => (false, s')
                      end
            end = (negative, s'') -> s'' `suffix_of` s').
  { intros negative s''.
    destruct (JSON.startsWith 45 s') as [t |] eqn:E1.
    - apply startsWith_suffix in E1. now intros [= <- <-].
    - destruct (JSON.startsWith 43 s') as [t |] eqn:E2.
      + apply startsWith_suffix in E2. now intros [= <- <-].
      + now intros [= <- <-]. }
  destruct (match JSON.startsWith 45 s' with _ => _ end) as [negative s''].
  specialize (Hsign _ _ eq_refl).
  destruct (JSON.digits s'') as [ds rest'] eqn:D. apply digits_suffix in D.
  destruct ds; [discriminate |]. intros [= <- <-].
  apply suffix_cons_r. suffix_chain.
Qed.

Lemma number_suffix s x rest : JSON.number s = Some (x, rest) -> rest `suffix_of` s.
Proof.
  unfold JSON.number, JSON.sign.
  assert (Hsign : forall negative s1,
            match JSON.startsWith 45 s with
            | Some s' => (true, s')
            | None => (false, s)
            end = (negative, s1) -> s1 `suffix_of` s).
  { intros negative s1. destruct (JSON.startsWith 45 s) as [t |] eqn:E.
    - apply startsWith_suffix in E. now intros [= <- <-].
    - now intros [= <- <-]. }
  destruct (match JSON.startsWith 45 s with _ => _ end) as [negative s1].
  specialize (Hsign _ _ eq_refl).
  destruct (JSON.integerPart s1) as [[int s2] |] eqn:E1; [| discriminate].
  destruct (JSON.fractionPart s2) as [[frac s3] |] eqn:E2; [| discriminate].
  destruct (JSON.exponentPart s3) as [[e s4] |] eqn:E3; [| discriminate].
  apply integerPart_suffix in E1. apply fractionPart_suffix in E2.
  apply exponentPart_suffix in E3. intros [= _ <-].
  suffix_chain.
Qed.

Lemma word_suffix w v s r rest : JSON.word w v s = Some (r, rest) -> rest `suffix_of` s.
Proof.
  unfold JSON.word. destruct (Text.eqb _ _); [| discriminate].
  intros [= _ <-]. apply suffix_drop.
Qed.

Lemma valueWith_leavesEnd elements members :
  leavesEnd elements -> leavesEnd members -> leavesEnd (JSON.valueWith elements members).
Proof.
  intros He Hm s r rest. unfold JSON.valueWith.
  destruct s as [| c s']; [discriminate |].
  pose proof (skipWs_suffix s') as Hws.
  destruct (c =? 34)%N.
  { destruct (JSON.stringBody s') as [[str rest'] |] eqn:E; [| discriminate].
    apply stringBody_suffix in E. intros [= _ <-]. now apply suffix_cons_r. }
  destruct (c =? 91)%N.
  { destruct (JSON.startsWith 93 _) as [rest' |] eqn:E.
    - apply startsWith_suffix in E. intros [= _ <-].
      apply suffix_cons_r. suffix_chain.
    - destruct (elements _) as [[items rest'] |] eqn:E'; [| discriminate].
      apply He in E'. intros [= _ <-]. apply suffix_cons_r. suffix_chain. }
  destruct (c =? 123)%N.
  { destruct (JSON.startsWith 125 _) as [rest' |] eqn:E.
    - apply startsWith_suffix in E. intros [= _ <-].
      apply suffix_cons_r. suffix_chain.
    - destruct (members _) as [[ms rest'] |] eqn:E'; [| discriminate].
      apply Hm in E'. intros [= _ <-]. apply suffix_cons_r. suffix_chain. }
  destruct (c =? 116)%N; [apply word_suffix |].
  destruct (c =? 102)%N; [apply word_suffix |].
  destruct (c =? 110)%N; [apply word_suffix |].
  destruct (JSON.number _) as [[q rest'] |] eqn:E; [| discriminate].
  apply number_suffix in E. now intros [= _ <-].
Qed.

Lemma elementsWith_leavesEnd value elements :
  leavesEnd value -> leavesEnd elements -> leavesEnd (JSON.elementsWith value elements).
Proof.
  intros Hv He s r rest. unfold JSON.elementsWith.
  destruct (value s) as [[v rest1] |] eqn:E1; [| discriminate]. apply Hv in E1.
  pose proof (skipWs_suffix rest1) as Hws.
  destruct (JSON.startsWith 93 _) as [rest2 |] eqn:E2.
  { apply startsWith_suffix in E2. intros [= _ <-].
    suffix_chain. }
  destruct (JSON.startsWith 44 _) as [rest2 |] eqn:E3; [| discriminate].
  apply startsWith_suffix in E3. pose proof (skipWs_suffix rest2) as Hws2.
  destruct (elements _) as [[vs rest3] |] eqn:E4; [| discriminate].
  apply He in E4. intros [= _ <-].
  suffix_chain.
Qed.

Lemma membersWith_leavesEnd value members :
  leavesEnd value -> leavesEnd members -> leavesEnd (JSON.membersWith value members).
Proof.
  intros Hv Hm s r rest. unfold JSON.membersWith.
  destruct (JSON.startsWith 34 s) as [s' |] eqn:E0; [| discriminate].
  apply startsWith_suffix in E0.
  destruct (JSON.stringBody s') as [[key rest1] |] eqn:E1; [| discriminate].
  apply stringBody_suffix in E1. pose proof (skipWs_suffix rest1) as Hws1.
  destruct (JSON.startsWith 58 _) as [rest2 |] eqn:E2; [| discriminate].
  apply startsWith_suffix in E2. pose proof (skipWs_suffix rest2) as Hws2.
  destruct (value _) as [[v rest3] |] eqn:E3; [| discriminate].
  apply Hv in E3. pose proof (skipWs_suffix rest3) as Hws3.
  assert (H3 : rest3 `suffix_of` s).
  { suffix_chain. }
  destruct (JSON.startsWith 125 _) as [rest4 |] eqn:E4.
  { apply startsWith_suffix in E4. intros [= _ <-].
    suffix_chain. }
  destruct (JSON.startsWith 44 _) as [rest4 |] eqn:E5; [| discriminate].
  apply startsWith_suffix in E5. pose proof (skipWs_suffix rest4) as Hws4.
  destruct (members _) as [[ms rest5] |] eqn:E6; [| discriminate].
  apply Hm in E6. intros [= _ <-].
  suffix_chain.
Qed.

Lemma parser_leavesEnd fuel :
  leavesEnd (JSON.value fuel) /\ leavesEnd (JSON.elements fuel) /\
  leavesEnd (JSON.members fuel).
Proof.
  induction fuel as [| fuel (Hv & He & Hm)].
  - repeat split; intros s r rest; discriminate.
  - split; [| split]; simpl.
    + now apply valueWith_leavesEnd.
    + now apply elementsWith_leavesEnd.
    + now apply membersWith_leavesEnd.
Qed.

Lemma suffix_In {A} (x : A) (l k : list A) : l `suffix_of` k -> In x l -> In x k.
Proof. intros [pre ->] H. apply in_or_app. now right. Qed.

(** The elements of an array end with a closing bracket. *)
Lemma elements_closing fuel : forall s items rest,
  JSON.elements fuel s = Some (items, rest) -> In 93%N s.
Proof.
  induction fuel as [| fuel IH]; intros s items rest; [discriminate |].
  simpl. unfold JSON.elementsWith.
  destruct (JSON.value fuel s) as [[v rest1] |] eqn:E1; [| discriminate].
  apply (proj1 (parser_leavesEnd fuel)) in E1.
  pose proof (skipWs_suffix rest1) as Hws.
  assert (Hin : forall t, t `suffix_of` JSON.skipWs rest1 -> In 93%N t -> In 93%N s).
  { intros t Ht H. eapply suffix_In; [| exact H].
    suffix_chain. }
  destruct (JSON.startsWith 93 _) as [rest2 |] eqn:E2.
  { apply startsWith_eq in E2. intros _. apply (Hin (JSON.skipWs rest1)); [reflexivity |].
    rewrite E2. now left. }
  destruct (JSON.startsWith 44 _) as [rest2 |] eqn:E3; [| discriminate].
  apply startsWith_suffix in E3.
  destruct (JSON.elements fuel _) as [[vs rest3] |] eqn:E4; [| discriminate].
  apply IH in E4. intros _. apply (Hin rest2 E3).
  eapply suffix_In; [apply skipWs_suffix | exact E4].
Qed.

(** A text that parses to an array has both brackets. *)
Lemma value_array_brackets fuel s items rest :
  JSON.value fuel s = Some (JArray items, rest) ->
  (exists s', s = 91%N :: s') /\ In 93%N s.
Proof.
  destruct fuel as [| fuel]; [discriminate |]. simpl. unfold JSON.valueWith.
  destruct s as [| c s']; [discriminate |].
  destruct (c =? 34)%N.
  { destruct (JSON.stringBody s') as [[? ?] |]; discriminate. }
  destruct (N.eqb_spec c 91) as [-> |].
  { intros H. split; [eauto |]. right.
    destruct (JSON.startsWith 93 _) as [rest' |] eqn:E.
    - apply startsWith_eq in E. eapply suffix_In; [apply skipWs_suffix |].
      rewrite E. now left.
    - destruct (JSON.elements fuel _) as [[its rest'] |] eqn:E'; [| discriminate].
      apply elements_closing in E'.
      eapply suffix_In; [apply skipWs_suffix | exact E']. }
  destruct (c =? 123)%N.
  { destruct (JSON.startsWith 125 _); [discriminate |].
    destruct (JSON.members fuel _) as [[? ?] |]; discriminate. }
  unfold JSON.word.
  destruct (c =? 116)%N; [destruct (Text.eqb _ _); discriminate |].
  destruct (c =? 102)%N; [destruct (Text.eqb _ _); discriminate |].
  destruct (c =? 110)%N; [destruct (Text.eqb _ _); discriminate |].
  destruct (JSON.number _) as [[? ?] |]; discriminate.
Qed.

Lemma parse_array_brackets t items :
  JSON.parse t = Returns (JArray items) -> In 91%N t /\ In 93%N t.
Proof.
  unfold JSON.parse.
  destruct (JSON.value _ _) as [[v rest] |] eqn:E; [| discriminate].
  destruct (JSON.skipWs rest); [| discriminate]. intros [= ->].
  apply value_array_brackets in E as [[s' E] H].
  split; (eapply suffix_In; [apply skipWs_suffix |]); [rewrite E; now left | exact H].
Qed.

Lemma indexOf_from_absent c s : forall i, ~ In c s -> Text.indexOf_from c s i = -1.
Proof.
  induction s as [| d s IH]; intros i H; simpl; [reflexivity |].
  destruct (N.eqb_spec d c) as [-> | _]; [exfalso; apply H; now left |].
  apply IH. intros Hin. apply H. now right.
Qed.

Lemma lastIndexOf_from_absent c s : forall i found,
  ~ In c s -> Text.lastIndexOf_from c s i found = found.
Proof.
  induction s as [| d s IH]; intros i found H; simpl; [reflexivity |].
  destruct (N.eqb_spec d c) as [-> | _]; [exfalso; apply H; now left |].
  apply IH. intros Hin. apply H. now right.
Qed.

Lemma indexOf_from_first c before rest : forall i,
  ~ In c before ->
  Text.indexOf_from c (before ++ c :: rest) i = i + Z.of_nat (length before).
Proof.
  induction before as [| d before IH]; intros i H; simpl.
  - rewrite N.eqb_refl. lia.
  - destruct (N.eqb_spec d c) as [-> | _]; [exfalso; apply H; now left |].
    rewrite IH by (intros Hin; apply H; now right). lia.
Qed.

Lemma lastIndexOf_from_last c pre after : forall i found,
  ~ In c after ->
  Text.lastIndexOf_from c (pre ++ c :: after) i found = i + Z.of_nat (length pre).
Proof.
  induction pre as [| d pre IH]; intros i found H; simpl.
  - rewrite N.eqb_refl, lastIndexOf_from_absent by exact H. lia.
  - rewrite IH by exact H. lia.
Qed.

Lemma bracketExtraction_absent unfenced :
  ~ In 91%N unfenced \/ ~ In 93%N unfenced ->
  bracketExtraction unfenced =
    Throws (Error "Model output did not contain a valid JSON array.").
Proof.
  unfold bracketExtraction, Text.indexOf, Text.lastIndexOf. intros [H | H].
  - now rewrite indexOf_from_absent by exact H.
  - rewrite lastIndexOf_from_absent by exact H.
    destruct (Text.indexOf_from 91 unfenced 0 =? -1) eqn:E; [reflexivity |].
    assert (G : forall s i, 0 <= i ->
                  Text.indexOf_from 91 s i = -1 \/ i <= Text.indexOf_from 91 s i).
    { induction s as [| d s IH]; intros i Hi; simpl; [now left |].
      destruct (d =? 91)%N; [right; lia |].
      destruct (IH (i + 1) ltac:(lia)); [now left | right; lia]. }
    destruct (G unfenced 0 ltac:(lia)) as [G0 | G0].
    + rewrite G0 in E. discriminate.
    + simpl. destruct (Z.gtb_spec (-1) (Text.indexOf_from 91 unfenced 0)); [lia | reflexivity].
Qed.

(** [X2] A text without an opening bracket, or without a closing
    bracket, gives the error "Model output did not contain a valid JSON
    array.": [parseJsonArray] neither returns nor lets a [SyntaxError]
    through. *)
Theorem parseJsonArray_needs_brackets rawText :
  ~ In 91%N rawText \/ ~ In 93%N rawText ->
  parseJsonArray rawText =
    Throws (Error "Model output did not contain a valid JSON array.").
Proof.
  intros H.
  assert (H' : ~ In 91%N (unfence rawText) \/ ~ In 93%N (unfence rawText)).
  { destruct H as [H | H]; [left | right]; intros Hin; apply H;
      now apply unfence_In. }
  rewrite parseJsonArray_unfold.
  destruct (JSON.parse (unfence rawText)) as [v | e] eqn:E;
    [| now apply bracketExtraction_absent].
  destruct v; try now apply bracketExtraction_absent.
  apply parse_array_brackets in E. tauto.
Qed.

Lemma parseJsonArray_prose_example :
  parseJsonArray (lit "I could not find any text in this image :]") =
    Throws (Error "Model output did not contain a valid JSON array.").
Proof.
  apply parseJsonArray_needs_brackets. left. vm_compute.
  intuition discriminate.
Defined.

(** [X3] An array among prose: when the text, once trimmed and stripped
    of its fence, is a JSON array between a part without opening
    bracket and a part without closing bracket, [parseJsonArray]
    returns an array: the one the whole text parses to when it does,
    and the one in between otherwise. *)
Theorem parseJsonArray_embedded rawText before mid after items :
  unfence rawText = before ++ (91%N :: mid ++ [93%N]) ++ after ->
  ~ In 91%N before -> ~ In 93%N after ->
  JSON.parse (91%N :: mid ++ [93%N]) = Returns (JArray items) ->
  exists items',
    parseJsonArray rawText = Returns items' /\
    (items' = items \/ JSON.parse (unfence rawText) = Returns (JArray items')).
Proof.
  intros Hu Hb Ha Hp. rewrite parseJsonArray_unfold.
  assert (Hx : bracketExtraction (unfence rawText) = Returns items).
  { rewrite Hu. set (core := 91%N :: mid ++ [93%N]) in *.
    assert (Hi : Text.indexOf (before ++ core ++ after) 91 = Z.of_nat (length before)).
    { unfold Text.indexOf, core.
      change (before ++ (91%N :: mid ++ [93%N]) ++ after)
        with (before ++ 91%N :: (mid ++ [93%N]) ++ after).
      now rewrite indexOf_from_first by exact Hb. }
    assert (Hl : Text.lastIndexOf (before ++ core ++ after) 93 =
                 Z.of_nat (length before + length core) - 1).
    { unfold Text.lastIndexOf, core.
      replace (before ++ (91%N :: mid ++ [93%N]) ++ after)
        with ((before ++ 91%N :: mid) ++ 93%N :: after)
        by (cbn [app]; rewrite <- !app_assoc; reflexivity).
      rewrite lastIndexOf_from_last by exact Ha.
      rewrite length_app. cbn [length]. rewrite length_app. cbn [length]. lia. }
    unfold bracketExtraction. rewrite Hi, Hl.
    destruct (Z.eqb_spec (Z.of_nat (length before)) (-1)); [lia |].
    assert (Hc : (2 <= length core)%nat)
      by (unfold core; cbn [length]; rewrite length_app; simpl; lia).
    destruct (Z.gtb_spec (Z.of_nat (length before + length core) - 1)
                (Z.of_nat (length before))); [| lia].
    cbn [negb andb]. unfold Text.slice.
    rewrite Nat2Z.id, drop_app_length.
    replace (Z.to_nat _) with (length core) by lia.
    now rewrite take_app_length, Hp. }
  destruct (JSON.parse (unfence rawText)) as [v | e] eqn:E; [| eauto].
  destruct v; eauto.
Qed.

Lemma parseJsonArray_embedded_example :
  exists items',
    parseJsonArray (lit "Here you go: [1, [2]] - enjoy!") = Returns items' /\
    length items' = 2%nat.
Proof.
  edestruct (parseJsonArray_embedded (lit "Here you go: [1, [2]] - enjoy!")
              (lit "Here you go: ") (lit "1, [2]") (lit " - enjoy!"))
    as (items' & Hrun & Hitems).
  - vm_compute. reflexivity.
  - vm_compute. intuition discriminate.
  - vm_compute. intuition discriminate.
  - vm_compute. reflexivity.
  - exists items'. split; [exact Hrun |].
    destruct Hitems as [-> | H]; [reflexivity |].
    vm_compute in H. discriminate H.
Defined.

(** ** TextExtractionStage, further *)

Lemma entryOf_normalizeEntry item :
  entryOf item =
    if 0 <? Z.of_nat (length (text (normalizeEntry item)))
    then Some (normalizeEntry item) else None.
Proof.
  unfold normalizeEntry, entryOf.
  destruct item as [| b | x | s | items | ms]; try reflexivity.
  cbn [orEmptyObject text].
  destruct (JSON.get (JObject ms) "text") as [[| | | s | |] |]; try reflexivity.
  destruct (decide (Text.trim s = [])) as [-> | Hne]; [reflexivity |].
  destruct (Text.trim s); [congruence | reflexivity].
Qed.

Lemma filter_normalizeEntry rawItems :
  List.filter (fun item => 0 <? Z.of_nat (length (text item)))
    (List.map normalizeEntry rawItems) = omap entryOf rawItems.
Proof.
  induction rawItems as [| item rawItems IH]; [reflexivity |].
  change (omap entryOf (item :: rawItems))
    with (match entryOf item with
          | Some entry => entry :: omap entryOf rawItems
          | None => omap entryOf rawItems
          end).
  cbn [List.map List.filter]. rewrite IH, entryOf_normalizeEntry.
  now destruct (0 <? _).
Qed.

Lemma entryOf_trimmed item entry :
  entryOf item = Some entry -> text entry <> [] /\ Text.trim (text entry) = text entry.
Proof.
  unfold entryOf. destruct item; try discriminate.
  destruct (JSON.get _ "text") as [[| | | s | |] |]; try discriminate.
  destruct (decide (Text.trim s = [])) as [| Hne]; [discriminate |].
  intros [= <-]. cbn [text]. split; [exact Hne | apply trim_idem].
Qed.

(** [X4] When the service answers the extraction request with a text
    that parses to an array, [extractTextEntries] returns, in the order
    of the array, one entry for each item that is an object whose
    [text] is a string with something else than white space in it, and
    none for any other item (null, a number, a string, an array, an
    object without such a [text]). The text of an entry is trimmed and
    not empty; its language is kept only when it is a string. Exactly
    one request has been sent. *)
Theorem extractTextEntries_entries ai imageModel inlineImage w response rawItems :
  service w (Genai.apiKey ai) (calls w) (extractionRequest imageModel inlineImage) =
    Returns response ->
  parseJsonArray (default [] (Genai.Response.text response)) = Returns rawItems ->
  extractTextEntries ai imageModel inlineImage w =
    (sent (extractionRequest imageModel inlineImage) w, Returns (omap entryOf rawItems)) /\
  (length (omap entryOf rawItems) <= length rawItems)%nat /\
  Forall (fun entry => text entry <> [] /\ Text.trim (text entry) = text entry)
    (omap entryOf rawItems).
Proof.
  intros Hs Hp. split; [| split].
  - unfold extractTextEntries, bind, generateContent, lift, ret, sent.
    now rewrite Hs, Hp, filter_normalizeEntry.
  - rewrite <- filter_normalizeEntry.
    etransitivity; [apply List.filter_length_le |]. now rewrite List.length_map.
  - apply List.Forall_forall. intros entry Hin.
    apply list_elem_of_In, list_elem_of_omap in Hin as (item & _ & H).
    now apply entryOf_trimmed in H.
Qed.

Lemma extractTextEntries_example :
  snd (extractTextEntries client "gemini-3-pro-image-preview" image
         (world ∅ None
            [textResponse
               (quoted "[{'text':'  hola ','language':'es'}, null, 7, 'x', [], {'text':5}, {'text':' '}, {'text':'adios','language':1}]")])) =
  Returns [{| text := lit "hola"; language := Some (lit "es") |};
           {| text := lit "adios"; language := None |}].
Proof.
  edestruct (extractTextEntries_entries client "gemini-3-pro-image-preview" image
               (world ∅ None
                  [textResponse
                     (quoted "[{'text':'  hola ','language':'es'}, null, 7, 'x', [], {'text':5}, {'text':' '}, {'text':'adios','language':1}]")]))
    as (Hrun & _ & _).
  - vm_compute. reflexivity.
  - vm_compute. reflexivity.
  - rewrite Hrun. vm_compute. reflexivity.
Defined.

(** ** The preamble, further *)

(** [X5] [resolveApiKey] never returns an empty key, and an explicit
    key that is the empty string is rejected even when the environment
    holds a key: the environment is consulted only when no explicit key
    is given. The world is left as it was. *)
Theorem resolveApiKey_never_empty explicitApiKey w :
  fst (resolveApiKey explicitApiKey w) = w /\
  (forall key, snd (resolveApiKey explicitApiKey w) = Returns key ->
     key <> EmptyString /\
     (explicitApiKey = Some key \/
      explicitApiKey = None /\ GEMINI_API_KEY w = Some key)) /\
  (explicitApiKey = Some EmptyString ->
   snd (resolveApiKey explicitApiKey w) =
     Throws (Error "GEMINI_API_KEY is required. Set it or pass --api-key.")).
Proof.
  unfold resolveApiKey, Str.truthy, Str.eqb.
  split; [| split].
  - destruct explicitApiKey as [k |]; [| destruct (GEMINI_API_KEY w) as [k |]];
      try destruct (string_dec k ""); reflexivity.
  - intros key.
    destruct explicitApiKey as [k |]; [| destruct (GEMINI_API_KEY w) as [k |]];
      try destruct (string_dec k ""); simpl; intros [= <-] || discriminate; auto.
  - intros ->. reflexivity.
Qed.

Lemma prefix_before_quote needle : forall s,
  (forall c, In c (list_ascii_of_string needle) -> c <> "'"%char) ->
  String.prefix needle (s +:+ "'") = String.prefix needle s.
Proof.
  induction needle as [| a needle IH]; intros s H; [now destruct s |].
  destruct s as [| b s]; simpl.
  - destruct (ascii_dec a "'") as [-> | _]; [| reflexivity].
    exfalso. apply (H "'"%char); [now left | reflexivity].
  - destruct (ascii_dec a b); [| reflexivity].
    apply IH. intros c Hc. apply H. now right.
Qed.

Lemma includes_before_quote path :
  Str.includes (path +:+ "'") "already exists" = Str.includes path "already exists".
Proof.
  induction path as [| c path IH].
  - reflexivity.
  - change (String c path +:+ "'") with (String c (path +:+ "'")).
    cbn [Str.includes]. rewrite IH. f_equal.
    change (String c (path +:+ "'")) with (String c path +:+ "'").
    apply prefix_before_quote. intros d Hd. vm_compute in Hd.
    intros ->. intuition discriminate.
Qed.

Lemma includes_ENOENT_stat path :
  Str.includes (message (Fs.ENOENT "stat" path)) "already exists" =
  Str.includes path "already exists".
Proof.
  rewrite <- (includes_before_quote path).
  unfold Fs.ENOENT, message.
  cbn [String.append Str.includes String.prefix].
  repeat (match goal with
          | |- context [ascii_dec ?a ?b] =>
              destruct (ascii_dec a b) as [E | _]; [discriminate E |]
          end; cbn [orb]).
  destruct (ascii_dec "a" "a") as [_ | E]; [| congruence].
  repeat (match goal with
          | |- context [ascii_dec ?a ?b] =>
              destruct (ascii_dec a b) as [E | _]; [discriminate E |]
          end; cbn [orb]).
  reflexivity.
Qed.

(** [X6] The overwrite guard on an output path that does not exist,
    without the overwrite flag: it lets the request through, unless the
    path itself contains the words "already exists", in which case the
    error of [stat], whose message quotes the path, is taken for the
    guard's own and thrown again. The world is left as it was. *)
Theorem ensureOutputWritable_absent outputPath w :
  files w !! outputPath = None ->
  ensureOutputWritable outputPath false w =
    (w, if Str.includes outputPath "already exists"
        then Throws (Fs.ENOENT "stat" outputPath)
        else Returns tt).
Proof.
  intros H. unfold ensureOutputWritable, try_catch, bind, Fs.stat, throw, ret.
  rewrite H, includes_ENOENT_stat.
  destruct (Str.includes outputPath "already exists"); reflexivity.
Qed.

Lemma ensureOutputWritable_absent_example :
  let w := world {[ "/tmp/input.png"%string := PNG ]} None [] in
  ensureOutputWritable "/tmp/out.png" false w = (w, Returns tt) /\
  ensureOutputWritable "/tmp/already exists.png" false w =
    (w, Throws (SystemError
                  "ENOENT: no such file or directory, stat '/tmp/already exists.png'")).
Proof.
  intros w. split.
  - apply (ensureOutputWritable_absent "/tmp/out.png" w). reflexivity.
  - apply (ensureOutputWritable_absent "/tmp/already exists.png" w). reflexivity.
Defined.

(** [X7] What [readInlineImage] returns decodes to the bytes of the
    input file and carries the media type of its extension; the world
    is left as it was. An unsupported extension is reported before the
    file is read, so even for a file that does not exist. *)
Theorem readInlineImage_decodes inputPath w :
  fst (readInlineImage inputPath w) = w /\
  (forall inlineImage,
     snd (readInlineImage inputPath w) = Returns inlineImage ->
     files w !! inputPath = Some (Buffer.fromBase64 (data inlineImage)) /\
     inferMimeType inputPath = Returns (mimeType inlineImage)) /\
  (forall e, inferMimeType inputPath = Throws e ->
     snd (readInlineImage inputPath w) = Throws e).
Proof.
  rewrite readInlineImage_run. split; [reflexivity |]. cbn [snd]. split.
  - intros inlineImage.
    destruct (inferMimeType inputPath) as [mime | e]; [| discriminate].
    destruct (files w !! inputPath) as [bytes |]; [| discriminate].
    intros [= <-]. cbn [data mimeType]. now rewrite fromBase64_toBase64.
  - intros e ->. reflexivity.
Qed.

Lemma readInlineImage_example :
  files (world {[ "/tmp/input.png"%string := PNG ]} None []) !! "/tmp/input.png"%string =
    Some (Buffer.fromBase64 (lit "iVBORw0KGg=="))  /\
  snd (readInlineImage "/tmp/missing.gif" (world ∅ None [])) =
    Throws (Error "Unsupported image extension: .gif").
Proof.
  destruct (readInlineImage_decodes "/tmp/input.png"
              (world {[ "/tmp/input.png"%string := PNG ]} None []))
    as (_ & Hdata & _).
  destruct (readInlineImage_decodes "/tmp/missing.gif" (world ∅ None []))
    as (_ & _ & Hmime).
  split.
  - apply (Hdata {| data := lit "iVBORw0KGg=="; mimeType := "image/png" |}).
    vm_compute. reflexivity.
  - apply Hmime. vm_compute. reflexivity.
Defined.

(** ** The operations and the world, further *)

Lemma requested_nil w : requested [] w w.
Proof. unfold requested. now rewrite app_nil_r. Qed.

Lemma requested_sent parameters requests w w' :
  requested requests (sent parameters w) w' -> requested (parameters :: requests) w w'.
Proof.
  unfold requested, sent. cbn. intros (-> & -> & ->).
  now rewrite <- app_assoc.
Qed.

Lemma ensureFileExists_world filePath w : fst (ensureFileExists filePath w) = w.
Proof. now rewrite ensureFileExists_run. Qed.

Lemma readInlineImage_world inputPath w : fst (readInlineImage inputPath w) = w.
Proof. now rewrite readInlineImage_run. Qed.

Lemma translateEntries_requested ai textModel inputLang outputLang entries w :
  exists requests,
    requested requests w (fst (translateEntries ai textModel inputLang outputLang entries w)) /\
    files (fst (translateEntries ai textModel inputLang outputLang entries w)) = files w /\
    (length requests <= 1)%nat.
Proof.
  rewrite translateEntries_world. destruct (length entries =? 0)%nat.
  - exists []. split; [apply requested_nil |]. split; [reflexivity | simpl; lia].
  - eexists [_]. split; [apply requested_sent, requested_nil |].
    split; [reflexivity | simpl; lia].
Qed.




(** [X9] [extractAndTranslateText] only reads: whatever the request and
    the outcome, the file system and the environment are as they were,
    and at most two requests have been sent, the extraction request
    first. *)
Theorem extractAndTranslateText_reads_only request w :
  let w' := fst (extractAndTranslateText request w) in
  files w' = files w /\
  exists requests,
    requested requests w w' /\ (length requests <= 2)%nat /\
    forall first, head requests = Some first ->
      exists inlineImage,
        first = extractionRequest (default DEFAULTS.imageModel (imageModel request))
                  inlineImage /\
        files w !! inputPath request = Some (Buffer.fromBase64 (data inlineImage)).
Proof.
  intros w'. subst w'. unfold extractAndTranslateText, bind.
  run_stage ensureFileExists_world;
    [| split; [reflexivity |]; exists []; split; [apply requested_nil |];
       split; [simpl; lia | discriminate]].
  destruct (readInlineImage (inputPath request) w) as [w1 [inlineImage | e]] eqn:Eread;
    rewrite readInlineImage_run in Eread; injection Eread as <- Eread;
    [| split; [reflexivity |]; exists []; split; [apply requested_nil |];
       split; [simpl; lia | discriminate]].
  assert (Himage : files w !! inputPath request =
                     Some (Buffer.fromBase64 (data inlineImage))).
  { destruct (inferMimeType (inputPath request)); [| discriminate].
    destruct (files w !! inputPath request) as [bytes |]; [| discriminate].
    injection Eread as <-. cbn [data]. now rewrite fromBase64_toBase64. }
  clear Eread.
  run_stage resolveApiKey_world;
    [| split; [reflexivity |]; exists []; split; [apply requested_nil |];
       split; [simpl; lia | discriminate]].
  run_stage extractTextEntries_world;
    [| split; [reflexivity |]; eexists [_];
       split; [apply requested_sent, requested_nil |];
       split; [simpl; lia |]; intros first [= <-]; now exists inlineImage].
  match goal with
  | |- context [translateEntries ?ai ?tm ?il ?ol ?es ?w0] =>
      destruct (translateEntries_requested ai tm il ol es w0) as (rs & Hrs & Hfs & Hlen);
      destruct (translateEntries ai tm il ol es w0) as [w4 [translations | e]]
  end; cbn [fst] in Hrs, Hfs; apply requested_sent in Hrs; cbn [sent files] in Hfs;
    unfold ret; cbn [fst snd]; (split; [exact Hfs |]);
    eexists; (split; [exact Hrs |]); (split; [simpl; lia |]);
    intros first [= <-]; now exists inlineImage.
Qed.

Lemma resolveApiKey_run explicitApiKey w key :
  snd (resolveApiKey explicitApiKey w) = Returns key ->
  resolveApiKey explicitApiKey w = (w, Returns key).
Proof. intros H. apply run_eta; [apply resolveApiKey_world | exact H]. Qed.

(** The two operations once their preamble has gone through. *)
Lemma extractAndTranslateText_after_preamble request w bytes mime key :
  files w !! inputPath request = Some bytes ->
  inferMimeType (inputPath request) = Returns mime ->
  snd (resolveApiKey (apiKey request) w) = Returns key ->
  extractAndTranslateText request w =
    (let inlineImage := {| data := Buffer.toBase64 bytes; mimeType := mime |} in
     let ai := {| Genai.apiKey := key |} in
     entries <- extractTextEntries ai (default DEFAULTS.imageModel (imageModel request))
                  inlineImage ;;
     translations <- translateEntries ai (default DEFAULTS.textModel (textModel request))
                       (default DEFAULTS.inputLang (inputLang request))
                       (default DEFAULTS.outputLang (outputLang request)) entries ;;
     ret (imap (fun index entry =>
                  {| sourceText := text entry;
                     sourceLanguage := language entry;
                     translatedText := default (text entry) (translations !! index) |})
            entries)) w.
Proof.
  intros Hfile Hmime Hkey. unfold extractAndTranslateText.
  rewrite (bind_Returns _ _ w w tt) by (rewrite ensureFileExists_run, Hfile; reflexivity).
  rewrite (bind_Returns _ _ w w {| data := Buffer.toBase64 bytes; mimeType := mime |})
    by (rewrite readInlineImage_run, Hmime, Hfile; reflexivity).
  now rewrite (bind_Returns _ _ w w key) by (now apply resolveApiKey_run).
Qed.

Lemma recreate_after_preamble request w bytes mime key :
  files w !! inputPath request = Some bytes ->
  inferMimeType (inputPath request) = Returns mime ->
  snd (ensureOutputWritable (default (defaultOutputPath (inputPath request))
                               (outputPath request))
         (default false (force request)) w) = Returns tt ->
  snd (resolveApiKey (apiKey request) w) = Returns key ->
  recreateImageWithTranslatedText request w =
    (let out := default (defaultOutputPath (inputPath request)) (outputPath request) in
     let inlineImage := {| data := Buffer.toBase64 bytes; mimeType := mime |} in
     let ai := {| Genai.apiKey := key |} in
     let imageModel := default DEFAULTS.imageModel (imageModel request) in
     let outputLang := default DEFAULTS.outputLang (outputLang request) in
     entries <- extractTextEntries ai imageModel inlineImage ;;
     translations <- translateEntries ai (default DEFAULTS.textModel (textModel request))
                       (default DEFAULTS.inputLang (inputLang request)) outputLang entries ;;
     outputBase64 <-
       (if (length entries =? 0)%nat then ret (data inlineImage)
        else renderImage ai imageModel outputLang inlineImage entries translations) ;;
     Fs.writeFile out (Buffer.fromBase64 outputBase64) ;;
     ret out) w.
Proof.
  intros Hfile Hmime Hguard Hkey. unfold recreateImageWithTranslatedText.
  rewrite (bind_Returns _ _ w w tt) by (rewrite ensureFileExists_run, Hfile; reflexivity).
  rewrite (bind_Returns _ _ w w tt)
    by (apply run_eta; [apply ensureOutputWritable_world | exact Hguard]).
  unfold recreateAfterGuard.
  rewrite (bind_Returns _ _ w w {| data := Buffer.toBase64 bytes; mimeType := mime |})
    by (rewrite readInlineImage_run, Hmime, Hfile; reflexivity).
  now rewrite (bind_Returns _ _ w w key) by (now apply resolveApiKey_run).
Qed.



(** [X11] An error of the upstream service reaches the caller as it
    is: when the preamble has gone through and the service rejects the
    extraction request with [e], both operations throw [e] itself after
    that single request, and nothing is written. *)
Theorem upstream_rejection_reaches_caller request w bytes mime key e :
  let out := default (defaultOutputPath (inputPath request)) (outputPath request) in
  let inlineImage := {| data := Buffer.toBase64 bytes; mimeType := mime |} in
  let extraction :=
    extractionRequest (default DEFAULTS.imageModel (imageModel request)) inlineImage in
  files w !! inputPath request = Some bytes ->
  inferMimeType (inputPath request) = Returns mime ->
  snd (resolveApiKey (apiKey request) w) = Returns key ->
  service w key (calls w) extraction = Throws e ->
  extractAndTranslateText request w = (sent extraction w, Throws e) /\
  (snd (ensureOutputWritable out (default false (force request)) w) = Returns tt ->
   recreateImageWithTranslatedText request w = (sent extraction w, Throws e)).
Proof.
  intros out inlineImage extraction Hfile Hmime Hkey Hservice.
  assert (Hextract :
    extractTextEntries {| Genai.apiKey := key |}
      (default DEFAULTS.imageModel (imageModel request)) inlineImage w =
      (sent extraction w, Throws e)).
  { unfold extractTextEntries, bind, generateContent. cbn [Genai.apiKey].
    fold extraction. now rewrite Hservice. }
  split.
  - rewrite (extractAndTranslateText_after_preamble request w bytes mime key Hfile Hmime Hkey).
    cbv zeta. fold inlineImage. now apply bind_Throws.
  - intros Hguard.
    rewrite (recreate_after_preamble request w bytes mime key Hfile Hmime Hguard Hkey).
    cbv zeta. fold inlineImage. now apply bind_Throws.
Qed.

Lemma upstream_rejection_example :
  let w := mkWorld {[ "/tmp/input.png"%string := PNG ]} (Some "test-key"%string)
             (fun _ _ _ => Throws (Error "429 Too Many Requests")) [] in
  snd (extractAndTranslateText (request_for "/tmp/input.png") w) =
    Throws (Error "429 Too Many Requests") /\
  snd (recreateImageWithTranslatedText (request_for "/tmp/input.png") w) =
    Throws (Error "429 Too Many Requests") /\
  files (fst (recreateImageWithTranslatedText (request_for "/tmp/input.png") w)) = files w.
Proof.
  intros w.
  destruct (upstream_rejection_reaches_caller (request_for "/tmp/input.png") w PNG
              "image/png" "test-key" (Error "429 Too Many Requests"))
    as [Hextract Hrecreate]; [reflexivity | reflexivity | reflexivity | reflexivity |].
  rewrite Hextract, Hrecreate by (vm_compute; reflexivity).
  repeat split.
Defined.

(** [X12] When the extraction stage yields no entry,
    [extractAndTranslateText] returns no row after that single request:
    the translation stage sends nothing for an empty list. *)
Theorem extractAndTranslateText_nothing_found request w bytes mime key :
  let inlineImage := {| data := Buffer.toBase64 bytes; mimeType := mime |} in
  let model := default DEFAULTS.imageModel (imageModel request) in
  files w !! inputPath request = Some bytes ->
  inferMimeType (inputPath request) = Returns mime ->
  snd (resolveApiKey (apiKey request) w) = Returns key ->
  snd (extractTextEntries {| Genai.apiKey := key |} model inlineImage w) = Returns [] ->
  extractAndTranslateText request w =
    (sent (extractionRequest model inlineImage) w, Returns []).
Proof.
  intros inlineImage model Hfile Hmime Hkey Hextract.
  rewrite (extractAndTranslateText_after_preamble request w bytes mime key Hfile Hmime Hkey).
  cbv zeta. fold inlineImage model.
  now rewrite (bind_Returns _ _ w (sent (extractionRequest model inlineImage) w) [])
    by (apply run_eta; [apply extractTextEntries_world | exact Hextract]).
Qed.

Lemma nothing_found_example :
  let w := world {[ "/tmp/input.png"%string := PNG ]} (Some "test-key"%string)
             [textResponse (quoted "[{'text':'   '}, null]")] in
  snd (extractAndTranslateText (request_for "/tmp/input.png") w) = Returns [] /\
  length (calls (fst (extractAndTranslateText (request_for "/tmp/input.png") w))) = 1%nat.
Proof.
  intros w.
  rewrite (extractAndTranslateText_nothing_found (request_for "/tmp/input.png") w PNG
             "image/png" "test-key")
    by (vm_compute; reflexivity).
  split; reflexivity.
Defined.

Lemma translateEntries_length ai textModel inputLang outputLang entries w w' translations :
  translateEntries ai textModel inputLang outputLang entries w = (w', Returns translations) ->
  length translations = length entries.
Proof.
  intros H. apply translateEntries_Returns_inv in H as [[-> ->] | [rawItems ->]].
  - reflexivity.
  - apply length_specified.
Qed.

(** [X13] The rows of [extractAndTranslateText] are the extracted
    entries and their translations, position by position: there are as
    many rows as entries, row [i] carries the text and the language of
    entry [i] and the [i]-th translation. The translation stage returns
    one translation for each entry, so the fallback to the source text
    for a missing translation is never taken. *)
Theorem extractAndTranslateText_rows_aligned request w bytes mime key entries translations :
  let inlineImage := {| data := Buffer.toBase64 bytes; mimeType := mime |} in
  let ai := {| Genai.apiKey := key |} in
  let imageModel := default DEFAULTS.imageModel (imageModel request) in
  let extraction := extractionRequest imageModel inlineImage in
  files w !! inputPath request = Some bytes ->
  inferMimeType (inputPath request) = Returns mime ->
  snd (resolveApiKey (apiKey request) w) = Returns key ->
  snd (extractTextEntries ai imageModel inlineImage w) = Returns entries ->
  snd (translateEntries ai (default DEFAULTS.textModel (textModel request))
         (default DEFAULTS.inputLang (inputLang request))
         (default DEFAULTS.outputLang (outputLang request)) entries (sent extraction w)) =
    Returns translations ->
  exists rows,
    snd (extractAndTranslateText request w) = Returns rows /\
    length rows = length entries /\
    List.map sourceText rows = List.map text entries /\
    List.map sourceLanguage rows = List.map language entries /\
    List.map translatedText rows = translations.
Proof.
  intros inlineImage ai imageModel extraction Hfile Hmime Hkey Hextract Htranslate.
  rewrite (extractAndTranslateText_after_preamble request w bytes mime key Hfile Hmime Hkey).
  cbv zeta. fold inlineImage ai imageModel.
  rewrite (bind_Returns _ _ w (sent extraction w) entries)
    by (apply run_eta; [apply extractTextEntries_world | exact Hextract]).
  destruct (translateEntries ai _ _ _ entries (sent extraction w)) as [w2 o] eqn:E.
  cbn [snd] in Htranslate. subst o.
  pose proof (translateEntries_length _ _ _ _ _ _ _ _ E) as Hlen.
  rewrite (bind_Returns _ _ _ _ _ E). unfold ret. cbn [snd].
  eexists. split; [reflexivity |].
  split; [now rewrite length_imap |].
  split; [| split]; apply list_eq; intros i;
    rewrite !list_lookup_fmap, list_lookup_imap;
    try rewrite list_lookup_fmap;
    destruct (entries !! i) as [entry |] eqn:Ei; cbn; try reflexivity.
  - destruct (translations !! i) as [t |] eqn:Et; [reflexivity |].
    apply lookup_lt_Some in Ei. apply lookup_ge_None in Et. lia.
  - symmetry. apply lookup_ge_None. apply lookup_ge_None in Ei. lia.
Qed.

Lemma rows_aligned_example :
  exists rows,
    snd (extractAndTranslateText (request_for "/tmp/input.png")
           (world {[ "/tmp/input.png"%string := PNG ]} (Some "test-key"%string)
              [textResponse (quoted "[{'text':' hola ','language':'es'}, {'text':'adios'}]");
               textResponse (quoted "[{'index':1,'translation':'goodbye'}]")])) =
      Returns rows /\
    length rows = 2%nat /\
    List.map sourceText rows = [lit "hola"; lit "adios"] /\
    List.map sourceLanguage rows = [Some (lit "es"); None] /\
    List.map translatedText rows = [lit "hola"; lit "goodbye"].
Proof.
  apply (extractAndTranslateText_rows_aligned (request_for "/tmp/input.png")
           (world {[ "/tmp/input.png"%string := PNG ]} (Some "test-key"%string)
              [textResponse (quoted "[{'text':' hola ','language':'es'}, {'text':'adios'}]");
               textResponse (quoted "[{'index':1,'translation':'goodbye'}]")])
           PNG "image/png" "test-key"
           [{| text := lit "hola"; language := Some (lit "es") |};
            {| text := lit "adios"; language := None |}]
           [lit "hola"; lit "goodbye"]);
    vm_compute; reflexivity.
Defined.

(** ** Request-side strings, further *)

Lemma append_cons c (s t : string) : String c s +:+ t = String c (s +:+ t).
Proof. reflexivity. Qed.

Lemma length_append (s t : string) :
  String.length (s +:+ t) = (String.length s + String.length t)%nat.
Proof. induction s as [| c s IH]; simpl; [reflexivity | now rewrite IH]. Qed.

Lemma get_Some_lt s : forall k c, String.get k s = Some c -> (k < String.length s)%nat.
Proof.
  induction s as [| d s IH]; intros [| k] c; simpl; try discriminate; try lia.
  intros H. apply IH in H. lia.
Qed.

Lemma get_lt_Some s : forall k, (k < String.length s)%nat -> exists c, String.get k s = Some c.
Proof.
  induction s as [| d s IH]; intros [| k]; simpl; try lia; eauto.
  intros H. apply IH. lia.
Qed.

Lemma get_append_l s t k :
  (k < String.length s)%nat -> String.get k (s +:+ t) = String.get k s.
Proof. intros H. symmetry. now apply append_correct1. Qed.

Lemma get_append_r s t k :
  (String.length s <= k)%nat ->
  String.get k (s +:+ t) = String.get (k - String.length s) t.
Proof.
  intros H. rewrite (append_correct2 s t (k - String.length s)).
  f_equal. lia.
Qed.

Lemma append_assoc (s t u : string) : (s +:+ t) +:+ u = s +:+ (t +:+ u).
Proof. induction s as [| c s IH]; [reflexivity | now rewrite !append_cons, IH]. Qed.

Lemma append_empty_r (s : string) : s +:+ "" = s.
Proof. induction s as [| c s IH]; [reflexivity | now rewrite append_cons, IH]. Qed.

Lemma substring_append s : forall a t,
  (a <= String.length s)%nat ->
  String.substring a (String.length s + String.length t - a) (s +:+ t) =
  String.substring a (String.length s - a) s +:+ t.
Proof.
  induction s as [| c s IH]; intros a t Ha.
  - cbn [String.length] in *. assert (a = 0)%nat as -> by lia.
    change ("" +:+ t) with t. cbn. rewrite Nat.sub_0_r.
    clear Ha. induction t as [| d t IHt]; cbn; [reflexivity | now rewrite IHt].
  - rewrite append_cons. cbn [String.length] in *. destruct a as [| a].
    + cbn. rewrite append_cons. f_equal. specialize (IH 0%nat t).
      rewrite !Nat.sub_0_r in IH. apply IH. lia.
    + cbn. apply IH. lia.
Qed.

Lemma substring_0 s : forall n, String.substring n 0 s = EmptyString.
Proof. induction s as [| c s IH]; intros [| n]; cbn; auto. Qed.

Lemma substring_all s : String.substring 0 (String.length s) s = s.
Proof. induction s as [| c s IH]; cbn; [reflexivity | now rewrite IH]. Qed.

Lemma substring_tail X T :
  String.substring (String.length X) (String.length T) (X +:+ T) = T.
Proof.
  induction X as [| c X IH].
  - apply substring_all.
  - rewrite append_cons. cbn. exact IH.
Qed.

Lemma substring_head s t : String.substring 0 (String.length s) (s +:+ t) = s.
Proof.
  induction s as [| c s IH]; [cbn; apply substring_0 |].
  rewrite append_cons. cbn. now rewrite IH.
Qed.

Lemma charIs_true path i c :
  Str.charIs path i c = true <-> 0 <= i /\ String.get (Z.to_nat i) path = Some c.
Proof.
  unfold Str.charIs. destruct (Z.ltb_spec i 0).
  - split; [discriminate | lia].
  - destruct (String.get (Z.to_nat i) path) as [d |].
    + destruct (ascii_dec d c) as [-> | Hne]; split; auto; try discriminate.
      intros [_ [= ->]]. contradiction.
    + split; [discriminate | intros [_ [=]]].
Qed.

Lemma charIs_get path i c d :
  0 <= i -> String.get (Z.to_nat i) path = Some d ->
  Str.charIs path i c = (if ascii_dec d c then true else false).
Proof.
  intros Hi Hd. unfold Str.charIs. destruct (Z.ltb_spec i 0); [lia |]. now rewrite Hd.
Qed.

(** ** Counted loops: invariants *)

Lemma for_down_ind {St : Type} (body : Z -> St -> St * bool)
    (Inv : Z -> St -> Prop) (Post : St -> Prop) :
  (forall i st, 0 <= i -> Inv i st ->
     match body i st with
     | (st', true) => Post st'
     | (st', false) => Inv (i - 1) st'
     end) ->
  (forall st, Inv (-1) st -> Post st) ->
  forall n st, Inv (Z.of_nat n - 1) st -> Post (for_down n (Z.of_nat n - 1) body st).
Proof.
  intros Hstep Hend. induction n as [| n IH]; intros st Hinv.
  - apply Hend. exact Hinv.
  - simpl for_down. specialize (Hstep (Z.of_nat (S n) - 1) st ltac:(lia) Hinv).
    destruct (body (Z.of_nat (S n) - 1) st) as [st' [|]]; [exact Hstep |].
    replace (Z.of_nat (S n) - 1 - 1) with (Z.of_nat n - 1) in * by lia.
    now apply IH.
Qed.

Lemma for_up_ind {St : Type} (body : Z -> St -> St * bool)
    (Inv : Z -> St -> Prop) (Post : St -> Prop) (lo hi : Z) :
  (forall i st, lo <= i < hi -> Inv i st ->
     match body i st with
     | (st', true) => Post st'
     | (st', false) => Inv (i + 1) st'
     end) ->
  (forall st, Inv hi st -> Post st) ->
  forall n i st, i + Z.of_nat n = hi -> lo <= i -> Inv i st -> Post (for_up n i body st).
Proof.
  intros Hstep Hend. induction n as [| n IH]; intros i st Hn Hlo Hinv.
  - apply Hend. now replace hi with i by lia.
  - simpl for_up. specialize (Hstep i st ltac:(lia) Hinv).
    destruct (body i st) as [st' [|]]; [exact Hstep |].
    apply IH; [lia | lia | exact Hstep].
Qed.

(** ** node:path, further *)

(** The extension [path.extname] returns, when it returns one, is a
    span of the path that starts at a dot, holds no other dot and no
    slash, and is followed by slashes only. *)
Lemma extname_span path :
  Path.extname path = EmptyString \/
  exists D E,
    0 <= D < E /\ E <= Str.length path /\
    Path.extname path = Str.slice path D E /\
    Str.charIs path D "." = true /\
    (forall j, D < j < E -> Str.charIs path j "." = false /\ Str.charIs path j "/" = false) /\
    (forall j, E <= j < Str.length path -> Str.charIs path j "/" = true).
Proof.
  unfold Path.extname.
  set (len := Str.length path).
  pose (Inv := fun (i : Z) (st : Path.ext_state) =>
    i < len /\
    (Path.end_ st = -1 ->
       Path.startDot st = -1 /\ Path.matchedSlash st = true /\
       forall j, i < j < len -> Str.charIs path j "/" = true) /\
    (Path.end_ st <> -1 ->
       Path.matchedSlash st = false /\ i + 1 < Path.end_ st <= len /\
       (forall j, i < j < Path.end_ st -> Str.charIs path j "/" = false) /\
       (forall j, Path.end_ st <= j < len -> Str.charIs path j "/" = true) /\
       (forall j, i < j < Path.end_ st -> Path.startDot st < j ->
          Str.charIs path j "." = false)) /\
    (Path.startDot st <> -1 ->
       i < Path.startDot st < Path.end_ st /\
       Str.charIs path (Path.startDot st) "." = true)).
  pose (Post := fun (st : Path.ext_state) =>
    Path.startDot st = -1 \/ Path.end_ st = -1 \/
    (0 <= Path.startDot st < Path.end_ st /\ Path.end_ st <= len /\
     Str.charIs path (Path.startDot st) "." = true /\
     (forall j, Path.startDot st < j < Path.end_ st ->
        Str.charIs path j "." = false /\ Str.charIs path j "/" = false) /\
     (forall j, Path.end_ st <= j < len -> Str.charIs path j "/" = true))).
  assert (Hfinish : forall i st, -1 <= i -> Inv i st -> Post st).
  { intros i [sd sp en ms pd] Hi (Hlen & H1 & H2 & H3). unfold Post.
    cbn [Path.startDot Path.startPart Path.end_ Path.matchedSlash Path.preDotState] in *.
    destruct (Z.eq_dec sd (-1)) as [-> | Hsd]; [now left |].
    destruct (Z.eq_dec en (-1)) as [-> | Hen]; [now right; left |].
    right; right. destruct (H2 Hen) as (_ & Hr & Hns & Hsl & Hnd).
    destruct (H3 Hsd) as (Hd & Hdot).
    split; [lia |]. split; [lia |]. split; [assumption |]. split; [| assumption].
    intros j Hj. split; [apply Hnd; lia | apply Hns; lia]. }
  assert (Hpost : Post (for_down (String.length path) (len - 1) (Path.extname_body path)
                          (Path.ExtState (-1) 0 (-1) true 0))).
  { unfold len, Str.length.
    apply (for_down_ind (Path.extname_body path) Inv Post).
    - intros i [sd sp en ms pd] Hi HInv. pose proof HInv as (Hlen & H1 & H2 & H3).
      unfold Path.extname_body.
      cbn [Path.startDot Path.startPart Path.end_ Path.matchedSlash Path.preDotState] in *.
      destruct (Str.charIs path i "/") eqn:Eslash.
      + destruct ms; cbn [negb].
        * (* a trailing slash *)
          destruct (Z.eq_dec en (-1)) as [-> | Hen].
          -- destruct (H1 eq_refl) as (-> & _ & Hs).
             unfold Inv.
             cbn [Path.startDot Path.startPart Path.end_ Path.matchedSlash Path.preDotState].
             split; [lia |]. split; [| split]; try lia.
             intros _. split; [reflexivity |]. split; [reflexivity |].
             intros j Hj. destruct (Z.eq_dec j i) as [-> |]; [assumption | apply Hs; lia].
          -- destruct (H2 Hen) as (? & _). discriminate.
        * (* the slash before the component *)
          apply (Hfinish i); [lia |]. exact HInv.
      + set (en' := if en =? -1 then i + 1 else en).
        assert (Hen' : en' <> -1 /\ i < en' <= len /\
                  (forall j, i - 1 < j < en' -> Str.charIs path j "/" = false) /\
                  (forall j, en' <= j < len -> Str.charIs path j "/" = true) /\
                  (forall j, i < j < en' -> sd < j -> Str.charIs path j "." = false) /\
                  (sd <> -1 -> i < sd < en' /\ Str.charIs path sd "." = true)).
        { subst en'. destruct (Z.eqb_spec en (-1)) as [-> | Hen].
          - destruct (H1 eq_refl) as (-> & _ & Hs).
            split; [lia |]. split; [lia |]. split; [| split; [| split]].
            + intros j Hj. now replace j with i by lia.
            + intros j Hj. apply Hs. lia.
            + intros j Hj. lia.
            + intros ?. lia.
          - destruct (H2 Hen) as (_ & Hr & Hns & Hsl & Hnd).
            split; [assumption |]. split; [lia |]. split; [| split; [| split]].
            + intros j Hj. destruct (Z.eq_dec j i) as [-> |]; [assumption | apply Hns; lia].
            + assumption.
            + assumption.
            + apply H3. }
        destruct Hen' as (Hne & Hr & Hns & Hsl & Hnd & Hd).
        assert (Hstate :
          (if en =? -1 then Path.ExtState sd sp (i + 1) false pd
           else Path.ExtState sd sp en ms pd) = Path.ExtState sd sp en' false pd).
        { subst en'. destruct (Z.eqb_spec en (-1)) as [-> | Hen]; [reflexivity |].
          destruct (H2 Hen) as (-> & _). reflexivity. }
        rewrite Hstate. clear Hstate H1 H2 H3 HInv.
        cbn [Path.startDot Path.startPart Path.end_ Path.matchedSlash Path.preDotState].
        assert (Hinv : forall sd' pd',
                  (sd' = sd /\ (sd = -1 -> Str.charIs path i "." = false) \/
                   sd = -1 /\ sd' = i /\ Str.charIs path i "." = true) ->
                  Inv (i - 1) (Path.ExtState sd' sp en' false pd')).
        { intros sd' pd' Hsd'. unfold Inv.
          cbn [Path.startDot Path.startPart Path.end_ Path.matchedSlash Path.preDotState].
          split; [lia |]. split; [intros ?; contradiction |].
          split.
          - intros _. split; [reflexivity |]. split; [lia |].
            split; [assumption |]. split; [assumption |].
            intros j Hj Hlt. destruct Hsd' as [(-> & Hdot) | (-> & -> & Hdot)].
            + destruct (Z.eq_dec j i) as [-> |]; [| apply Hnd; lia].
              destruct (Z.eq_dec sd (-1)) as [-> | Hsd]; [now apply Hdot |].
              destruct (Hd Hsd). lia.
            + apply Hnd; lia.
          - intros Hne'. destruct Hsd' as [(-> & _) | (-> & -> & Hdot)].
            + destruct (Hd Hne') as (? & ?). split; [lia | assumption].
            + split; [lia | assumption]. }
        destruct (Str.charIs path i ".") eqn:Edot.
        * destruct (Z.eqb_spec sd (-1)) as [-> | Hsd].
          -- apply Hinv. right. auto.
          -- destruct (negb (pd =? 1)); apply Hinv; left; split; auto; contradiction.
        * destruct (Z.eqb_spec sd (-1)) as [-> | Hsd]; cbn [negb];
            apply Hinv; left; split; auto; contradiction.
    - intros st. apply (Hfinish (-1)). lia.
    - unfold Inv, len, Str.length.
      cbn [Path.startDot Path.startPart Path.end_ Path.matchedSlash Path.preDotState].
      split; [lia |]. split; [| split]; try (intros ?; congruence).
      intros _. split; [reflexivity |]. split; [reflexivity |].
      intros j Hj. lia. }
  destruct Hpost as [H | [H | H]].
  - left. now rewrite H.
  - left. rewrite H. cbn. now rewrite orb_true_r.
  - match goal with
    | |- (if ?b then _ else _) = _ \/ _ => destruct b; [now left | right]
    end.
    destruct H as (H1 & H2 & H3 & H4 & H5).
    eexists _, _. repeat split; try eassumption; try lia; apply H4; assumption.
Qed.

Lemma substring_S s : forall n m c,
  String.get n s = Some c ->
  String.substring n (S m) s = String c (String.substring (S n) m s).
Proof.
  induction s as [| d s IH]; intros [| n] m c; cbn; try discriminate.
  - now intros [= ->].
  - intros H. now rewrite (IH n m c H).
Qed.

Lemma without_cons c d s : without c (String d s) <-> d <> c /\ without c s.
Proof.
  unfold without. split.
  - intros H. split.
    + intros ->. now apply (H 0%nat).
    + intros k. apply (H (S k)).
  - intros [Hd Hs] [| k]; cbn; [congruence | apply Hs].
Qed.

Lemma without_append c s t : without c (s +:+ t) <-> without c s /\ without c t.
Proof.
  induction s as [| d s IH].
  - change ("" +:+ t) with t. split; [| tauto]. intros H. split; [| exact H].
    intros k. now destruct k.
  - rewrite append_cons, !without_cons, IH. tauto.
Qed.

(** The extension is empty, or a dot followed by characters that are
    neither dots nor slashes. *)
Lemma extname_cases path :
  Path.extname path = EmptyString \/
  exists e, Path.extname path = String "." e /\ without "." e /\ without "/" e.
Proof.
  destruct (extname_span path) as [H | (D & E & HD & HE & Hext & Hdot & Hin & _)];
    [now left | right].
  exists (String.substring (S (Z.to_nat D)) (Z.to_nat (E - D) - 1) path).
  apply charIs_true in Hdot as [_ Hdot].
  split; [| split].
  - rewrite Hext. unfold Str.slice.
    replace (Z.to_nat (E - D)) with (S (Z.to_nat (E - D) - 1)) at 1 by lia.
    now apply substring_S.
  - intros k Hk.
    destruct (Nat.lt_ge_cases k (Z.to_nat (E - D) - 1)) as [Hlt | Hge].
    + rewrite substring_correct1 in Hk by exact Hlt.
      destruct (Hin (Z.of_nat (k + S (Z.to_nat D)))) as [Hnd _]; [lia |].
      assert (Str.charIs path (Z.of_nat (k + S (Z.to_nat D))) "." = true); [| congruence].
      apply charIs_true. split; [lia |]. now rewrite Nat2Z.id.
    + now rewrite substring_correct2 in Hk by exact Hge.
  - intros k Hk.
    destruct (Nat.lt_ge_cases k (Z.to_nat (E - D) - 1)) as [Hlt | Hge].
    + rewrite substring_correct1 in Hk by exact Hlt.
      destruct (Hin (Z.of_nat (k + S (Z.to_nat D)))) as [_ Hns]; [lia |].
      assert (Str.charIs path (Z.of_nat (k + S (Z.to_nat D))) "/" = true); [| congruence].
      apply charIs_true. split; [lia |]. now rewrite Nat2Z.id.
    + now rewrite substring_correct2 in Hk by exact Hge.
Qed.

(** [normalizeString] leaves the last segment of a path as it is, when
    that segment holds a character other than a dot. *)
Lemma normalizeString_last_segment X T allowAboveRoot :
  without "/" T -> (exists k c, String.get k T = Some c /\ c <> "."%char) ->
  exists Y, Path.normalizeString (X +:+ T) allowAboveRoot = Y +:+ T /\
            (closed X -> closed Y).
Proof.
  intros Hns (k & c & Hk & Hc).
  set (path := X +:+ T). set (len := Str.length path).
  set (x := Z.of_nat (String.length X)).
  assert (Hlen : len = x + Z.of_nat (String.length T)).
  { unfold len, Str.length, path, x. rewrite length_append. lia. }
  pose proof (get_Some_lt _ _ _ Hk) as Hklt.
  assert (HT : forall j, x <= j -> Str.charIs path j "/" = false).
  { intros j Hj. destruct (Str.charIs path j "/") eqn:E; [| reflexivity].
    apply charIs_true in E as [_ E]. unfold path in E.
    rewrite get_append_r in E by (unfold x in Hj; lia). now apply Hns in E. }
  assert (Hnd : Str.charIs path (x + Z.of_nat k) "." = false).
  { destruct (Str.charIs path (x + Z.of_nat k) ".") eqn:E; [| reflexivity].
    apply charIs_true in E as [_ E]. unfold path in E.
    rewrite get_append_r in E by (unfold x; lia).
    replace (Z.to_nat (x + Z.of_nat k) - String.length X)%nat with k in E by (unfold x; lia).
    congruence. }
  assert (HX : closed X -> x = 0 \/ Str.charIs path (x - 1) "/" = true).
  { intros [-> | [X' ->]]; [now left | right].
    apply charIs_true. unfold x. rewrite length_append. cbn [String.length].
    split; [lia |]. unfold path. rewrite get_append_l by (rewrite length_append; cbn; lia).
    rewrite get_append_r by lia.
    now replace (Z.to_nat (Z.of_nat (String.length X' + 1) - 1) - String.length X')%nat
      with 0%nat by lia. }
  unfold Path.normalizeString. fold path.
  pose (Inv := fun (i : Z) (st : Path.norm_state) =>
    (i <= len ->
       -1 <= Path.lastSlash st < i /\ Path.lastSlash st < x /\
       (forall j, Path.lastSlash st < j < i -> Str.charIs path j "." = false ->
          Path.dots st = -1) /\
       (forall j, Path.lastSlash st < j < i -> Str.charIs path j "/" = false) /\
       (0 < i -> String.get (Z.to_nat (i - 1)) path = Some (Path.code st))) /\
    (i = len + 1 -> exists Y, Path.res st = Y +:+ T /\ (closed X -> closed Y))).
  apply (for_up_ind (Path.normalizeString_body path allowAboveRoot) Inv
           (fun st => exists Y, Path.res st = Y +:+ T /\ (closed X -> closed Y)) 0 (len + 1)).
  - intros i [r lsl ls ds cd] Hi [Hinv _].
    destruct (Hinv ltac:(lia)) as (Hls & Hlsx & Hdots & Hnosl & Hcode). clear Hinv.
    cbn [Path.res Path.lastSegmentLength Path.lastSlash Path.dots Path.code] in *.
    unfold Path.normalizeString_body.
    cbn [Path.res Path.lastSegmentLength Path.lastSlash Path.dots Path.code].
    fold len. destruct (Z.ltb_spec i len) as [Hlt | Hge].
    + (* a character of the path *)
      destruct (get_lt_Some path (Z.to_nat i)) as [d Hd];
        [unfold len, Str.length in Hlt; lia |].
      rewrite Hd. cbn [default from_option id].
      assert (Hnext : forall st', Path.code st' = d ->
                -1 <= Path.lastSlash st' < i + 1 -> Path.lastSlash st' < x ->
                (forall j, Path.lastSlash st' < j < i + 1 ->
                   Str.charIs path j "." = false -> Path.dots st' = -1) ->
                (forall j, Path.lastSlash st' < j < i + 1 ->
                   Str.charIs path j "/" = false) ->
                Inv (i + 1) st').
      { intros st' Hc' Hl' Hx' Hd' Hs'. split; [| lia]. intros _.
        split; [assumption |]. split; [assumption |]. split; [assumption |].
        split; [assumption |].
        intros _. replace (i + 1 - 1) with i by lia. now rewrite Hc'. }
      destruct (Path.isSep d) eqn:Esep.
      * assert (d = "/"%char) as ->
          by (unfold Path.isSep in Esep; now destruct (ascii_dec d "/")).
        cbv iota.
        assert (Hix : i < x).
        { destruct (Z.lt_ge_cases i x) as [| Hge]; [assumption |].
          apply HT in Hge. rewrite (charIs_get path i _ _ ltac:(lia) Hd) in Hge.
          discriminate Hge. }
        repeat match goal with
               | |- context [if ?b then _ else _] => destruct b
               end;
          apply Hnext; cbn [Path.res Path.lastSegmentLength Path.lastSlash Path.dots Path.code];
          try reflexivity; try lia; intros j Hj; lia.
      * cbv iota.
        assert (Hstep : forall ds',
                  ds' = (if (if ascii_dec d "." then true else false) && negb (ds =? -1)
                         then ds + 1 else -1) ->
                  Inv (i + 1) (Path.NormState r lsl ls ds' d)).
        { intros ds' Hds'. apply Hnext;
            cbn [Path.res Path.lastSegmentLength Path.lastSlash Path.dots Path.code];
            try reflexivity; try lia.
          - intros j Hj Hjd. destruct (Z.eq_dec j i) as [-> | Hne].
            + rewrite (charIs_get path i _ _ ltac:(lia) Hd) in Hjd.
              destruct (ascii_dec d "."); [discriminate |]. exact Hds'.
            + rewrite (Hdots j ltac:(lia) Hjd) in Hds'.
              now rewrite andb_false_r in Hds'.
          - intros j Hj. destruct (Z.eq_dec j i) as [-> | Hne]; [| apply Hnosl; lia].
            rewrite (charIs_get path i _ _ ltac:(lia) Hd). exact Esep. }
        destruct ((if ascii_dec d "." then true else false) && negb (ds =? -1)) eqn:E;
          apply Hstep; reflexivity.
    + (* past the end: the segment is closed *)
      assert (i = len) as -> by lia.
      assert (Hk' : (0 < String.length T)%nat) by lia.
      specialize (Hcode ltac:(lia)).
      assert (Hcd : Path.isSep cd = false).
      { pose proof (HT (len - 1) ltac:(lia)) as H.
        rewrite (charIs_get path (len - 1) _ _ ltac:(lia) Hcode) in H. exact H. }
      rewrite Hcd. change (Path.isSep "/") with true. cbv iota.
      assert (Hds : ds = -1) by (apply (Hdots (x + Z.of_nat k)); [lia | exact Hnd]).
      subst ds.
      destruct (Z.eqb_spec ls (len - 1)) as [? | _]; [lia |].
      cbn [orb Z.eqb].
      split; [lia |]. intros _.
      cbn [Path.res Path.lastSegmentLength Path.lastSlash Path.dots Path.code].
      assert (Hseg : Str.slice path (ls + 1) len =
                       String.substring (Z.to_nat (ls + 1))
                         (String.length X - Z.to_nat (ls + 1)) X +:+ T).
      { unfold Str.slice, path. rewrite <- substring_append by (unfold x in Hlsx; lia).
        f_equal. unfold x in *. lia. }
      rewrite Hseg.
      assert (Hclosed : closed X ->
                String.substring (Z.to_nat (ls + 1))
                  (String.length X - Z.to_nat (ls + 1)) X = EmptyString).
      { intros HcX. replace (String.length X - Z.to_nat (ls + 1))%nat with 0%nat;
          [apply substring_0 |].
        destruct (HX HcX) as [Hx0 | Hsl]; [unfold x in *; lia |].
        destruct (Z.lt_ge_cases ls (x - 1)) as [Hlt' | Hge']; [| unfold x in *; lia].
        rewrite Hnosl in Hsl by lia. discriminate Hsl. }
      destruct (0 <? Str.length r).
      * eexists. split; [rewrite <- !append_assoc; reflexivity |].
        intros HcX. rewrite (Hclosed HcX), append_empty_r. right. now exists r.
      * eexists. split; [reflexivity |]. intros HcX. left. now apply Hclosed.
  - intros st [_ H]. now apply H.
  - unfold len, Str.length. lia.
  - lia.
  - split; [| unfold len, Str.length; lia]. intros _.
    cbn [Path.res Path.lastSegmentLength Path.lastSlash Path.dots Path.code].
    split; [lia |]. split; [unfold x; lia |].
    split; [intros j Hj; lia |]. split; [intros j Hj; lia | lia].
Qed.

Lemma get_without_charIs path T X j c :
  path = X +:+ T -> without c T -> Z.of_nat (String.length X) <= j ->
  Str.charIs path j c = false.
Proof.
  intros -> Hw Hj. destruct (Str.charIs (X +:+ T) j c) eqn:E; [| reflexivity].
  apply charIs_true in E as [_ E]. rewrite get_append_r in E by lia. now apply Hw in E.
Qed.

Lemma normalize_last_segment X T :
  without "/" T -> (exists k c, String.get k T = Some c /\ c <> "."%char) ->
  exists Y, Path.normalize (X +:+ T) = Y +:+ T /\ (closed X -> closed Y).
Proof.
  intros Hns Hnd. unfold Path.normalize.
  destruct Hnd as (k & c & Hk & Hc). pose proof (get_Some_lt _ _ _ Hk) as Hklt.
  assert (Hlen : forall P0, (Str.length (P0 +:+ T) =? 0) = false).
  { intros P0. unfold Str.length. rewrite length_append. apply Z.eqb_neq. lia. }
  rewrite Hlen.
  destruct (normalizeString_last_segment X T (negb (Str.charIs (X +:+ T) 0 "/")) Hns)
    as (Y & HY & Hclosed); [now exists k, c |].
  rewrite HY, Hlen.
  rewrite (get_without_charIs (X +:+ T) T X (Str.length (X +:+ T) - 1) "/" eq_refl Hns)
    by (unfold Str.length; rewrite length_append; lia).
  destruct (Str.charIs (X +:+ T) 0 "/").
  - exists ("/" +:+ Y). split; [now rewrite append_assoc |].
    intros HcX. destruct (Hclosed HcX) as [-> | [Y' ->]]; right.
    + now exists EmptyString.
    + exists ("/" +:+ Y'). now rewrite append_assoc.
  - now exists Y.
Qed.

Lemma without_translated : without "/" "_translated".
Proof. intros k. do 12 (destruct k as [| k]; [discriminate |]). discriminate. Qed.

Lemma extname_without_slash path : without "/" (Path.extname path).
Proof.
  destruct (extname_cases path) as [-> | (e & -> & _ & He)].
  - intros k. now destruct k.
  - apply without_cons. split; [discriminate | exact He].
Qed.

(** The mark and the extension close the default output path. *)
Lemma defaultOutputPath_ends inputPath :
  exists stem,
    defaultOutputPath inputPath = stem +:+ "_translated" +:+ Path.extname inputPath.
Proof.
  unfold defaultOutputPath, Path.join.
  set (extension := Path.extname inputPath).
  set (baseName := Path.basename inputPath extension).
  set (T := "_translated" +:+ extension).
  assert (HT : without "/" T).
  { apply without_append. split; [apply without_translated | apply extname_without_slash]. }
  assert (Hnd : exists k c, String.get k T = Some c /\ c <> "."%char).
  { exists 0%nat, "_"%char. split; [reflexivity | discriminate]. }
  cbn [fold_left].
  assert (Hfile : (0 <? Str.length (baseName +:+ T)) = true).
  { unfold Str.length. rewrite length_append. apply Z.ltb_lt.
    unfold T. rewrite length_append. cbn [String.length]. lia. }
  destruct (Path.join_args None (Path.dirname inputPath)) as [dir |];
    unfold Path.join_args; rewrite Hfile.
  - rewrite <- !append_assoc.
    destruct (normalize_last_segment ((dir +:+ "/") +:+ baseName) T HT Hnd) as (Y & HY & _).
    exists Y. exact HY.
  - destruct (normalize_last_segment baseName T HT Hnd) as (Y & HY & _).
    exists Y. exact HY.
Qed.

(** An extension put after a name of at least two characters, the last
    of which is not a dot, is the extension of the result. *)
Lemma extname_after X a b e :
  a <> "/"%char -> b <> "/"%char -> b <> "."%char ->
  without "." e -> without "/" e ->
  Path.extname (X +:+ String a (String b (String "." e))) = String "." e.
Proof.
  intros Ha Hb Hbd Hed Hes.
  set (path := X +:+ String a (String b (String "." e))).
  set (m := Z.of_nat (String.length X) + 2).
  set (len := Str.length path).
  assert (Hlen : len = m + 1 + Z.of_nat (String.length e)).
  { unfold len, Str.length, path, m. rewrite length_append. cbn [String.length]. lia. }
  assert (Hget : forall j, Z.of_nat (String.length X) <= j ->
            String.get (Z.to_nat j) path =
            String.get (Z.to_nat (j - Z.of_nat (String.length X)))
              (String a (String b (String "." e)))).
  { intros j Hj. unfold path. rewrite get_append_r by lia. f_equal. lia. }
  assert (Hafter : forall j, m < j ->
            Str.charIs path j "/" = false /\ Str.charIs path j "." = false).
  { intros j Hj.
    assert (String.get (Z.to_nat j) path = String.get (Z.to_nat (j - m - 1)) e) as E.
    { rewrite Hget by (unfold m in Hj; lia).
      replace (Z.to_nat (j - Z.of_nat (String.length X)))
        with (S (S (S (Z.to_nat (j - m - 1))))) by (unfold m in *; lia).
      reflexivity. }
    split.
    - destruct (Str.charIs path j "/") eqn:C; [| reflexivity].
      apply charIs_true in C as [_ C]. rewrite E in C. now apply Hes in C.
    - destruct (Str.charIs path j ".") eqn:C; [| reflexivity].
      apply charIs_true in C as [_ C]. rewrite E in C. now apply Hed in C. }
  assert (Hm : String.get (Z.to_nat m) path = Some "."%char).
  { rewrite Hget by (unfold m; lia).
    now replace (Z.to_nat (m - Z.of_nat (String.length X))) with 2%nat by (unfold m; lia). }
  assert (Hm1 : String.get (Z.to_nat (m - 1)) path = Some b).
  { rewrite Hget by (unfold m; lia).
    now replace (Z.to_nat (m - 1 - Z.of_nat (String.length X))) with 1%nat by (unfold m; lia). }
  assert (Hm2 : String.get (Z.to_nat (m - 2)) path = Some a).
  { rewrite Hget by (unfold m; lia).
    now replace (Z.to_nat (m - 2 - Z.of_nat (String.length X))) with 0%nat by (unfold m; lia). }
  assert (Hm0 : 2 <= m) by (unfold m; lia).
  pose (Inv := fun (i : Z) (st : Path.ext_state) =>
    i < len /\ Path.startPart st = 0 /\
    (m <= i ->
       Path.startDot st = -1 /\ Path.preDotState st = 0 /\
       (Path.end_ st = -1 /\ i = len - 1 \/
        Path.end_ st = len /\ Path.matchedSlash st = false)) /\
    (i < m ->
       Path.startDot st = m /\ Path.end_ st = len /\ Path.matchedSlash st = false /\
       (i < m - 1 -> Path.preDotState st <> 0))).
  pose (Post := fun (st : Path.ext_state) =>
    Path.startDot st = m /\ Path.end_ st = len /\ Path.preDotState st <> 0 /\
    Path.startPart st <> m - 1).
  assert (Hpost : Post (for_down (String.length path) (len - 1) (Path.extname_body path)
                          (Path.ExtState (-1) 0 (-1) true 0))).
  { unfold len, Str.length.
    apply (for_down_ind (Path.extname_body path) Inv Post).
    - intros i [sd sp en ms pd] Hi (Hil & Hsp & Hhi & Hlo). unfold Path.extname_body.
      cbn [Path.startDot Path.startPart Path.end_ Path.matchedSlash Path.preDotState] in *.
      subst sp.
      destruct (Z.lt_trichotomy i m) as [Hlt | [-> | Hgt]].
      + (* in the name *)
        destruct (Hlo Hlt) as (-> & -> & -> & Hpd). clear Hhi Hlo.
        destruct (Str.charIs path i "/") eqn:Eslash; cbn [negb].
        * unfold Post.
          cbn [Path.startDot Path.startPart Path.end_ Path.matchedSlash Path.preDotState].
          assert (i <> m - 1 /\ i <> m - 2) as [? ?].
          { split; intros ->.
            - rewrite (charIs_get path (m - 1) _ _ ltac:(lia) Hm1) in Eslash.
              now destruct (ascii_dec b "/").
            - rewrite (charIs_get path (m - 2) _ _ ltac:(lia) Hm2) in Eslash.
              now destruct (ascii_dec a "/"). }
          repeat split; lia.
        * destruct (Z.eqb_spec len (-1)); [lia |].
          cbn [Path.startDot Path.startPart Path.end_ Path.matchedSlash Path.preDotState].
          destruct (Z.eqb_spec m (-1)); [lia |]. cbn [negb].
          assert (Hgoal : forall pd', (i - 1 < m - 1 -> pd' <> 0) ->
                    Inv (i - 1) (Path.ExtState m 0 len false pd')).
          { intros pd' Hpd'. unfold Inv.
            cbn [Path.startDot Path.startPart Path.end_ Path.matchedSlash Path.preDotState].
            split; [lia |]. split; [reflexivity |]. split; [lia |]. intros _.
            repeat split. exact Hpd'. }
          destruct (Str.charIs path i ".") eqn:Edot.
          -- assert (i <> m - 1).
             { intros ->. rewrite (charIs_get path (m - 1) _ _ ltac:(lia) Hm1) in Edot.
               now destruct (ascii_dec b "."). }
             destruct (Z.eqb_spec pd 1); cbn [negb]; apply Hgoal; intros _;
               [apply Hpd | discriminate]; lia.
          -- apply Hgoal. intros _. discriminate.
      + (* the dot *)
        destruct (Hhi ltac:(lia)) as (-> & -> & Hen). clear Hhi Hlo.
        rewrite (charIs_get path m "/" _ ltac:(lia) Hm),
                (charIs_get path m "." _ ltac:(lia) Hm).
        cbn [ascii_dec Ascii.ascii_rec Ascii.ascii_rect]. 
        change (if ascii_dec "." "/" then true else false) with false.
        change (if ascii_dec "." "." then true else false) with true.
        cbv iota.
        assert (Hstate :
          (if en =? -1 then Path.ExtState (-1) 0 (m + 1) false 0
           else Path.ExtState (-1) 0 en ms 0) = Path.ExtState (-1) 0 len false 0).
        { destruct Hen as [[-> Hi'] | [-> ->]].
          - cbn. f_equal. lia.
          - destruct (Z.eqb_spec len (-1)); [lia | reflexivity]. }
        rewrite Hstate.
        cbn [Path.startDot Path.startPart Path.end_ Path.matchedSlash Path.preDotState Z.eqb].
        unfold Inv.
        cbn [Path.startDot Path.startPart Path.end_ Path.matchedSlash Path.preDotState].
        split; [lia |]. split; [reflexivity |]. split; [lia |]. intros _.
        repeat split. lia.
      + (* in the extension *)
        destruct (Hhi ltac:(lia)) as (-> & -> & Hen). clear Hhi Hlo.
        destruct (Hafter i Hgt) as [-> ->].
        assert (Hstate :
          (if en =? -1 then Path.ExtState (-1) 0 (i + 1) false 0
           else Path.ExtState (-1) 0 en ms 0) = Path.ExtState (-1) 0 len false 0).
        { destruct Hen as [[-> Hi'] | [-> ->]].
          - cbn. f_equal. lia.
          - destruct (Z.eqb_spec len (-1)); [lia | reflexivity]. }
        rewrite Hstate.
        cbn [Path.startDot Path.startPart Path.end_ Path.matchedSlash Path.preDotState
             Z.eqb negb].
        unfold Inv.
        cbn [Path.startDot Path.startPart Path.end_ Path.matchedSlash Path.preDotState].
        split; [lia |]. split; [reflexivity |]. split; [| lia]. intros _.
        repeat split. now right.
    - intros [sd sp en ms pd] (Hil & Hsp & _ & Hlo).
      cbn [Path.startDot Path.startPart Path.end_ Path.matchedSlash Path.preDotState] in *.
      destruct (Hlo ltac:(lia)) as (-> & -> & _ & Hpd).
      unfold Post.
      cbn [Path.startDot Path.startPart Path.end_ Path.matchedSlash Path.preDotState].
      repeat split; lia.
    - unfold Inv.
      cbn [Path.startDot Path.startPart Path.end_ Path.matchedSlash Path.preDotState].
      fold (Str.length path). fold len.
      split; [lia |]. split; [reflexivity |]. split; [| lia]. intros _.
      repeat split. now left. }
  unfold Path.extname. fold len.
  destruct (for_down _ _ _ _) as [sd sp en ms pd].
  destruct Hpost as (Hsd & Hen & Hpd & Hsp).
  cbn [Path.startDot Path.startPart Path.end_ Path.matchedSlash Path.preDotState] in *.
  subst sd en.
  destruct (Z.eqb_spec m (-1)); [lia |].
  destruct (Z.eqb_spec len (-1)); [lia |].
  destruct (Z.eqb_spec pd 0); [contradiction |].
  destruct (Z.eqb_spec m (sp + 1)); [lia |].
  rewrite !andb_false_r. cbn [orb].
  unfold Str.slice, path.
  replace (X +:+ String a (String b (String "." e)))
    with ((X +:+ String a (String b "")) +:+ String "." e)
    by (now rewrite append_assoc).
  replace (Z.to_nat m) with (String.length (X +:+ String a (String b "")))
    by (rewrite length_append; cbn [String.length]; unfold m; lia).
  replace (Z.to_nat (len - m)) with (String.length (String "." e))
    by (cbn [String.length]; lia).
  apply substring_tail.
Qed.

(** *** The last segment of a path *)

Lemma without_empty c : without c EmptyString.
Proof. intros k. now destruct k. Qed.

Lemma split_last_segment s : exists P L, s = P +:+ L /\ closed P /\ without "/" L.
Proof.
  induction s as [| c s (P & L & -> & HZ & HL)].
  - exists EmptyString, EmptyString. split; [reflexivity |].
    split; [now left | apply without_empty].
  - destruct HZ as [-> | [P' ->]].
    + change ("" +:+ L) with L. destruct (ascii_dec c "/") as [-> | Hc].
      * exists "/"%string, L. split; [reflexivity |].
        split; [right; now exists EmptyString | exact HL].
      * exists EmptyString, (String c L). split; [reflexivity |].
        split; [now left |]. now apply without_cons.
    + exists (String c P' +:+ "/"), L. split; [reflexivity |].
      split; [right; now exists (String c P') | exact HL].
Qed.

Lemma append_inj_length P : forall P' L L',
  String.length P = String.length P' -> P +:+ L = P' +:+ L' -> L = L'.
Proof.
  induction P as [| c P IH]; intros [| c' P'] L L'; cbn [String.length]; try discriminate.
  - now intros _.
  - intros [= H]. rewrite !append_cons. intros [= _ E]. now apply (IH P').
Qed.

Lemma closed_length_le P L P' L' :
  closed P' -> without "/" L -> P +:+ L = P' +:+ L' ->
  (String.length P' <= String.length P)%nat.
Proof.
  intros [-> | [P0 ->]] HL E; [cbn; lia |].
  destruct (Nat.le_gt_cases (String.length (P0 +:+ "/")) (String.length P)) as [| Hgt];
    [assumption | exfalso].
  rewrite length_append in Hgt. cbn [String.length] in Hgt.
  assert (H : String.get (String.length P0) (P +:+ L) = Some "/"%char).
  { rewrite E, get_append_l by (rewrite length_append; cbn [String.length]; lia).
    rewrite get_append_r by lia. now rewrite Nat.sub_diag. }
  rewrite get_append_r in H by lia. now apply HL in H.
Qed.

Lemma last_segment_unique P L P' L' :
  closed P -> closed P' -> without "/" L -> without "/" L' ->
  P +:+ L = P' +:+ L' -> L = L'.
Proof.
  intros HZ HZ' HL HL' E. apply (append_inj_length P P'); [| exact E].
  apply Nat.le_antisymm.
  - now apply (closed_length_le P' L' P L).
  - now apply (closed_length_le P L P' L').
Qed.

Lemma substring_append_r P : forall n m L,
  (String.length P <= n)%nat ->
  String.substring n m (P +:+ L) = String.substring (n - String.length P) m L.
Proof.
  induction P as [| c P IH]; intros n m L Hn.
  - change ("" +:+ L) with L. cbn [String.length]. now rewrite Nat.sub_0_r.
  - rewrite append_cons. cbn [String.length] in *. destruct n as [| n]; [lia |].
    cbn. apply IH. lia.
Qed.

Lemma substring_split L : forall n,
  (n <= String.length L)%nat ->
  L = String.substring 0 n L +:+ String.substring n (String.length L - n) L.
Proof.
  induction L as [| c L IH]; intros n Hn; cbn [String.length] in *.
  - assert (n = 0)%nat as -> by lia. reflexivity.
  - destruct n as [| n].
    + cbn. now rewrite substring_all.
    + cbn. rewrite append_cons. f_equal. apply IH. lia.
Qed.

Lemma length_substring L : forall n m,
  (n + m <= String.length L)%nat -> String.length (String.substring n m L) = m.
Proof.
  induction L as [| c L IH]; intros n m H; cbn [String.length] in *.
  - assert (n = 0 /\ m = 0)%nat as [-> ->] by lia. reflexivity.
  - destruct n as [| n]; cbn.
    + destruct m as [| m]; [reflexivity |]. cbn. f_equal. apply IH. lia.
    + apply IH. lia.
Qed.

(** The characters of a path [P +:+ L] whose last segment is [L]. *)
Lemma segment_chars P L :
  closed P -> without "/" L ->
  (forall j, Z.of_nat (String.length P) <= j -> Str.charIs (P +:+ L) j "/" = false) /\
  (0 < Z.of_nat (String.length P) ->
   Str.charIs (P +:+ L) (Z.of_nat (String.length P) - 1) "/" = true).
Proof.
  intros HZ HL. split.
  - intros j Hj. now apply (get_without_charIs _ L P).
  - intros Hx. destruct HZ as [-> | [P' ->]]; [cbn in Hx; lia |].
    apply charIs_true. rewrite length_append. cbn [String.length].
    split; [lia |]. rewrite get_append_l by (rewrite length_append; cbn; lia).
    rewrite get_append_r by lia.
    now replace (Z.to_nat (Z.of_nat (String.length P' + 1) - 1) - String.length P')%nat
      with 0%nat by lia.
Qed.

(** The extension of a path that ends with the segment [L] is the end
    of [L]. *)
Lemma extname_of_segment P L :
  closed P -> without "/" L -> L <> EmptyString ->
  Path.extname (P +:+ L) = EmptyString \/
  exists L0, L = L0 +:+ Path.extname (P +:+ L) /\ Path.extname (P +:+ L) <> EmptyString.
Proof.
  intros HZ HL Hne.
  destruct (segment_chars P L HZ HL) as [Hseg Hsl].
  set (path := P +:+ L) in *. set (x := Z.of_nat (String.length P)) in *.
  assert (Hlen : Str.length path = x + Z.of_nat (String.length L)).
  { unfold Str.length, path, x. rewrite length_append. lia. }
  assert (HL0 : (0 < String.length L)%nat) by (destruct L; [congruence | cbn; lia]).
  destruct (extname_span path) as [H | (D & E & HD & HE & Hext & Hdot & Hin & Hafter)];
    [now left | right].
  assert (E = Str.length path) as ->.
  { destruct (Z.eq_dec E (Str.length path)) as [| Hneq]; [assumption | exfalso].
    pose proof (Hafter (Str.length path - 1) ltac:(lia)) as Habs.
    rewrite Hseg in Habs by lia. discriminate. }
  assert (HDx : x <= D).
  { destruct (Z.lt_ge_cases D x) as [Hlt | ]; [exfalso | assumption].
    specialize (Hsl ltac:(lia)).
    destruct (Z.eq_dec D (x - 1)) as [-> | Hneq].
    - apply charIs_true in Hdot as [_ Hdot]. apply charIs_true in Hsl as [_ Hsl].
      congruence.
    - destruct (Hin (x - 1) ltac:(lia)) as [_ Hns]. congruence. }
  assert (Hext' : Path.extname path =
            String.substring (Z.to_nat D - String.length P)
              (String.length L - (Z.to_nat D - String.length P)) L).
  { rewrite Hext. unfold Str.slice. rewrite Hlen. unfold path.
    rewrite substring_append_r by (unfold x in *; lia). f_equal. unfold x in *. lia. }
  exists (String.substring 0 (Z.to_nat D - String.length P) L). split.
  - rewrite Hext'. apply substring_split. unfold x in *. lia.
  - intros Hempty. rewrite Hext' in Hempty.
    apply (f_equal String.length) in Hempty.
    rewrite length_substring in Hempty by (unfold x in *; lia).
    cbn in Hempty. unfold x in *. lia.
Qed.

(** [path.basename] without a suffix returns the last segment. *)
Lemma basename_of_segment P L :
  closed P -> without "/" L -> L <> EmptyString ->
  Path.basename (P +:+ L) EmptyString = L.
Proof.
  intros HZ HL Hne.
  destruct (segment_chars P L HZ HL) as [Hseg Hsl].
  set (path := P +:+ L) in *. set (x := Z.of_nat (String.length P)) in *.
  set (len := Str.length path).
  assert (Hlen : len = x + Z.of_nat (String.length L)).
  { unfold len, Str.length, path, x. rewrite length_append. lia. }
  assert (HL0 : (0 < String.length L)%nat) by (destruct L; [congruence | cbn; lia]).
  unfold Path.basename. cbn [Str.length String.length Z.of_nat Z.ltb Z.compare andb].
  fold len.
  pose (Inv := fun (i : Z) (st : Path.base_state) =>
    x - 1 <= i < len /\ Path.b_start st = 0 /\
    (Path.b_end st = -1 /\ Path.b_matchedSlash st = true /\ i = len - 1 \/
     Path.b_end st = len /\ Path.b_matchedSlash st = false)).
  pose (Post := fun (st : Path.base_state) => Path.b_start st = x /\ Path.b_end st = len).
  assert (Hpost : Post (for_down (String.length path) (len - 1) (Path.basename_plain_body path)
                          (Path.BaseState 0 (-1) true (-1) (-1)))).
  { unfold len, Str.length.
    apply (for_down_ind (Path.basename_plain_body path) Inv Post).
    - intros i [bs be ms ei fn] Hi (Hr & Hbs & Hst). unfold Path.basename_plain_body.
      cbn [Path.b_start Path.b_end Path.b_matchedSlash Path.extIdx Path.firstNonSlashEnd] in *.
      subst bs. destruct (Z.eq_dec i (x - 1)) as [-> | Hix].
      + rewrite Hsl by lia. destruct Hst as [(_ & _ & ?) | (-> & ->)]; [lia |].
        cbn [negb]. unfold Post. cbn. split; [lia | reflexivity].
      + rewrite Hseg by lia. destruct Hst as [(-> & -> & ->) | (-> & ->)].
        * cbn [Z.eqb]. unfold Inv. cbn. split; [lia |]. split; [reflexivity |].
          right. split; [lia | reflexivity].
        * destruct (Z.eqb_spec len (-1)); [lia |].
          unfold Inv. cbn. split; [lia |]. split; [reflexivity |]. now right.
    - intros [bs be ms ei fn] (Hr & Hbs & Hst).
      cbn [Path.b_start Path.b_end Path.b_matchedSlash Path.extIdx Path.firstNonSlashEnd] in *.
      destruct Hst as [(_ & _ & ?) | (-> & ->)]; [lia |].
      unfold Post. cbn. split; [lia | reflexivity].
    - unfold Inv. cbn. fold (Str.length path). fold len.
      split; [lia |]. split; [reflexivity |]. left. repeat split. }
  destruct (for_down _ _ _ _) as [bs be ms ei fn].
  destruct Hpost as [Hbs Hbe].
  cbn [Path.b_start Path.b_end Path.b_matchedSlash Path.extIdx Path.firstNonSlashEnd] in *.
  subst bs be. destruct (Z.eqb_spec len (-1)); [lia |].
  unfold Str.slice, path.
  replace (Z.to_nat x) with (String.length P) by (unfold x; lia).
  replace (Z.to_nat (len - x)) with (String.length L) by lia.
  apply substring_tail.
Qed.

(** [path.basename] with a suffix that closes the last segment returns
    the segment without the suffix, or the whole segment when the
    suffix is all of it. *)
Lemma basename_of_segment_suffix P L0 e :
  closed P -> without "/" L0 -> without "/" e -> e <> EmptyString ->
  Path.basename (P +:+ L0 +:+ e) e = L0 \/
  Path.basename (P +:+ L0 +:+ e) e = L0 +:+ e.
Proof.
  intros HP HL0 He Hne.
  assert (HL : without "/" (L0 +:+ e)) by (now apply without_append).
  destruct (segment_chars P (L0 +:+ e) HP HL) as [Hseg Hsl].
  set (path := P +:+ L0 +:+ e) in *. set (x := Z.of_nat (String.length P)) in *.
  set (D := x + Z.of_nat (String.length L0)).
  set (len := Str.length path).
  assert (Hlen : len = D + Z.of_nat (String.length e)).
  { unfold len, Str.length, path, D, x. rewrite !length_append. lia. }
  assert (He0 : (0 < String.length e)%nat) by (destruct e; [congruence | cbn; lia]).
  assert (Hget : forall j, D <= j ->
            String.get (Z.to_nat j) path = String.get (Z.to_nat (j - D)) e).
  { intros j Hj. unfold path. rewrite <- append_assoc.
    rewrite get_append_r by (rewrite length_append; unfold D, x in Hj; lia).
    f_equal. rewrite length_append. unfold D, x. lia. }
  unfold Path.basename. fold len.
  assert (Hpre : (0 <? Str.length e) && (Str.length e <=? len) = true).
  { apply andb_true_iff. unfold Str.length.
    split; [apply Z.ltb_lt | apply Z.leb_le]; unfold D, x in *; lia. }
  rewrite Hpre.
  unfold Str.eqb. destruct (string_dec e path) as [Heq | _].
  { left. apply (f_equal String.length) in Heq. unfold path in Heq.
    rewrite !length_append in Heq. destruct L0; [reflexivity | cbn in Heq; lia]. }
  pose (Inv := fun (i : Z) (st : Path.base_state) =>
    x - 1 <= i < len /\ Path.b_start st = 0 /\
    (D <= i ->
       Path.extIdx st = i - D /\ Path.b_end st = -1 /\
       (Path.firstNonSlashEnd st = -1 /\ i = len - 1 \/
        Path.firstNonSlashEnd st = len /\ Path.b_matchedSlash st = false)) /\
    (i < D ->
       Path.extIdx st = -1 /\ Path.b_end st = D /\ Path.firstNonSlashEnd st = len /\
       Path.b_matchedSlash st = false)).
  pose (Post := fun (st : Path.base_state) =>
    Path.b_start st = x /\ Path.b_end st = D /\ Path.firstNonSlashEnd st = len).
  assert (Hpost : Post (for_down (String.length path) (len - 1)
                          (Path.basename_suffix_body path e)
                          (Path.BaseState 0 (-1) true (Str.length e - 1) (-1)))).
  { unfold len, Str.length at 1.
    apply (for_down_ind (Path.basename_suffix_body path e) Inv Post).
    - intros i [bs be ms ei fn] Hi (Hr & Hbs & Hhi & Hlo). unfold Path.basename_suffix_body.
      cbn [Path.b_start Path.b_end Path.b_matchedSlash Path.extIdx Path.firstNonSlashEnd] in *.
      subst bs. destruct (Z.eq_dec i (x - 1)) as [-> | Hix].
      + (* the slash before the segment *)
        rewrite Hsl by lia.
        destruct (Hlo ltac:(unfold D; lia)) as (-> & -> & -> & ->).
        cbn [negb]. unfold Post. cbn. repeat split. lia.
      + rewrite Hseg by lia. destruct (Z.lt_ge_cases i D) as [Hlt | Hge].
        * (* before the suffix *)
          destruct (Hlo Hlt) as (-> & -> & -> & ->).
          destruct (Z.eqb_spec len (-1)); [lia |].
          cbn [Path.b_start Path.b_end Path.b_matchedSlash Path.extIdx
               Path.firstNonSlashEnd Z.geb Z.compare].
          unfold Inv. cbn. split; [lia |]. split; [reflexivity |].
          split; [lia |]. intros _. repeat split.
        * (* in the suffix *)
          destruct (Hhi Hge) as (-> & -> & Hfn).
          assert (Hstate :
            (if fn =? -1 then Path.BaseState 0 (-1) false (i - D) (i + 1)
             else Path.BaseState 0 (-1) ms (i - D) fn) =
            Path.BaseState 0 (-1) false (i - D) len).
          { destruct Hfn as [[-> ->] | [-> ->]].
            - cbn. f_equal. lia.
            - destruct (Z.eqb_spec len (-1)); [lia | reflexivity]. }
          rewrite Hstate.
          cbn [Path.b_start Path.b_end Path.b_matchedSlash Path.extIdx Path.firstNonSlashEnd].
          destruct (Z.geb_spec (i - D) 0) as [_ | ?]; [| lia].
          rewrite (Hget i Hge).
          destruct (get_lt_Some e (Z.to_nat (i - D)) ltac:(lia)) as [c Hc].
          rewrite Hc. destruct (ascii_dec c c) as [_ | ?]; [| congruence].
          destruct (Z.eqb_spec (i - D - 1) (-1)) as [Hlast | Hmore].
          -- unfold Inv. cbn. split; [unfold D in *; lia |]. split; [reflexivity |].
             split; [lia |]. intros _. repeat split; lia.
          -- unfold Inv. cbn. split; [unfold D in *; lia |]. split; [reflexivity |].
             split; [| lia]. intros _. split; [lia |]. split; [reflexivity |]. now right.
    - intros [bs be ms ei fn] (Hr & Hbs & _ & Hlo).
      cbn [Path.b_start Path.b_end Path.b_matchedSlash Path.extIdx Path.firstNonSlashEnd] in *.
      destruct (Hlo ltac:(unfold D in *; lia)) as (_ & -> & -> & _).
      unfold Post. cbn. repeat split. lia.
    - unfold Inv. cbn. fold (Str.length path). fold len.
      split; [unfold D in *; lia |]. split; [reflexivity |]. split; [| lia].
      intros _. split; [unfold Str.length; lia |]. split; [reflexivity |]. now left. }
  destruct (for_down _ _ _ _) as [bs be ms ei fn].
  destruct Hpost as (Hbs & Hbe & Hfn).
  cbn [Path.b_start Path.b_end Path.b_matchedSlash Path.extIdx Path.firstNonSlashEnd] in *.
  subst bs be fn. unfold Str.slice.
  replace (Z.to_nat x) with (String.length P) by (unfold x; lia).
  destruct (Z.eqb_spec x D) as [HxD | HxD].
  - right. assert (L0 = EmptyString) as -> by (destruct L0; [reflexivity | cbn in *; lia]).
    unfold path. change ("" +:+ e) with e.
    replace (Z.to_nat (len - x)) with (String.length e) by lia.
    apply substring_tail.
  - left. destruct (Z.eqb_spec D (-1)); [unfold D, x in *; lia |].
    unfold path. rewrite substring_append_r by lia. rewrite Nat.sub_diag.
    replace (Z.to_nat (D - x)) with (String.length L0) by (unfold D; lia).
    apply substring_head.
Qed.

(** *** The default output path *)

(** When the base name holds no slash, it opens the last segment of the
    default output path. *)
Lemma defaultOutputPath_last_segment inputPath :
  without "/" (Path.basename inputPath (Path.extname inputPath)) ->
  exists Y,
    closed Y /\
    defaultOutputPath inputPath =
      Y +:+ Path.basename inputPath (Path.extname inputPath) +:+ "_translated" +:+
      Path.extname inputPath.
Proof.
  intros Hbase. unfold defaultOutputPath, Path.join.
  set (extension := Path.extname inputPath) in *.
  set (baseName := Path.basename inputPath extension) in *.
  set (T := baseName +:+ "_translated" +:+ extension).
  assert (HT : without "/" T).
  { apply without_append. split; [exact Hbase |]. apply without_append.
    split; [apply without_translated | apply extname_without_slash]. }
  assert (Hnd : exists k c, String.get k T = Some c /\ c <> "."%char).
  { exists (String.length baseName), "_"%char. split; [| discriminate].
    unfold T. rewrite get_append_r by lia. now rewrite Nat.sub_diag. }
  cbn [fold_left].
  assert (Hfile : (0 <? Str.length T) = true).
  { unfold Str.length, T. rewrite !length_append. apply Z.ltb_lt. cbn [String.length]. lia. }
  destruct (Path.join_args None (Path.dirname inputPath)) as [dir |];
    unfold Path.join_args; fold T; rewrite Hfile.
  - rewrite <- append_assoc.
    destruct (normalize_last_segment (dir +:+ "/") T HT Hnd) as (Y & HY & Hclosed).
    exists Y. split; [| exact HY]. apply Hclosed. right. now exists dir.
  - destruct (normalize_last_segment EmptyString T HT Hnd) as (Y & HY & Hclosed).
    exists Y. split; [| exact HY]. apply Hclosed. now left.
Qed.

(** The default output path is never the input path. *)
Lemma defaultOutputPath_neq inputPath : defaultOutputPath inputPath <> inputPath.
Proof.
  intros Heq.
  destruct (defaultOutputPath_ends inputPath) as [stem Hends].
  destruct (split_last_segment inputPath) as (P & L & Hp & HP & HL).
  set (e := Path.extname inputPath) in *.
  assert (HT : without "/" ("_translated" +:+ e)).
  { apply without_append. split; [apply without_translated | apply extname_without_slash]. }
  assert (HLne : L <> EmptyString).
  { intros ->. rewrite Heq in Hends.
    assert (Hle : (String.length P <= String.length stem)%nat).
    { apply (closed_length_le stem ("_translated" +:+ e) P EmptyString HP HT).
      now rewrite <- Hends, Hp. }
    apply (f_equal String.length) in Hends. rewrite Hp in Hends at 1.
    rewrite !length_append in Hends. cbn [String.length] in Hends. lia. }
  assert (Hbase : without "/" (Path.basename inputPath e) /\
                  (String.length (Path.basename inputPath e) + 11 + String.length e <>
                   String.length L)%nat).
  { destruct (extname_of_segment P L HP HL HLne) as [Hext | (L0 & HL0 & Hext)];
      rewrite <- Hp in *; fold e in Hext.
    - rewrite Hext. rewrite Hp at 1 2. rewrite (basename_of_segment P L HP HL HLne).
      split; [exact HL | cbn; lia].
    - fold e in HL0.
      assert (HL0' : without "/" L0 /\ without "/" e)
        by (now apply without_append; rewrite <- HL0).
      destruct HL0' as [HwL0 Hwe].
      rewrite Hp at 1 2. rewrite HL0 at 1 2.
      rewrite HL0, length_append.
      destruct (basename_of_segment_suffix P L0 e HP HwL0 Hwe Hext) as [-> | ->].
      + split; [exact HwL0 | lia].
      + split; [now apply without_append |]. rewrite length_append. lia. }
  destruct Hbase as [Hbase Hlength].
  destruct (defaultOutputPath_last_segment inputPath Hbase) as (Y & HY & Hout).
  fold e in Hout. rewrite Heq in Hout. rewrite Hp in Hout at 1.
  apply last_segment_unique in Hout; [| assumption | assumption | assumption |].
  - apply (f_equal String.length) in Hout. rewrite !length_append in Hout.
    cbn [String.length] in Hout. lia.
  - apply without_append. split; [exact Hbase | exact HT].
Qed.

(** *** The default output path and the operations *)

(** [X14] The default output path ends with the mark [_translated]
    followed by the extension of the input path, whatever the input
    path is. Hence an input with an extension gives an output with the
    same extension, and an input of a supported type gives an output
    of the same type. *)
Theorem defaultOutputPath_keeps_extension inputPath :
  (exists stem,
     defaultOutputPath inputPath = stem +:+ "_translated" +:+ Path.extname inputPath) /\
  (Path.extname inputPath <> EmptyString ->
   Path.extname (defaultOutputPath inputPath) = Path.extname inputPath) /\
  (forall mime, inferMimeType inputPath = Returns mime ->
     inferMimeType (defaultOutputPath inputPath) = Returns mime).
Proof.
  pose proof (defaultOutputPath_ends inputPath) as Hends.
  assert (Hext : Path.extname inputPath <> EmptyString ->
                 Path.extname (defaultOutputPath inputPath) = Path.extname inputPath).
  { intros Hne. destruct Hends as [stem ->].
    destruct (extname_cases inputPath) as [H | (e & -> & Hd & Hs)]; [contradiction |].
    change ("_translated" +:+ String "." e)
      with ("_translat" +:+ String "e" (String "d" (String "." e))).
    rewrite <- append_assoc.
    apply extname_after; try discriminate; assumption. }
  split; [exact Hends |]. split; [exact Hext |].
  intros mime Hmime. rewrite <- Hmime. unfold inferMimeType. rewrite Hext; [reflexivity |].
  intros Hempty. unfold inferMimeType in Hmime. rewrite Hempty in Hmime.
  vm_compute in Hmime. discriminate Hmime.
Qed.

Lemma defaultOutputPath_examples :
  (exists stem, defaultOutputPath "/tmp/shots/../menu.v2.JPG" = stem +:+ "_translated.JPG") /\
  Path.extname (defaultOutputPath "/tmp/shots/../menu.v2.JPG") = ".JPG"%string /\
  inferMimeType (defaultOutputPath "/tmp/shots/../menu.v2.JPG") = Returns "image/jpeg"%string.
Proof.
  destruct (defaultOutputPath_keeps_extension "/tmp/shots/../menu.v2.JPG")
    as (Hends & Hext & Hmime).
  split; [exact Hends |]. split.
  - apply Hext. vm_compute. discriminate.
  - apply Hmime. vm_compute. reflexivity.
Defined.

Lemma recreate_files request w :
  let out := default (defaultOutputPath (inputPath request)) (outputPath request) in
  let w' := fst (recreateImageWithTranslatedText request w) in
  files w' = files w \/ exists bytes, files w' = <[out := bytes]> (files w).
Proof.
  intros out w'. subst w'. unfold recreateImageWithTranslatedText. fold out.
  unfold recreateAfterGuard, bind.
  run_stage ensureFileExists_world; [| now left].
  run_stage ensureOutputWritable_world; [| now left].
  run_stage readInlineImage_world; [| now left].
  run_stage resolveApiKey_world; [| now left].
  run_stage extractTextEntries_world; [| now left].
  match goal with
  | |- context [translateEntries ?ai ?tm ?il ?ol ?es ?w0] =>
      destruct (translateEntries_requested ai tm il ol es w0) as (rs & _ & Hfs & _);
      destruct (translateEntries ai tm il ol es w0) as [w4 [translations | e]]
  end; cbn [fst sent files] in Hfs; [| now left].
  match goal with
  | |- context [(length ?es =? 0)%nat] => destruct (length es =? 0)%nat
  end.
  - unfold ret, Fs.writeFile. cbn [fst files]. right. eexists. now rewrite Hfs.
  - run_stage renderImage_world; [| now left].
    unfold ret, Fs.writeFile. cbn [fst sent files]. right. eexists. now rewrite Hfs.
Qed.

(** [X15] The default output path is never the input path, so
    [recreateImageWithTranslatedText] without an explicit output path
    leaves the input file as it is, whatever its outcome, also when the
    overwrite flag is set. *)
Theorem recreate_spares_input request w :
  defaultOutputPath (inputPath request) <> inputPath request /\
  (outputPath request = None ->
   files (fst (recreateImageWithTranslatedText request w)) !! inputPath request =
     files w !! inputPath request).
Proof.
  pose proof (defaultOutputPath_neq (inputPath request)) as Hneq.
  split; [exact Hneq |]. intros Hnone.
  destruct (recreate_files request w) as [-> | [bytes ->]]; [reflexivity |].
  rewrite Hnone. cbn [default from_option id]. now apply lookup_insert_ne.
Qed.

Lemma recreate_spares_input_example :
  let request :=
    {| inputPath := "/tmp/input.png"; outputPath := None; inputLang := None;
       outputLang := None; apiKey := None; imageModel := None; textModel := None;
       force := Some true |} in
  let w := world {[ "/tmp/input.png"%string := PNG ]} (Some "test-key"%string)
             [textResponse (lit "[]")] in
  snd (recreateImageWithTranslatedText request w) =
    Returns "/tmp/input_translated.png"%string /\
  files (fst (recreateImageWithTranslatedText request w)) !! "/tmp/input.png"%string =
    Some PNG.
Proof.
  intros request w. split; [vm_compute; reflexivity |].
  destruct (recreate_spares_input request w) as [_ H].
  etransitivity; [exact (H eq_refl) | vm_compute; reflexivity].
Defined.

(** ** TranslationStage, further *)

(** [X16] The keyword [auto] of the source language is read in any
    letter case: the translation request for [AUTO], [Auto] and the
    like is the request for [auto], the one that asks the model to
    detect the language of each entry. *)
Theorem translationRequest_auto_any_case textModel inputLang outputLang entries :
  inAnyCase "auto" inputLang ->
  translationRequest textModel inputLang outputLang entries =
    translationRequest textModel "auto" outputLang entries.
Proof.
  intros H. unfold translationRequest.
  now rewrite (inAnyCase_toLowerCase "auto" inputLang H).
Qed.

Lemma translationRequest_auto_example :
  translationRequest "gemini-3-pro-preview" "AuTo" "english" greetings =
    translationRequest "gemini-3-pro-preview" "auto" "english" greetings.
Proof.
  apply translationRequest_auto_any_case. vm_compute.
  repeat split; (left; reflexivity) || (right; reflexivity).
Defined.

(** [X17] What [translateEntries] can do at all. When it returns, the
    list is as long as the entries, and holds no empty string when no
    entry has an empty text. When it throws, the entries are not empty
    and the error is the one the service rejected the translation
    request with, or the one [parseJsonArray] threw on the text of the
    response: the lookup of the source text of an entry never fails. *)
Theorem translateEntries_outcomes ai textModel inputLang outputLang entries w :
  let request := translationRequest textModel inputLang outputLang entries in
  match snd (translateEntries ai textModel inputLang outputLang entries w) with
  | Returns translations =>
      length translations = length entries /\
      (Forall (fun entry => text entry <> []) entries ->
       Forall (fun translation => translation <> []) translations)
  | Throws e =>
      entries <> [] /\
      (service w (Genai.apiKey ai) (calls w) request = Throws e \/
       exists response,
         service w (Genai.apiKey ai) (calls w) request = Returns response /\
         parseJsonArray (default [] (Genai.Response.text response)) = Throws e)
  end.
Proof.
  intros request.
  destruct (translateEntries ai textModel inputLang outputLang entries w)
    as [w' [translations | e]] eqn:E; cbn [snd].
  - split; [now apply (translateEntries_length _ _ _ _ _ _ _ _ E) |].
    intros Hentries.
    apply translateEntries_Returns_inv in E as [[_ ->] | [rawItems ->]].
    + constructor.
    + now apply specified_nonempty.
  - unfold translateEntries in E. destruct entries as [| entry entries']; [discriminate |].
    split; [discriminate |]. cbn [length Nat.eqb] in E.
    unfold bind, generateContent, lift in E. fold request in E.
    destruct (service w (Genai.apiKey ai) (calls w) request) as [response | e'];
      [| injection E as _ <-; now left].
    right. exists response. split; [reflexivity |].
    destruct (parseJsonArray _) as [rawItems | e'']; [| now injection E as _ <-].
    rewrite merge_specified in E. discriminate E.
Qed.
